(** * OpenCppCoverage: the debug loop and the coverage filter manager

    A shallow embedding of [src/CppCoverage/Debugger.cpp] and
    [src/CppCoverage/CoverageFilterManager.cpp], and the properties of the
    specification proved (or refuted) on it. *)

From stdpp Require Import gmap strings list sorting.
From Stdlib Require Import ZArith Lia Ascii DecimalString OrdersEx.

Local Open Scope Z_scope.

(** ** Part I.  [Debugger.cpp] *)

Module Debugger.

(** *** Win32 data *)

(** [DWORD] is an unsigned 32-bit integer and [HANDLE] an opaque pointer;
    both are carried as [Z].  The only arithmetic the code does on them is the
    conversion of a [DWORD] to [int], written out in [to_int]. *)
Abbreviation DWORD := Z (only parsing).
Abbreviation HANDLE := Z (only parsing).

Definition DBG_CONTINUE : DWORD := 0x00010002.
Definition DBG_EXCEPTION_NOT_HANDLED : DWORD := 0x80010001.
Definition EXCEPTION_BREAKPOINT : DWORD := 0x80000003.
Definition DEBUG_PROCESS : DWORD := 0x00000001.
Definition DEBUG_ONLY_THIS_PROCESS : DWORD := 0x00000002.

(** Conversion of a 32-bit unsigned value to [int] (two's complement). *)
Definition to_int (x : Z) : Z :=
  let m := x mod 2 ^ 32 in
  if m <? 2 ^ 31 then m else m - 2 ^ 32.

(** [IDebugEventsHandler::ExceptionType].  It is an enumeration of five
    values; [OutOfEnum] stands for any other value of the underlying type,
    the case the [switch] of [OnException] falls through on. *)
Inductive ExceptionType :=
| BreakPoint
| InvalidBreakPoint
| NotHandled
| Error
| CppError
| OutOfEnum (raw : Z).

(** The union [debugEvent.u] together with [dwDebugEventCode].  Only the
    fields the debugger reads are kept.  The last field of
    [EXCEPTION_DEBUG_EVENT] is not part of the Win32 structure: it is the
    answer [debugEventsHandler.OnException] gives for this event.  The handler
    is an external collaborator, so its answer belongs to the scripted
    environment like the event itself. *)
Inductive DebugEventInfo :=
| CREATE_PROCESS_DEBUG_EVENT (hFile hProcess hThread : HANDLE)
| CREATE_THREAD_DEBUG_EVENT (hThread : HANDLE)
| EXIT_PROCESS_DEBUG_EVENT (dwExitCode : DWORD)
| EXIT_THREAD_DEBUG_EVENT (dwExitCode : DWORD)
| LOAD_DLL_DEBUG_EVENT (hFile : HANDLE)
| UNLOAD_DLL_DEBUG_EVENT
| EXCEPTION_DEBUG_EVENT (dwFirstChance : DWORD) (ExceptionCode : DWORD)
                        (handlerAnswer : ExceptionType)
| RIP_EVENT (dwType dwError : DWORD)
| OTHER_DEBUG_EVENT (dwDebugEventCode : DWORD).

Record DEBUG_EVENT := {
  dwProcessId : DWORD;
  dwThreadId : DWORD;
  u : DebugEventInfo
}.

(** What one pass of the loop meets: [WaitForDebugEvent] fails (with the
    value [GetLastError] then gives), or it delivers an event and the later
    [ContinueDebugEvent] succeeds ([None]) or fails ([Some lastError]). *)
Inductive OsStep :=
| WaitFails (lastError : DWORD)
| Deliver (debugEvent : DEBUG_EVENT) (continueFails : option DWORD).

(** Calls that leave the debugger, in the order they are made.  Logging is
    left out. *)
Inductive Call :=
| Process_Start (creationFlags : DWORD)
| CloseHandle (h : HANDLE)
| Handler_OnCreateProcess (hProcess hThread : HANDLE)
| Handler_OnExitProcess (hProcess hThread : HANDLE) (dwExitCode : DWORD)
| Handler_OnLoadDll (hProcess hThread hFile : HANDLE)
| Handler_OnUnloadDll (hProcess hThread : HANDLE)
| Handler_OnException (hProcess hThread : HANDLE)
                      (dwFirstChance ExceptionCode : DWORD)
| GetThreadContext (hThread : HANDLE)
| CreateMiniDumpFromException (dwProcessId dwThreadId : DWORD)
                              (hProcess : HANDLE) (dumpDirectory : string)
| ContinueDebugEvent (dwProcessId dwThreadId continueStatus : DWORD).

(** *** The debugger object *)

Record ProcessStatus := {
  exitCode_ : option Z;
  continueStatus_ : option DWORD
}.

Record Debugger := {
  coverChildren_ : bool;
  continueAfterCppException_ : bool;
  stopOnAssert_ : bool;
  dumpOnCrash_ : bool;
  dumpDirectory_ : string;
  processHandles_ : gmap Z Z;
  threadHandles_ : gmap Z Z;
  rootProcessId_ : option Z
}.

Definition set_processHandles (f : gmap Z Z → gmap Z Z) (d : Debugger) : Debugger :=
  {| coverChildren_ := coverChildren_ d;
     continueAfterCppException_ := continueAfterCppException_ d;
     stopOnAssert_ := stopOnAssert_ d;
     dumpOnCrash_ := dumpOnCrash_ d;
     dumpDirectory_ := dumpDirectory_ d;
     processHandles_ := f (processHandles_ d);
     threadHandles_ := threadHandles_ d;
     rootProcessId_ := rootProcessId_ d |}.

Definition set_threadHandles (f : gmap Z Z → gmap Z Z) (d : Debugger) : Debugger :=
  {| coverChildren_ := coverChildren_ d;
     continueAfterCppException_ := continueAfterCppException_ d;
     stopOnAssert_ := stopOnAssert_ d;
     dumpOnCrash_ := dumpOnCrash_ d;
     dumpDirectory_ := dumpDirectory_ d;
     processHandles_ := processHandles_ d;
     threadHandles_ := f (threadHandles_ d);
     rootProcessId_ := rootProcessId_ d |}.

Definition set_rootProcessId (r : option Z) (d : Debugger) : Debugger :=
  {| coverChildren_ := coverChildren_ d;
     continueAfterCppException_ := continueAfterCppException_ d;
     stopOnAssert_ := stopOnAssert_ d;
     dumpOnCrash_ := dumpOnCrash_ d;
     dumpDirectory_ := dumpDirectory_ d;
     processHandles_ := processHandles_ d;
     threadHandles_ := threadHandles_ d;
     rootProcessId_ := r |}.

(** *** A state and exception monad for the member functions

    A member function reads and writes the object ([this]), makes calls to
    the outside ([calls], most recent last) and either returns or throws.
    The object keeps what was written to it before a throw. *)

Inductive Exception :=
| CppCoverageException (message : string)         (* THROW(message) *)
| LastErrorException (message : string) (lastError : DWORD)
                                                  (* THROW_LAST_ERROR *)
| std_out_of_range.                               (* unordered_map::at *)

Inductive Result (A : Type) :=
| Normal (a : A)
| Throw (e : Exception).
Arguments Normal {A} a.
Arguments Throw {A} e.

Record World := {
  this : Debugger;
  calls : list Call
}.

Definition M (A : Type) : Type := World → Result A * World.

Definition ret {A} (a : A) : M A := λ w, (Normal a, w).

Definition bind {A B} (c : M A) (k : A → M B) : M B :=
  λ w, match c w with
       | (Normal a, w') => k a w'
       | (Throw e, w') => (Throw e, w')
       end.

Notation "'do' x <- c ; k" := (bind c (λ x, k))
  (at level 10, x name, c at level 100, k at level 200).
Notation "c ;; k" := (bind c (λ _, k))
  (at level 100, k at level 200, right associativity).

Definition THROW {A} (message : string) : M A :=
  λ w, (Throw (CppCoverageException message), w).

Definition THROW_LAST_ERROR {A} (message : string) (lastError : DWORD) : M A :=
  λ w, (Throw (LastErrorException message lastError), w).

Definition get_this : M Debugger := λ w, (Normal (this w), w).

Definition modify_this (f : Debugger → Debugger) : M unit :=
  λ w, (Normal tt, {| this := f (this w); calls := calls w |}).

(** A call that returns: a call of the Win32 API, or a call into C++ code
    (the handler, [Process::Start], the minidump writer) in a run where it
    does not throw.  The member functions of this module are the code with
    callees that return; [ThrowingCallees], after this module, has them with
    callees that throw. *)
Definition call (c : Call) : M unit :=
  λ w, (Normal tt, {| this := this w; calls := calls w ++ [c] |}).

(** [Tools::ScopedAction]: the action runs when the scope is left, by a
    return or by a throw. *)
Definition ScopedAction {A} (action : Call) (body : M A) : M A :=
  λ w, let '(r, w') := body w in
       (r, {| this := this w'; calls := calls w' ++ [action] |}).

(** *** Member functions *)

Definition OnCreateThread (hThread : HANDLE) (dwThreadId : DWORD) : M unit :=
  do d <- get_this;
  match threadHandles_ d !! dwThreadId with
  | None => modify_this (set_threadHandles <[dwThreadId := hThread]>)
  | Some _ => THROW "Thread id already exist"
  end.

Definition OnExitThread (dwThreadId : DWORD) : M unit :=
  do d <- get_this;
  match threadHandles_ d !! dwThreadId with
  | Some _ => modify_this (set_threadHandles (delete dwThreadId))
  | None => THROW "Cannot find exited thread."
  end.

Definition GetProcessHandle (dwProcessId : DWORD) : M HANDLE :=
  do d <- get_this;
  match processHandles_ d !! dwProcessId with
  | Some h => ret h
  | None => λ w, (Throw std_out_of_range, w)
  end.

Definition GetThreadHandle (dwThreadId : DWORD) : M HANDLE :=
  do d <- get_this;
  match threadHandles_ d !! dwThreadId with
  | Some h => ret h
  | None => λ w, (Throw std_out_of_range, w)
  end.

Definition GetRunningProcesses (d : Debugger) : nat := size (processHandles_ d).
Definition GetRunningThreads (d : Debugger) : nat := size (threadHandles_ d).

Definition OnCreateProcess (debugEvent : DEBUG_EVENT)
    (hFile hProcess hThread : HANDLE) : M unit :=
  ScopedAction (CloseHandle hFile) (
    do d <- get_this;
    (if bool_decide (rootProcessId_ d = None)
        && bool_decide (processHandles_ d = ∅)
     then modify_this (set_rootProcessId (Some (dwProcessId debugEvent)))
     else ret tt);;
    do d <- get_this;
    match processHandles_ d !! dwProcessId debugEvent with
    | None =>
        modify_this (set_processHandles <[dwProcessId debugEvent := hProcess]>)
    | Some _ => THROW "Process id already exist"
    end;;
    call (Handler_OnCreateProcess hProcess hThread);;
    OnCreateThread hThread (dwThreadId debugEvent)).

Definition OnExitProcess (debugEvent : DEBUG_EVENT) (dwExitCode : DWORD)
    (hProcess hThread : HANDLE) : M Z :=
  OnExitThread (dwThreadId debugEvent);;
  let processId := dwProcessId debugEvent in
  call (Handler_OnExitProcess hProcess hThread dwExitCode);;
  do d <- get_this;
  match processHandles_ d !! processId with
  | Some _ => modify_this (set_processHandles (delete processId))
  | None => THROW "Cannot find exited process."
  end;;
  ret (to_int dwExitCode).

Definition HandleCrashDump (debugEvent : DEBUG_EVENT) (dwFirstChance : DWORD)
    (hProcess hThread : HANDLE) (includeFirstChance : bool) : M unit :=
  do d <- get_this;
  if negb (dumpOnCrash_ d) then ret tt
  else if negb (dwFirstChance =? 0) && negb includeFirstChance then ret tt
  else
    call (GetThreadContext hThread);;
    call (CreateMiniDumpFromException (dwProcessId debugEvent)
            (dwThreadId debugEvent) hProcess (dumpDirectory_ d)).

Definition OnException (debugEvent : DEBUG_EVENT)
    (dwFirstChance ExceptionCode : DWORD) (handlerAnswer : ExceptionType)
    (hProcess hThread : HANDLE) : M ProcessStatus :=
  call (Handler_OnException hProcess hThread dwFirstChance ExceptionCode);;
  let exceptionType := handlerAnswer in
  do d <- get_this;
  match exceptionType with
  | BreakPoint =>
      ret {| exitCode_ := None; continueStatus_ := Some DBG_CONTINUE |}
  | InvalidBreakPoint =>
      HandleCrashDump debugEvent dwFirstChance hProcess hThread true;;
      if stopOnAssert_ d
      then ret {| exitCode_ := None;
                  continueStatus_ := Some DBG_EXCEPTION_NOT_HANDLED |}
      else ret {| exitCode_ := Some (to_int EXCEPTION_BREAKPOINT);
                  continueStatus_ := Some DBG_CONTINUE |}
  | NotHandled =>
      HandleCrashDump debugEvent dwFirstChance hProcess hThread false;;
      ret {| exitCode_ := None;
             continueStatus_ := Some DBG_EXCEPTION_NOT_HANDLED |}
  | Error =>
      HandleCrashDump debugEvent dwFirstChance hProcess hThread false;;
      ret {| exitCode_ := None;
             continueStatus_ := Some DBG_EXCEPTION_NOT_HANDLED |}
  | CppError =>
      HandleCrashDump debugEvent dwFirstChance hProcess hThread false;;
      if continueAfterCppException_ d
      then ret {| exitCode_ := Some (to_int ExceptionCode);
                  continueStatus_ := Some DBG_CONTINUE |}
      else ret {| exitCode_ := None;
                  continueStatus_ := Some DBG_EXCEPTION_NOT_HANDLED |}
  | OutOfEnum _ => THROW "Invalid exception Type."
  end.

Definition HandleNotCreationalEvent (debugEvent : DEBUG_EVENT)
    (hProcess hThread : HANDLE) (dwThreadId : DWORD) : M ProcessStatus :=
  match u debugEvent with
  | EXIT_PROCESS_DEBUG_EVENT dwExitCode =>
      do exitCode <- OnExitProcess debugEvent dwExitCode hProcess hThread;
      ret {| exitCode_ := Some exitCode; continueStatus_ := None |}
  | EXIT_THREAD_DEBUG_EVENT _ =>
      OnExitThread dwThreadId;;
      ret {| exitCode_ := None; continueStatus_ := None |}
  | LOAD_DLL_DEBUG_EVENT hFile =>
      ScopedAction (CloseHandle hFile)
        (call (Handler_OnLoadDll hProcess hThread hFile));;
      ret {| exitCode_ := None; continueStatus_ := None |}
  | UNLOAD_DLL_DEBUG_EVENT =>
      call (Handler_OnUnloadDll hProcess hThread);;
      ret {| exitCode_ := None; continueStatus_ := None |}
  | EXCEPTION_DEBUG_EVENT dwFirstChance ExceptionCode handlerAnswer =>
      OnException debugEvent dwFirstChance ExceptionCode handlerAnswer
                  hProcess hThread
  | _ => ret {| exitCode_ := None; continueStatus_ := None |}
  end.

Definition HandleDebugEvent (debugEvent : DEBUG_EVENT) : M ProcessStatus :=
  let dwProcessId := dwProcessId debugEvent in
  let dwThreadId := dwThreadId debugEvent in
  match u debugEvent with
  | CREATE_PROCESS_DEBUG_EVENT hFile hProcess hThread =>
      OnCreateProcess debugEvent hFile hProcess hThread;;
      ret {| exitCode_ := None; continueStatus_ := None |}
  | CREATE_THREAD_DEBUG_EVENT hThread =>
      OnCreateThread hThread dwThreadId;;
      ret {| exitCode_ := None; continueStatus_ := None |}
  | _ =>
      do hProcess <- GetProcessHandle dwProcessId;
      do hThread <- GetThreadHandle dwThreadId;
      HandleNotCreationalEvent debugEvent hProcess hThread dwThreadId
  end.

(** *** [Debugger::Debug]

    The local variable [exitCode] is threaded through the loop.  The
    environment is a script of [OsStep]s, consumed one per iteration; when
    the script is used up, [WaitForDebugEvent(INFINITE)] never returns. *)

Definition loop_condition (exitCode : option Z) (d : Debugger) : bool :=
  negb (bool_decide (is_Some exitCode))
  || negb (bool_decide (processHandles_ d = ∅)).

Definition Debug_iteration (exitCode : option Z) (step : OsStep)
  : M (option Z) :=
  match step with
  | WaitFails lastError =>
      THROW_LAST_ERROR "Error WaitForDebugEvent:" lastError
  | Deliver debugEvent continueFails =>
      do processStatus <- HandleDebugEvent debugEvent;
      do d <- get_this;
      let exitCode' :=
        if bool_decide (is_Some (exitCode_ processStatus))
           && bool_decide (rootProcessId_ d = Some (dwProcessId debugEvent))
           && negb (bool_decide (is_Some exitCode))
        then exitCode_ processStatus
        else exitCode in
      let continueStatus :=
        default DBG_CONTINUE (continueStatus_ processStatus) in
      call (ContinueDebugEvent (dwProcessId debugEvent)
              (dwThreadId debugEvent) continueStatus);;
      match continueFails with
      | Some lastError =>
          THROW_LAST_ERROR "Error in ContinueDebugEvent:" lastError
      | None => ret exitCode'
      end
  end.

(** How a call of [Debug] ends: it returns, it throws, or it waits for an
    event that never comes. *)
Inductive Outcome :=
| Returned (exitCode : Z)
| Thrown (e : Exception)
| WaitsForever.

(** The [while] loop.  When its condition is false [exitCode] is set, and
    [return *exitCode] gives its value. *)
Fixpoint Debug_loop (exitCode : option Z) (script : list OsStep) (w : World)
  : Outcome * World :=
  if loop_condition exitCode (this w) then
    match script with
    | [] => (WaitsForever, w)
    | step :: script' =>
        match Debug_iteration exitCode step w with
        | (Normal exitCode', w') => Debug_loop exitCode' script' w'
        | (Throw e, w') => (Thrown e, w')
        end
    end
  else (Returned (default 0 exitCode), w).

(** What [Debug] does before the loop: the target is started, then the two
    tables and the root process id are cleared. *)
Definition Debug_start : M unit :=
  do d <- get_this;
  call (Process_Start (if coverChildren_ d then DEBUG_PROCESS
                       else DEBUG_ONLY_THIS_PROCESS));;
  modify_this (set_processHandles (λ _, ∅));;
  modify_this (set_threadHandles (λ _, ∅));;
  modify_this (set_rootProcessId None).

Definition Debug (script : list OsStep) (w : World) : Outcome * World :=
  match Debug_start w with
  | (Normal _, w') => Debug_loop None script w'
  | (Throw e, w') => (Thrown e, w')
  end.

(** *** The loop seen from its iterations

    [Debug_steps exitCode steps w] is the state of the loop after its body
    has run once for each of [steps], in turn, from the local [exitCode] and
    the world [w].  It is [None] when the loop does not get that far: its
    condition is false before one of the steps, or an iteration throws. *)
Fixpoint Debug_steps (exitCode : option Z) (steps : list OsStep) (w : World)
  : option (option Z * World) :=
  match steps with
  | [] => Some (exitCode, w)
  | step :: steps' =>
      if loop_condition exitCode (this w) then
        match Debug_iteration exitCode step w with
        | (Normal exitCode', w') => Debug_steps exitCode' steps' w'
        | (Throw _, _) => None
        end
      else None
  end.

(** The same from the start of [Debug]. *)
Definition Debug_handled (steps : list OsStep) (w : World)
  : option (option Z * World) :=
  Debug_steps None steps (snd (Debug_start w)).

(** The events a script delivers. *)
Definition events (script : list OsStep) : list DEBUG_EVENT :=
  omap (λ step, match step with
                | Deliver debugEvent _ => Some debugEvent
                | WaitFails _ => None
                end) script.

(** *** Vocabulary of the specification *)

Definition is_create_process (ev : DEBUG_EVENT) : bool :=
  match u ev with CREATE_PROCESS_DEBUG_EVENT _ _ _ => true | _ => false end.

Definition is_exit_process (ev : DEBUG_EVENT) : bool :=
  match u ev with EXIT_PROCESS_DEBUG_EVENT _ => true | _ => false end.

(** A thread is created by [CREATE_THREAD], or synthetically by
    [CREATE_PROCESS], which announces the initial thread. *)
Definition is_create_thread (ev : DEBUG_EVENT) : bool :=
  match u ev with
  | CREATE_THREAD_DEBUG_EVENT _ | CREATE_PROCESS_DEBUG_EVENT _ _ _ => true
  | _ => false
  end.

(** A thread is removed by [EXIT_THREAD], or synthetically by [EXIT_PROCESS]
    of the exiting thread. *)
Definition is_exit_thread (ev : DEBUG_EVENT) : bool :=
  match u ev with
  | EXIT_THREAD_DEBUG_EVENT _ | EXIT_PROCESS_DEBUG_EVENT _ => true
  | _ => false
  end.

(** [id] has been created by an event of [evs] and not removed by any later
    one.  [key] gives the id an event is about, [creates] and [removes] say
    which events create and remove. *)
Definition created_not_exited (key : DEBUG_EVENT → Z)
    (creates removes : DEBUG_EVENT → bool)
    (id : Z) (evs : list DEBUG_EVENT) : Prop :=
  ∃ pre ev post,
    evs = pre ++ ev :: post
    ∧ creates ev = true ∧ key ev = id
    ∧ ∀ ev', ev' ∈ post → ¬ (removes ev' = true ∧ key ev' = id).

(** The process id of the first [CREATE_PROCESS] event of a sequence. *)
Fixpoint first_create_process (evs : list DEBUG_EVENT) : option Z :=
  match evs with
  | [] => None
  | ev :: evs' =>
      if is_create_process ev then Some (dwProcessId ev)
      else first_create_process evs'
  end.

(** The exit-code field of the [ProcessStatus] an event yields when it is
    handled without a throw ([HandleNotCreationalEvent], [OnException]):
    the exit code of an exiting process, the breakpoint code for an invalid
    breakpoint that is swallowed, the exception code for a C++ exception the
    debugger continues after. *)
Definition status_exit_code (d : Debugger) (ev : DEBUG_EVENT) : option Z :=
  match u ev with
  | EXIT_PROCESS_DEBUG_EVENT dwExitCode => Some (to_int dwExitCode)
  | EXCEPTION_DEBUG_EVENT _ _ InvalidBreakPoint =>
      if stopOnAssert_ d then None else Some (to_int EXCEPTION_BREAKPOINT)
  | EXCEPTION_DEBUG_EVENT _ ExceptionCode CppError =>
      if continueAfterCppException_ d then Some (to_int ExceptionCode)
      else None
  | _ => None
  end.

(** [d'] has the construction parameters of [d]. *)
Definition same_configuration (d d' : Debugger) : Prop :=
  coverChildren_ d = coverChildren_ d'
  ∧ continueAfterCppException_ d = continueAfterCppException_ d'
  ∧ stopOnAssert_ d = stopOnAssert_ d'
  ∧ dumpOnCrash_ d = dumpOnCrash_ d'
  ∧ dumpDirectory_ d = dumpDirectory_ d'.

(** An exception that reports a broken invariant of the handle tables or of
    the handler's answer, as opposed to a failed OS call. *)
Definition invariant_error (e : Exception) : bool :=
  match e with
  | CppCoverageException _ | std_out_of_range => true
  | LastErrorException _ _ => false
  end.

(** The states and events on which handling the event throws: a process or
    thread id that is already present on creation, a process or thread id
    that is missing for any event that is not a creation, and an answer of
    the handler outside the enumeration. *)
Definition violates (d : Debugger) (ev : DEBUG_EVENT) : Prop :=
  match u ev with
  | CREATE_PROCESS_DEBUG_EVENT _ _ _ =>
      is_Some (processHandles_ d !! dwProcessId ev)
      ∨ is_Some (threadHandles_ d !! dwThreadId ev)
  | CREATE_THREAD_DEBUG_EVENT _ =>
      is_Some (threadHandles_ d !! dwThreadId ev)
  | EXCEPTION_DEBUG_EVENT _ _ (OutOfEnum _) => True
  | _ =>
      processHandles_ d !! dwProcessId ev = None
      ∨ threadHandles_ d !! dwThreadId ev = None
  end.

(** The situations the specification lists for an invariant violation:
    creation of a present id, exit of an absent id, unknown answer. *)
Definition listed_violation (d : Debugger) (ev : DEBUG_EVENT) : Prop :=
  match u ev with
  | CREATE_PROCESS_DEBUG_EVENT _ _ _ =>
      is_Some (processHandles_ d !! dwProcessId ev)
      ∨ is_Some (threadHandles_ d !! dwThreadId ev)
  | CREATE_THREAD_DEBUG_EVENT _ =>
      is_Some (threadHandles_ d !! dwThreadId ev)
  | EXIT_PROCESS_DEBUG_EVENT _ =>
      processHandles_ d !! dwProcessId ev = None
      ∨ threadHandles_ d !! dwThreadId ev = None
  | EXIT_THREAD_DEBUG_EVENT _ =>
      threadHandles_ d !! dwThreadId ev = None
  | EXCEPTION_DEBUG_EVENT _ _ (OutOfEnum _) => True
  | _ => False
  end.

(** *** Auxiliary definitions for the proofs *)

(** The value of the local [exitCode] after an iteration: it takes the
    status's exit code when that is set, the event is one of the root
    process and no exit code has been recorded so far. *)
Definition latch (exitCode : option Z) (root : option Z) (ev : DEBUG_EVENT)
    (status : option Z) : option Z :=
  match exitCode, status with
  | None, Some c =>
      if bool_decide (root = Some (dwProcessId ev)) then Some c else None
  | _, _ => exitCode
  end.

(** The debugger object after an event has been handled without a throw. *)
Definition after_event (d : Debugger) (ev : DEBUG_EVENT) : Debugger :=
  match u ev with
  | CREATE_PROCESS_DEBUG_EVENT _ hProcess hThread =>
      set_threadHandles <[dwThreadId ev := hThread]>
        (set_processHandles <[dwProcessId ev := hProcess]>
           (if bool_decide (rootProcessId_ d = None)
               && bool_decide (processHandles_ d = ∅)
            then set_rootProcessId (Some (dwProcessId ev)) d else d))
  | CREATE_THREAD_DEBUG_EVENT hThread =>
      set_threadHandles <[dwThreadId ev := hThread]> d
  | EXIT_PROCESS_DEBUG_EVENT _ =>
      set_processHandles (delete (dwProcessId ev))
        (set_threadHandles (delete (dwThreadId ev)) d)
  | EXIT_THREAD_DEBUG_EVENT _ =>
      set_threadHandles (delete (dwThreadId ev)) d
  | _ => d
  end.

(** The latched exit code [ec] after the loop has handled [evs], for a
    debugger configured as [d]: it is the exit code of the first status with
    one among the events of the root process. *)
Definition latch_invariant (d : Debugger) (evs : list DEBUG_EVENT)
    (ec : option Z) : Prop :=
  (first_create_process evs = None →
   ∀ e, e ∈ evs → status_exit_code d e = None)
  ∧ match ec with
    | Some r =>
        ∃ pre ev post,
          evs = pre ++ ev :: post
          ∧ first_create_process evs = Some (dwProcessId ev)
          ∧ status_exit_code d ev = Some r
          ∧ ∀ e, e ∈ pre → dwProcessId e = dwProcessId ev →
                 status_exit_code d e = None
    | None =>
        ∀ e, e ∈ evs → first_create_process evs = Some (dwProcessId e) →
             status_exit_code d e = None
    end.

(** *** Scripts of the end-to-end scenarios *)

Definition create_process (pid tid hFile hProcess hThread : Z) : OsStep :=
  Deliver {| dwProcessId := pid; dwThreadId := tid;
             u := CREATE_PROCESS_DEBUG_EVENT hFile hProcess hThread |} None.

Definition exit_process (pid tid code : Z) : OsStep :=
  Deliver {| dwProcessId := pid; dwThreadId := tid;
             u := EXIT_PROCESS_DEBUG_EVENT code |} None.

(** Root 100 and child 200 are created, each with its initial thread ([t1],
    [t2]) and handles; the root exits with code 7, then the child with 9. *)
Definition exits_in_order (t1 t2 f1 p1 h1 f2 p2 h2 : Z) : list OsStep :=
  [create_process 100 t1 f1 p1 h1; create_process 200 t2 f2 p2 h2;
   exit_process 100 t1 7; exit_process 200 t2 9].

(** The same with the child exiting first. *)
Definition exits_reversed (t1 t2 f1 p1 h1 f2 p2 h2 : Z) : list OsStep :=
  [create_process 100 t1 f1 p1 h1; create_process 200 t2 f2 p2 h2;
   exit_process 200 t2 9; exit_process 100 t1 7].

(** The root process hits a breakpoint the debugger did not set, then exits
    with code 7. *)
Definition breakpoint_script : list OsStep :=
  [ create_process 100 1 11 12 13;
    Deliver {| dwProcessId := 100; dwThreadId := 1;
               u := EXCEPTION_DEBUG_EVENT 1 EXCEPTION_BREAKPOINT
                      InvalidBreakPoint |} None;
    exit_process 100 1 7 ].

(** A DLL load is reported for a process the debugger has not seen. *)
Definition load_dll_script : list OsStep :=
  [ Deliver {| dwProcessId := 100; dwThreadId := 1;
               u := LOAD_DLL_DEBUG_EVENT 11 |} None ].

Definition default_debugger : Debugger :=
  {| coverChildren_ := true;
     continueAfterCppException_ := false;
     stopOnAssert_ := false;
     dumpOnCrash_ := false;
     dumpDirectory_ := "";
     processHandles_ := ∅;
     threadHandles_ := ∅;
     rootProcessId_ := None |}.

Definition default_world : World := {| this := default_debugger; calls := [] |}.

Definition one_process_script : list OsStep := [create_process 100 1 11 12 13].

(** The world after [Debug] has handled [one_process_script]. *)
Definition one_process_world : World :=
  {| this :=
       set_rootProcessId (Some 100)
         (set_threadHandles (λ _, {[ 1 := 13 ]})
            (set_processHandles (λ _, {[ 100 := 12 ]}) default_debugger));
     calls := [Process_Start DEBUG_PROCESS; Handler_OnCreateProcess 12 13;
               CloseHandle 11; ContinueDebugEvent 100 1 DBG_CONTINUE] |}.

(** A world in which the root 100 and a child 200 are running. *)
Definition two_process_world : World :=
  {| this :=
       set_rootProcessId (Some 100)
         (set_threadHandles (λ _, {[ 1 := 13; 2 := 23 ]})
            (set_processHandles (λ _, {[ 100 := 12; 200 := 22 ]})
               default_debugger));
     calls := [] |}.

End Debugger.

(** *** Callees that throw

    [Debugger.cpp] catches nothing: when the code it calls into throws, the
    exception leaves the member function at the call, and [Debug] with it.
    The member functions of [Debugger] above are the code in the runs where
    every callee returns.  Here they are again for callees that may throw:
    [Process::Start], the callbacks of the [IDebugEventsHandler] and
    [Tools::CreateMiniDumpFromException].  Calls of the Win32 API report a
    failure by their result and do not throw. *)

Module ThrowingCallees.
Import Debugger.

(** What the callees do: given the calls made so far and the call being
    made, the callee returns ([None]) or throws an exception of its own. *)
Definition Callees : Type := list Call → Call → option Exception.

(** The callees that always return. *)
Definition returning : Callees := λ _ _, None.

Section callees.
Variable callees : Callees.

(** A call into C++ code: the call is made, and the callee returns or
    throws. *)
Definition call_cpp (c : Call) : M unit :=
  λ w, let w' := {| this := this w; calls := calls w ++ [c] |} in
       match callees (calls w) c with
       | None => (Normal tt, w')
       | Some e => (Throw e, w')
       end.

Definition OnCreateProcess (debugEvent : DEBUG_EVENT)
    (hFile hProcess hThread : HANDLE) : M unit :=
  ScopedAction (CloseHandle hFile) (
    do d <- get_this;
    (if bool_decide (rootProcessId_ d = None)
        && bool_decide (processHandles_ d = ∅)
     then modify_this (set_rootProcessId (Some (dwProcessId debugEvent)))
     else ret tt);;
    do d <- get_this;
    match processHandles_ d !! dwProcessId debugEvent with
    | None =>
        modify_this (set_processHandles <[dwProcessId debugEvent := hProcess]>)
    | Some _ => THROW "Process id already exist"
    end;;
    call_cpp (Handler_OnCreateProcess hProcess hThread);;
    OnCreateThread hThread (dwThreadId debugEvent)).

Definition OnExitProcess (debugEvent : DEBUG_EVENT) (dwExitCode : DWORD)
    (hProcess hThread : HANDLE) : M Z :=
  OnExitThread (dwThreadId debugEvent);;
  let processId := dwProcessId debugEvent in
  call_cpp (Handler_OnExitProcess hProcess hThread dwExitCode);;
  do d <- get_this;
  match processHandles_ d !! processId with
  | Some _ => modify_this (set_processHandles (delete processId))
  | None => THROW "Cannot find exited process."
  end;;
  ret (to_int dwExitCode).

Definition HandleCrashDump (debugEvent : DEBUG_EVENT) (dwFirstChance : DWORD)
    (hProcess hThread : HANDLE) (includeFirstChance : bool) : M unit :=
  do d <- get_this;
  if negb (dumpOnCrash_ d) then ret tt
  else if negb (dwFirstChance =? 0) && negb includeFirstChance then ret tt
  else
    call (GetThreadContext hThread);;
    call_cpp (CreateMiniDumpFromException (dwProcessId debugEvent)
                (dwThreadId debugEvent) hProcess (dumpDirectory_ d)).

Definition OnException (debugEvent : DEBUG_EVENT)
    (dwFirstChance ExceptionCode : DWORD) (handlerAnswer : ExceptionType)
    (hProcess hThread : HANDLE) : M ProcessStatus :=
  call_cpp (Handler_OnException hProcess hThread dwFirstChance ExceptionCode);;
  let exceptionType := handlerAnswer in
  do d <- get_this;
  match exceptionType with
  | BreakPoint =>
      ret {| exitCode_ := None; continueStatus_ := Some DBG_CONTINUE |}
  | InvalidBreakPoint =>
      HandleCrashDump debugEvent dwFirstChance hProcess hThread true;;
      if stopOnAssert_ d
      then ret {| exitCode_ := None;
                  continueStatus_ := Some DBG_EXCEPTION_NOT_HANDLED |}
      else ret {| exitCode_ := Some (to_int EXCEPTION_BREAKPOINT);
                  continueStatus_ := Some DBG_CONTINUE |}
  | NotHandled =>
      HandleCrashDump debugEvent dwFirstChance hProcess hThread false;;
      ret {| exitCode_ := None;
             continueStatus_ := Some DBG_EXCEPTION_NOT_HANDLED |}
  | Error =>
      HandleCrashDump debugEvent dwFirstChance hProcess hThread false;;
      ret {| exitCode_ := None;
             continueStatus_ := Some DBG_EXCEPTION_NOT_HANDLED |}
  | CppError =>
      HandleCrashDump debugEvent dwFirstChance hProcess hThread false;;
      if continueAfterCppException_ d
      then ret {| exitCode_ := Some (to_int ExceptionCode);
                  continueStatus_ := Some DBG_CONTINUE |}
      else ret {| exitCode_ := None;
                  continueStatus_ := Some DBG_EXCEPTION_NOT_HANDLED |}
  | OutOfEnum _ => THROW "Invalid exception Type."
  end.

Definition HandleNotCreationalEvent (debugEvent : DEBUG_EVENT)
    (hProcess hThread : HANDLE) (dwThreadId : DWORD) : M ProcessStatus :=
  match u debugEvent with
  | EXIT_PROCESS_DEBUG_EVENT dwExitCode =>
      do exitCode <- OnExitProcess debugEvent dwExitCode hProcess hThread;
      ret {| exitCode_ := Some exitCode; continueStatus_ := None |}
  | EXIT_THREAD_DEBUG_EVENT _ =>
      OnExitThread dwThreadId;;
      ret {| exitCode_ := None; continueStatus_ := None |}
  | LOAD_DLL_DEBUG_EVENT hFile =>
      ScopedAction (CloseHandle hFile)
        (call_cpp (Handler_OnLoadDll hProcess hThread hFile));;
      ret {| exitCode_ := None; continueStatus_ := None |}
  | UNLOAD_DLL_DEBUG_EVENT =>
      call_cpp (Handler_OnUnloadDll hProcess hThread);;
      ret {| exitCode_ := None; continueStatus_ := None |}
  | EXCEPTION_DEBUG_EVENT dwFirstChance ExceptionCode handlerAnswer =>
      OnException debugEvent dwFirstChance ExceptionCode handlerAnswer
                  hProcess hThread
  | _ => ret {| exitCode_ := None; continueStatus_ := None |}
  end.

Definition HandleDebugEvent (debugEvent : DEBUG_EVENT) : M ProcessStatus :=
  let dwProcessId := dwProcessId debugEvent in
  let dwThreadId := dwThreadId debugEvent in
  match u debugEvent with
  | CREATE_PROCESS_DEBUG_EVENT hFile hProcess hThread =>
      OnCreateProcess debugEvent hFile hProcess hThread;;
      ret {| exitCode_ := None; continueStatus_ := None |}
  | CREATE_THREAD_DEBUG_EVENT hThread =>
      OnCreateThread hThread dwThreadId;;
      ret {| exitCode_ := None; continueStatus_ := None |}
  | _ =>
      do hProcess <- GetProcessHandle dwProcessId;
      do hThread <- GetThreadHandle dwThreadId;
      HandleNotCreationalEvent debugEvent hProcess hThread dwThreadId
  end.

Definition Debug_iteration (exitCode : option Z) (step : OsStep)
  : M (option Z) :=
  match step with
  | WaitFails lastError =>
      THROW_LAST_ERROR "Error WaitForDebugEvent:" lastError
  | Deliver debugEvent continueFails =>
      do processStatus <- HandleDebugEvent debugEvent;
      do d <- get_this;
      let exitCode' :=
        if bool_decide (is_Some (exitCode_ processStatus))
           && bool_decide (rootProcessId_ d = Some (dwProcessId debugEvent))
           && negb (bool_decide (is_Some exitCode))
        then exitCode_ processStatus
        else exitCode in
      let continueStatus :=
        default DBG_CONTINUE (continueStatus_ processStatus) in
      call (ContinueDebugEvent (dwProcessId debugEvent)
              (dwThreadId debugEvent) continueStatus);;
      match continueFails with
      | Some lastError =>
          THROW_LAST_ERROR "Error in ContinueDebugEvent:" lastError
      | None => ret exitCode'
      end
  end.

Fixpoint Debug_loop (exitCode : option Z) (script : list OsStep) (w : World)
  : Outcome * World :=
  if loop_condition exitCode (this w) then
    match script with
    | [] => (WaitsForever, w)
    | step :: script' =>
        match Debug_iteration exitCode step w with
        | (Normal exitCode', w') => Debug_loop exitCode' script' w'
        | (Throw e, w') => (Thrown e, w')
        end
    end
  else (Returned (default 0 exitCode), w).

(** When [process.Start] throws, the tables have not been cleared. *)
Definition Debug_start : M unit :=
  do d <- get_this;
  call_cpp (Process_Start (if coverChildren_ d then DEBUG_PROCESS
                           else DEBUG_ONLY_THIS_PROCESS));;
  modify_this (set_processHandles (λ _, ∅));;
  modify_this (set_threadHandles (λ _, ∅));;
  modify_this (set_rootProcessId None).

Definition Debug (script : list OsStep) (w : World) : Outcome * World :=
  match Debug_start w with
  | (Normal _, w') => Debug_loop None script w'
  | (Throw e, w') => (Thrown e, w')
  end.

(** The state of the loop after its body has run once for each of [steps],
    as [Debugger.Debug_steps] and [Debugger.Debug_handled]. *)
Fixpoint Debug_steps (exitCode : option Z) (steps : list OsStep) (w : World)
  : option (option Z * World) :=
  match steps with
  | [] => Some (exitCode, w)
  | step :: steps' =>
      if loop_condition exitCode (this w) then
        match Debug_iteration exitCode step w with
        | (Normal exitCode', w') => Debug_steps exitCode' steps' w'
        | (Throw _, _) => None
        end
      else None
  end.

Definition Debug_handled (steps : list OsStep) (w : World)
  : option (option Z * World) :=
  match Debug_start w with
  | (Normal _, w') => Debug_steps None steps w'
  | (Throw _, _) => None
  end.

(** The exception of the first callee that throws while the event is
    handled, if one does.  A callee is called only after the checks that
    come before it in the code have passed: the process id is new (for
    [OnCreateProcess]), or the process id and the thread id are both in
    the tables (for the other callbacks).  The minidump is written after
    [OnException] has returned, for the classifications and chances
    [HandleCrashDump] writes it for. *)
Definition callee_raises (w : World) (ev : DEBUG_EVENT) : option Exception :=
  let d := this w in
  match u ev with
  | CREATE_PROCESS_DEBUG_EVENT _ hProcess hThread =>
      match processHandles_ d !! dwProcessId ev with
      | None => callees (calls w) (Handler_OnCreateProcess hProcess hThread)
      | Some _ => None
      end
  | CREATE_THREAD_DEBUG_EVENT _ => None
  | info =>
      match processHandles_ d !! dwProcessId ev,
            threadHandles_ d !! dwThreadId ev with
      | Some hProcess, Some hThread =>
          match info with
          | EXIT_PROCESS_DEBUG_EVENT dwExitCode =>
              callees (calls w)
                (Handler_OnExitProcess hProcess hThread dwExitCode)
          | LOAD_DLL_DEBUG_EVENT hFile =>
              callees (calls w) (Handler_OnLoadDll hProcess hThread hFile)
          | UNLOAD_DLL_DEBUG_EVENT =>
              callees (calls w) (Handler_OnUnloadDll hProcess hThread)
          | EXCEPTION_DEBUG_EVENT dwFirstChance ExceptionCode answer =>
              let asked :=
                Handler_OnException hProcess hThread dwFirstChance
                  ExceptionCode in
              match callees (calls w) asked with
              | Some e => Some e
              | None =>
                  if dumpOnCrash_ d
                     && match answer with
                        | InvalidBreakPoint => true
                        | NotHandled | Error | CppError => dwFirstChance =? 0
                        | _ => false
                        end
                  then callees (calls w ++ [asked; GetThreadContext hThread])
                         (CreateMiniDumpFromException (dwProcessId ev)
                            (dwThreadId ev) hProcess (dumpDirectory_ d))
                  else None
              end
          | _ => None
          end
      | _, _ => None
      end
  end.

End callees.

(** The exception the checks of the debugger itself throw for an event, if
    they throw: the ids are checked against the two tables, and the answer
    of the handler against the enumeration. *)
Definition violation_error (d : Debugger) (ev : DEBUG_EVENT)
  : option Exception :=
  match u ev with
  | CREATE_PROCESS_DEBUG_EVENT _ _ _ =>
      if bool_decide (is_Some (processHandles_ d !! dwProcessId ev))
      then Some (CppCoverageException "Process id already exist")
      else if bool_decide (is_Some (threadHandles_ d !! dwThreadId ev))
      then Some (CppCoverageException "Thread id already exist")
      else None
  | CREATE_THREAD_DEBUG_EVENT _ =>
      if bool_decide (is_Some (threadHandles_ d !! dwThreadId ev))
      then Some (CppCoverageException "Thread id already exist")
      else None
  | info =>
      if bool_decide (is_Some (processHandles_ d !! dwProcessId ev)
                      ∧ is_Some (threadHandles_ d !! dwThreadId ev))
      then match info with
           | EXCEPTION_DEBUG_EVENT _ _ (OutOfEnum _) =>
               Some (CppCoverageException "Invalid exception Type.")
           | _ => None
           end
      else Some std_out_of_range
  end.

(** A handler whose [OnExitProcess] throws, and one whose [OnCreateProcess]
    throws; every other callee returns. *)
Definition OnExitProcess_throws (e : Exception) : Callees :=
  λ _ c, match c with Handler_OnExitProcess _ _ _ => Some e | _ => None end.

Definition OnCreateProcess_throws (e : Exception) : Callees :=
  λ _ c, match c with Handler_OnCreateProcess _ _ => Some e | _ => None end.

End ThrowingCallees.

(** ** Part II.  [CoverageFilterManager.cpp] *)

Module CoverageFilterManager.

Abbreviation wstring := string (only parsing).

(** [std::to_wstring] of a [size_t]: the decimal numeral. *)
Definition to_wstring (n : nat) : wstring :=
  NilZero.string_of_uint (Nat.to_uint n).

(** *** Collaborators *)

(** [boost::filesystem::path], as far as the manager uses it: the order
    [std::set] keeps paths in ([operator<], which compares two paths element
    by element) and the conversion [wstring()].  The order is a strict weak
    order, which is what [std::set] asks of it: two paths neither of which
    is less than the other are equivalent for the set, and they need not be
    equal (the spellings [a/b] and [a//b] have the same elements). *)
Class Path (path : Type) := {
  path_less : path → path → bool;
  path_wstring : path → wstring;
  path_less_irreflexive : ∀ p, path_less p p = false;
  path_less_transitive : ∀ p q r,
    path_less p q = true → path_less q r = true → path_less p r = true;
  path_equivalent_transitive : ∀ p q r,
    path_less p q = false → path_less q p = false →
    path_less q r = false → path_less r q = false →
    path_less p r = false
}.

(** Two paths are equivalent for the set when neither is less than the
    other. *)
Definition path_equivalent {path : Type} `{Path path} (p q : path) : bool :=
  negb (path_less p q) && negb (path_less q p).

(** [WildcardCoverageFilter]: its two predicates. *)
Record WildcardCoverageFilter := {
  wildcard_IsModuleSelected : wstring → bool;
  wildcard_IsSourceFileSelected : wstring → bool
}.

(** The interface of the unified diff filters the manager owns.  A filter
    is an object with a state of its own, which a query may change (the
    filters keep track of the paths they have matched), so a query returns
    the answer and the filter after it. *)
Class UnifiedDiffCoverageFilter (F path : Type) := {
  filter_IsSourceFileSelected : F → wstring → bool * F;
  filter_IsLineSelected : F → wstring → Z → bool * F;
  filter_GetUnmatchedPaths : F → list path
}.

Section manager.
Context {F path : Type} `{Path path} `{UnifiedDiffCoverageFilter F path}.

(** [Tools::GetSeparatorLine()] and [ProgramOptions::VerboseOption], two
    constants defined outside these files. *)
Variable GetSeparatorLine : wstring.
Variable VerboseOption : string.

Record CoverageFilterManager := {
  wildcardCoverageFilter_ : WildcardCoverageFilter;
  unifiedDiffCoverageFilters_ : list F
}.

(** [std::any_of]: the predicate is applied from the left and stops at the
    first element it holds for; the elements visited keep the state the
    call left them in. *)
Fixpoint any_of (container : list F) (fct : F → bool * F) : bool * list F :=
  match container with
  | [] => (false, [])
  | filter :: rest =>
      let '(b, filter') := fct filter in
      if b then (true, filter' :: rest)
      else let '(b', rest') := any_of rest fct in (b', filter' :: rest')
  end.

Definition AnyOfOrTrueIfEmpty (container : list F) (fct : F → bool * F)
  : bool * list F :=
  match container with
  | [] => (true, container)
  | _ => any_of container fct
  end.

(** [std::set<int>] is carried as the list of its elements in increasing
    order; an iterator is a position in that list, [begin()] is [0] and
    [end()] the length.  [lower_bound] gives the position of the first
    element that is not less than [key]. *)
Fixpoint lower_bound (s : list Z) (key : Z) : nat :=
  match s with
  | [] => 0%nat
  | x :: s' => if x <? key then S (lower_bound s' key) else 0%nat
  end.

Definition GetExecutableLineOrPreviousOne (lineNumber : Z)
    (executableLinesSet : list Z) : option Z :=
  let it := lower_bound executableLinesSet lineNumber in
  if negb (it =? length executableLinesSet)%nat
     && bool_decide (executableLinesSet !! it = Some lineNumber)
  then Some lineNumber
  else if (it =? 0)%nat then None
       else executableLinesSet !! (it - 1)%nat.

Definition IsModuleSelected (m : CoverageFilterManager) (filename : wstring)
  : bool :=
  wildcard_IsModuleSelected (wildcardCoverageFilter_ m) filename.

Definition IsSourceFileSelected (m : CoverageFilterManager)
    (filename : wstring) : bool * CoverageFilterManager :=
  if negb (wildcard_IsSourceFileSelected (wildcardCoverageFilter_ m) filename)
  then (false, m)
  else
    let '(b, filters) :=
      AnyOfOrTrueIfEmpty (unifiedDiffCoverageFilters_ m)
        (λ filter, filter_IsSourceFileSelected filter filename) in
    (b, {| wildcardCoverageFilter_ := wildcardCoverageFilter_ m;
           unifiedDiffCoverageFilters_ := filters |}).

Definition IsLineSelected (m : CoverageFilterManager) (filename : wstring)
    (lineNumber : Z) (executableLinesSet : list Z)
  : bool * CoverageFilterManager :=
  match unifiedDiffCoverageFilters_ m with
  | [] => (true, m)
  | _ =>
      match GetExecutableLineOrPreviousOne lineNumber executableLinesSet with
      | None => (false, m)
      | Some executableLineNumber =>
          let '(b, filters) :=
            AnyOfOrTrueIfEmpty (unifiedDiffCoverageFilters_ m)
              (λ filter,
                 filter_IsLineSelected filter filename executableLineNumber) in
          (b, {| wildcardCoverageFilter_ := wildcardCoverageFilter_ m;
                 unifiedDiffCoverageFilters_ := filters |})
      end
  end.

(** [std::set<boost::filesystem::path>] is carried as the list of its
    elements in increasing order.  [set_insert] is [std::set::insert] of
    one element: an element equivalent to one of the set is not
    inserted. *)
Fixpoint set_insert (p : path) (s : list path) : list path :=
  match s with
  | [] => [p]
  | q :: s' =>
      if path_less p q then p :: q :: s'
      else if path_less q p then q :: set_insert p s'
      else q :: s'
  end.

(** [unmatchPaths.insert(paths.begin(), paths.end())] *)
Definition set_insert_range (paths : list path) (s : list path) : list path :=
  foldl (λ s p, set_insert p s) s paths.

(** The loop of the private overload over the set, with its counter [i]. *)
Fixpoint path_lines (i : nat) (unmatchPaths : list path)
    (maxUnmatchPaths : nat) : list wstring :=
  match unmatchPaths with
  | [] => []
  | p :: rest =>
      if (maxUnmatchPaths <=? i)%nat
      then [String "009"%char "..."]
      else (String "009"%char "- " +:+ path_wstring p)
             :: path_lines (S i) rest maxUnmatchPaths
  end.

(** The private overload. *)
Definition ComputeWarningMessageLines_for (unmatchPaths : list path)
    (maxUnmatchPaths : nat) : list wstring :=
  match unmatchPaths with
  | [] => []
  | _ =>
      [ GetSeparatorLine;
        "You have " +:+ to_wstring (length unmatchPaths)
          +:+ " path(s) inside unified diff file(s) that were ignored";
        "because they did not match any path from pdb files.";
        "To see all files use --" +:+ VerboseOption ]
      ++ path_lines 0 unmatchPaths maxUnmatchPaths
  end.

(** The public overload: first the set [unmatchPaths] is filled from the
    filters, then the private overload is called on it. *)
Definition collect_unmatchPaths (m : CoverageFilterManager) : list path :=
  foldl (λ unmatchPaths filter,
           set_insert_range (filter_GetUnmatchedPaths filter) unmatchPaths)
        [] (unifiedDiffCoverageFilters_ m).

Definition ComputeWarningMessageLines (m : CoverageFilterManager)
    (maxUnmatchPaths : nat) : list wstring :=
  ComputeWarningMessageLines_for (collect_unmatchPaths m) maxUnmatchPaths.

(** *** The reference definition of [IsLineSelected]

    These definitions follow the words of the specification, not the
    code. *)

(** The largest element of a list of integers. *)
Definition largest (l : list Z) : option Z :=
  foldr (λ x acc, Some (from_option (Z.max x) x acc)) None l.

(** The nearest executable line at or below [lineNumber]: the line itself
    when it is executable, else the largest executable line strictly less
    than it, if there is one. *)
Definition resolved_line (lineNumber : Z) (executableLines : list Z)
  : option Z :=
  if bool_decide (lineNumber ∈ executableLines) then Some lineNumber
  else largest (filter (λ s, s < lineNumber) executableLines).

Definition IsLineSelected_reference (m : CoverageFilterManager)
    (filename : wstring) (lineNumber : Z) (executableLines : list Z) : bool :=
  match unifiedDiffCoverageFilters_ m with
  | [] => true
  | _ =>
      match resolved_line lineNumber executableLines with
      | None => false
      | Some resolvedLine =>
          existsb
            (λ filter, fst (filter_IsLineSelected filter filename
                              resolvedLine))
            (unifiedDiffCoverageFilters_ m)
      end
  end.

(** *** Auxiliary definition for the proofs *)

(** What [GetExecutableLineOrPreviousOne] computes, as a walk up the set
    that remembers the last element below [key]. *)
Fixpoint scan_from (prev : option Z) (s : list Z) (key : Z) : option Z :=
  match s with
  | [] => prev
  | x :: s' =>
      if x <? key then scan_from (Some x) s' key
      else if bool_decide (x = key) then Some key else prev
  end.

End manager.

(** *** A concrete filter and a concrete path type, for examples *)

(** Paths as their spellings, for relative paths written with [/].  The
    elements of a path are the names between the separators; a repeated
    separator separates no more than one does. *)
Fixpoint path_elements (name spelling : string) : list string :=
  match spelling with
  | EmptyString => if String.eqb name "" then [] else [name]
  | String c spelling' =>
      if Ascii.eqb c "/"
      then (if String.eqb name "" then path_elements "" spelling'
            else name :: path_elements "" spelling')
      else path_elements (name +:+ String c "") spelling'
  end.

(** The lexicographic comparison of two sequences of elements, each element
    compared as a string. *)
Fixpoint elements_less (p q : list string) : bool :=
  match p, q with
  | _, [] => false
  | [], _ :: _ => true
  | x :: p', y :: q' =>
      match String_as_OT.compare x y with
      | Lt => true
      | Gt => false
      | Eq => elements_less p' q'
      end
  end.

(** Spellings are ordered by their elements, element by element. *)
Definition spelling_less (p q : string) : bool :=
  elements_less (path_elements "" p) (path_elements "" q).

(** Modelled from the spec: the unified diff filter (class
    [FileFilter::UnifiedDiffCoverageFilter], which is not part of these
    files).  It holds, per source file, the line numbers a diff hunk
    covers, and the paths of the diff that no source file has matched so
    far; asking for a file marks its path as matched. *)
Record DiffFilter := {
  diff_lines : list (string * list Z);
  diff_unmatched : list string
}.

Definition DiffFilter_IsSourceFileSelected (f : DiffFilter)
    (filename : string) : bool * DiffFilter :=
  (existsb (λ entry, String.eqb (fst entry) filename) (diff_lines f),
   {| diff_lines := diff_lines f;
      diff_unmatched :=
        List.filter (λ p, negb (String.eqb p filename)) (diff_unmatched f) |}).

Definition DiffFilter_IsLineSelected (f : DiffFilter) (filename : string)
    (line : Z) : bool * DiffFilter :=
  (existsb (λ entry, String.eqb (fst entry) filename
                     && existsb (Z.eqb line) (snd entry)) (diff_lines f),
   f).

#[global] Instance DiffFilter_filter : UnifiedDiffCoverageFilter DiffFilter string :=
  {| filter_IsSourceFileSelected := DiffFilter_IsSourceFileSelected;
     filter_IsLineSelected := DiffFilter_IsLineSelected;
     filter_GetUnmatchedPaths := diff_unmatched |}.

(** The wildcard filter that selects everything. *)
Definition include_all : WildcardCoverageFilter :=
  {| wildcard_IsModuleSelected := λ _, true;
     wildcard_IsSourceFileSelected := λ _, true |}.

(** Scenario 3 of the specification: two diff filters, the first selects
    line 10 of [x.cpp], the second line 20. *)
Definition F1 : DiffFilter :=
  {| diff_lines := [("x.cpp", [10])]; diff_unmatched := ["b.cpp"; "a.cpp"] |}.
Definition F2 : DiffFilter :=
  {| diff_lines := [("x.cpp", [20])]; diff_unmatched := ["c.cpp"; "a.cpp"] |}.

(** Two diff filters that report the same path under two spellings. *)
Definition F3 : DiffFilter :=
  {| diff_lines := []; diff_unmatched := ["a/b"] |}.
Definition F4 : DiffFilter :=
  {| diff_lines := []; diff_unmatched := ["a//b"] |}.

End CoverageFilterManager.

(** ** Part III.  Properties of the debug loop *)

Module DebuggerFacts.
Import Debugger.

(** *** One event *)

Ltac unfold_members :=
  unfold HandleDebugEvent, HandleNotCreationalEvent, OnException,
    HandleCrashDump, OnExitProcess, OnCreateProcess, OnExitThread,
    OnCreateThread, GetProcessHandle, GetThreadHandle, ScopedAction,
    bind, ret, THROW, THROW_LAST_ERROR, get_this, modify_this, call in *.


Lemma HandleDebugEvent_Normal ev w ps w' :
  HandleDebugEvent ev w = (Normal ps, w') →
  same_configuration (this w) (this w')
  ∧ exitCode_ ps = status_exit_code (this w) ev
  ∧ processHandles_ (this w') =
      match u ev with
      | CREATE_PROCESS_DEBUG_EVENT _ hProcess _ =>
          <[dwProcessId ev := hProcess]> (processHandles_ (this w))
      | EXIT_PROCESS_DEBUG_EVENT _ =>
          delete (dwProcessId ev) (processHandles_ (this w))
      | _ => processHandles_ (this w)
      end
  ∧ threadHandles_ (this w') =
      match u ev with
      | CREATE_PROCESS_DEBUG_EVENT _ _ hThread
      | CREATE_THREAD_DEBUG_EVENT hThread =>
          <[dwThreadId ev := hThread]> (threadHandles_ (this w))
      | EXIT_PROCESS_DEBUG_EVENT _ | EXIT_THREAD_DEBUG_EVENT _ =>
          delete (dwThreadId ev) (threadHandles_ (this w))
      | _ => threadHandles_ (this w)
      end
  ∧ rootProcessId_ (this w') =
      match u ev with
      | CREATE_PROCESS_DEBUG_EVENT _ _ _ =>
          if bool_decide (rootProcessId_ (this w) = None)
             && bool_decide (processHandles_ (this w) = ∅)
          then Some (dwProcessId ev) else rootProcessId_ (this w)
      | _ => rootProcessId_ (this w)
      end
  ∧ ¬ violates (this w) ev.
Proof.
  destruct ev as [pid tid info], w as [d cs]; intros H.
  unfold violates, status_exit_code, same_configuration.
  destruct info; unfold_members; simpl in *;
    repeat (case_match; simplify_eq/=); 
    repeat split; try done; try (intros [[? ?]|[? ?]]; congruence);
    try (intros [? ?]; congruence); try (intros [?|?]; congruence).
Qed.

Lemma HandleDebugEvent_Throw ev w e w' :
  HandleDebugEvent ev w = (Throw e, w') →
  violates (this w) ev ∧ invariant_error e = true
  ∧ same_configuration (this w) (this w').
Proof.
  destruct ev as [pid tid info], w as [d cs]; intros H.
  unfold violates, same_configuration.
  destruct info; unfold_members; simpl in *;
    repeat (case_match; simplify_eq/=); eauto 10.
Qed.

Lemma HandleDebugEvent_violates ev w :
  violates (this w) ev ↔ ∃ e w', HandleDebugEvent ev w = (Throw e, w').
Proof.
  split.
  - intros Hv. destruct (HandleDebugEvent ev w) as [[ps|e] w'] eqn:E; [|eauto].
    by apply HandleDebugEvent_Normal in E as (_ & _ & _ & _ & _ & Hn).
  - intros (e & w' & E). by apply HandleDebugEvent_Throw in E as [? _].
Qed.

Lemma latch_eq ec root ev status :
  (if bool_decide (is_Some status)
      && bool_decide (root = Some (dwProcessId ev))
      && negb (bool_decide (is_Some ec))
   then status else ec)
  = latch ec root ev status.
Proof.
  unfold latch. destruct ec, status; simpl; try done;
    repeat case_bool_decide; simpl; try done;
    try (exfalso; eauto using mk_is_Some; by eapply is_Some_None).
Qed.

Lemma Debug_iteration_Normal ec step w ec' w' :
  Debug_iteration ec step w = (Normal ec', w') →
  ∃ ev ps w1,
    step = Deliver ev None
    ∧ HandleDebugEvent ev w = (Normal ps, w1)
    ∧ this w' = this w1
    ∧ ec' = latch ec (rootProcessId_ (this w1)) ev (exitCode_ ps).
Proof.
  destruct step as [err|ev [err|]]; simpl; [done| |].
  - unfold bind, THROW_LAST_ERROR, get_this, call. intros; repeat case_match; simplify_eq.
  - unfold bind, ret, get_this, call. intros H.
    destruct (HandleDebugEvent ev w) as [[ps|e] w1] eqn:E; simplify_eq/=.
    exists ev, ps, w1. repeat split; try done. apply latch_eq.
Qed.

Lemma Debug_iteration_Throw ec step w e w' :
  Debug_iteration ec step w = (Throw e, w') →
  (invariant_error e = true ∧ ∃ ev c, step = Deliver ev c ∧ violates (this w) ev)
  ∨ (invariant_error e = false).
Proof.
  destruct step as [err|ev c]; simpl.
  - unfold THROW_LAST_ERROR. intros; simplify_eq. by right.
  - unfold bind at 1. destruct (HandleDebugEvent ev w) as [[ps|e1] w1] eqn:E.
    + unfold bind, ret, get_this, call, THROW_LAST_ERROR. simpl.
      destruct c; intros; simplify_eq. by right.
    + intros; simplify_eq. apply HandleDebugEvent_Throw in E as (? & ? & _).
      left. eauto.
Qed.

(** *** The loop and its prefixes *)

Lemma Debug_start_eq w :
  Debug_start w =
    (Normal tt,
     {| this := set_rootProcessId None
                  (set_threadHandles (λ _, ∅)
                     (set_processHandles (λ _, ∅) (this w)));
        calls := calls w ++ [Process_Start (if coverChildren_ (this w)
                                            then DEBUG_PROCESS
                                            else DEBUG_ONLY_THIS_PROCESS)] |}).
Proof. reflexivity. Qed.

Lemma Debug_steps_app ec s1 s2 w :
  Debug_steps ec (s1 ++ s2) w =
    match Debug_steps ec s1 w with
    | Some (ec1, w1) => Debug_steps ec1 s2 w1
    | None => None
    end.
Proof.
  revert ec w. induction s1 as [|s s1 IH]; intros ec w; simpl; [done|].
  destruct (loop_condition ec (this w)); [|done].
  destruct (Debug_iteration ec s w) as [[ec1|e] w1]; [apply IH|done].
Qed.

Lemma Debug_loop_steps ec script w out w' :
  Debug_loop ec script w = (out, w') →
  ∃ steps rest ec1 w1,
    script = steps ++ rest
    ∧ Debug_steps ec steps w = Some (ec1, w1)
    ∧ match out with
      | Returned r =>
          loop_condition ec1 (this w1) = false ∧ ec1 = Some r ∧ w' = w1
      | WaitsForever =>
          loop_condition ec1 (this w1) = true ∧ rest = [] ∧ w' = w1
      | Thrown e =>
          loop_condition ec1 (this w1) = true
          ∧ ∃ step rest', rest = step :: rest'
                          ∧ Debug_iteration ec1 step w1 = (Throw e, w')
      end.
Proof.
  revert ec w. induction script as [|s script IH]; intros ec w; simpl.
  - destruct (loop_condition ec (this w)) eqn:C; intros; simplify_eq.
    + by exists [], [], ec, w'.
    + exists [], [], ec, w'. repeat split; try done.
      unfold loop_condition in C. destruct ec; [done|].
      rewrite bool_decide_false in C; [done|]. by intros [? ?].
  - destruct (loop_condition ec (this w)) eqn:C.
    + destruct (Debug_iteration ec s w) as [[ec1|e] w1] eqn:E.
      * intros H. apply IH in H as (steps & rest & ec2 & w2 & -> & Hs & Hout).
        exists (s :: steps), rest, ec2, w2. simpl. rewrite C, E. done.
      * intros; simplify_eq. exists [], (s :: script), ec, w. simpl. eauto 10.
    + intros; simplify_eq. exists [], (s :: script), ec, w'. 
      repeat split; try done.
      unfold loop_condition in C. destruct ec; [done|].
      rewrite bool_decide_false in C; [done|]. by intros [? ?].
Qed.

Lemma Debug_loop_Thrown ec steps step rest w ec1 w1 e w' :
  Debug_steps ec steps w = Some (ec1, w1) →
  loop_condition ec1 (this w1) = true →
  Debug_iteration ec1 step w1 = (Throw e, w') →
  Debug_loop ec (steps ++ step :: rest) w = (Thrown e, w').
Proof.
  revert ec w. induction steps as [|s steps IH]; intros ec w; simpl.
  - intros; simplify_eq. by rewrite H0, H1.
  - destruct (loop_condition ec (this w)); [|done].
    destruct (Debug_iteration ec s w) as [[ec2|e2] w2]; [|done]. apply IH.
Qed.

Lemma Debug_handled_nil w :
  Debug_handled [] w = Some (None, snd (Debug_start w)).
Proof. reflexivity. Qed.

Lemma Debug_handled_snoc steps step w ec' w' :
  Debug_handled (steps ++ [step]) w = Some (ec', w') →
  ∃ ec1 w1 ev ps w2,
    Debug_handled steps w = Some (ec1, w1)
    ∧ loop_condition ec1 (this w1) = true
    ∧ step = Deliver ev None
    ∧ HandleDebugEvent ev w1 = (Normal ps, w2)
    ∧ this w' = this w2
    ∧ ec' = latch ec1 (rootProcessId_ (this w2)) ev (exitCode_ ps).
Proof.
  unfold Debug_handled. rewrite Debug_steps_app.
  destruct (Debug_steps None steps _) as [[ec1 w1]|]; [|done]. simpl.
  destruct (loop_condition ec1 (this w1)) eqn:C; [|done].
  destruct (Debug_iteration ec1 step w1) as [[ec2|e] w2] eqn:E; [|done].
  intros; simplify_eq.
  apply Debug_iteration_Normal in E as (ev & ps & w2 & -> & E & ? & ->).
  exists ec1, w1, ev, ps, w2. done.
Qed.

Lemma events_snoc steps ev c :
  events (steps ++ [Deliver ev c]) = events steps ++ [ev].
Proof. unfold events. by rewrite omap_app. Qed.

Section creation_and_removal.
Context (key : DEBUG_EVENT → Z) (creates removes : DEBUG_EVENT → bool).

Lemma created_not_exited_nil id :
  ¬ created_not_exited key creates removes id [].
Proof. intros (pre & ev & post & H & _). by destruct pre. Qed.

Lemma created_not_exited_snoc id evs ev :
  created_not_exited key creates removes id (evs ++ [ev])
  ↔ (creates ev = true ∧ key ev = id)
    ∨ (created_not_exited key creates removes id evs
       ∧ ¬ (removes ev = true ∧ key ev = id)).
Proof.
  split.
  - intros (pre & e & post & Heq & Hc & Hk & Hpost).
    destruct post as [|p post _] using rev_ind.
    + apply app_inj_tail in Heq as [-> ->]. by left.
    + rewrite app_comm_cons, app_assoc in Heq.
      apply app_inj_tail in Heq as [-> ->]. right. split.
      * exists pre, e, post. repeat split; try done.
        intros ev' Hin. apply Hpost. set_solver.
      * apply Hpost. set_solver.
  - intros [[Hc Hk]|[(pre & e & post & -> & Hc & Hk & Hpost) Hr]].
    + exists evs, ev, []. repeat split; try done. set_solver.
    + exists pre, e, (post ++ [ev]). rewrite <- app_assoc. 
      repeat split; try done.
      intros ev' [Hin| ->%list_elem_of_singleton]%elem_of_app; auto.
Qed.
End creation_and_removal.

(** *** Invariants of the loop *)

Lemma first_create_process_snoc evs ev :
  first_create_process (evs ++ [ev]) =
    match first_create_process evs with
    | Some pid => Some pid
    | None => if is_create_process ev then Some (dwProcessId ev) else None
    end.
Proof.
  induction evs as [|e evs IH]; simpl; [done|].
  by destruct (is_create_process e).
Qed.

(** An induction principle for the states the loop passes through. *)
Lemma Debug_handled_ind (w : World)
    (P : list DEBUG_EVENT → option Z → Debugger → Prop) :
  P [] None (this (snd (Debug_start w))) →
  (∀ steps ec w1 ev ps w2,
     Debug_handled steps w = Some (ec, w1) →
     P (events steps) ec (this w1) →
     loop_condition ec (this w1) = true →
     HandleDebugEvent ev w1 = (Normal ps, w2) →
     P (events steps ++ [ev])
       (latch ec (rootProcessId_ (this w2)) ev (exitCode_ ps)) (this w2)) →
  ∀ steps ec w', Debug_handled steps w = Some (ec, w') →
                 P (events steps) ec (this w').
Proof.
  intros Hnil Hsnoc steps. induction steps as [|step steps IH] using rev_ind.
  - intros ec w'. rewrite Debug_handled_nil. intros; by simplify_eq.
  - intros ec w' H.
    apply Debug_handled_snoc in H
      as (ec1 & w1 & ev & ps & w2 & H1 & C & -> & E & Hw & ->).
    rewrite events_snoc, Hw. eapply Hsnoc; eauto.
Qed.

Ltac table_case id :=
  match goal with
  | |- context [?k = id] => destruct (decide (k = id))
  end; intuition (try congruence).

Lemma tables_after_handled w steps ec w' :
  Debug_handled steps w = Some (ec, w') →
  same_configuration (this w) (this w')
  ∧ (∀ pid, is_Some (processHandles_ (this w') !! pid)
       ↔ created_not_exited dwProcessId is_create_process is_exit_process
           pid (events steps))
  ∧ (∀ tid, is_Some (threadHandles_ (this w') !! tid)
       ↔ created_not_exited dwThreadId is_create_thread is_exit_thread
           tid (events steps)).
Proof.
  revert steps ec w'.
  apply (Debug_handled_ind w (λ evs _ d,
    same_configuration (this w) d
    ∧ (∀ pid, is_Some (processHandles_ d !! pid)
         ↔ created_not_exited dwProcessId is_create_process is_exit_process
             pid evs)
    ∧ (∀ tid, is_Some (threadHandles_ d !! tid)
         ↔ created_not_exited dwThreadId is_create_thread is_exit_thread
             tid evs))).
  - simpl. split; [by repeat split|]. 
    split; intros id; rewrite lookup_empty;
      (split; [by intros [? ?]|by intros ?%created_not_exited_nil]).
  - intros steps ec w1 ev ps w2 _ (Hc & Hp & Ht) _ E.
    apply HandleDebugEvent_Normal in E as (Hc' & _ & Ep & Et & _ & _).
    split; [|split].
    + unfold same_configuration in *. intuition congruence.
    + intros pid. rewrite created_not_exited_snoc, <- Hp, Ep.
      clear. unfold is_create_process, is_exit_process.
      destruct (u ev); rewrite ?lookup_insert_is_Some, ?lookup_delete_is_Some;
        table_case pid.
    + intros tid. rewrite created_not_exited_snoc, <- Ht, Et.
      clear. unfold is_create_thread, is_exit_thread.
      destruct (u ev); rewrite ?lookup_insert_is_Some, ?lookup_delete_is_Some;
        table_case tid.
Qed.

Lemma status_exit_code_configuration d d' ev :
  same_configuration d d' → status_exit_code d ev = status_exit_code d' ev.
Proof.
  intros (_ & Hc & Hs & _). unfold status_exit_code. by rewrite Hc, Hs.
Qed.

Lemma status_exit_code_Some d ev c :
  status_exit_code d ev = Some c →
  is_create_process ev = false ∧ is_create_thread ev = false.
Proof.
  unfold status_exit_code, is_create_process, is_create_thread.
  by destruct (u ev).
Qed.

Lemma first_create_process_None evs :
  first_create_process evs = None →
  ∀ id, ¬ created_not_exited dwProcessId is_create_process is_exit_process
          id evs.
Proof.
  intros H id (pre & ev & post & -> & Hc & _). revert H.
  induction pre as [|e pre IH]; simpl.
  - by rewrite Hc.
  - by destruct (is_create_process e).
Qed.

Lemma root_and_latch_after_handled w steps ec w' :
  Debug_handled steps w = Some (ec, w') →
  rootProcessId_ (this w') = first_create_process (events steps)
  ∧ latch_invariant (this w) (events steps) ec.
Proof.
  revert steps ec w'.
  apply (Debug_handled_ind w (λ evs ec d,
    rootProcessId_ d = first_create_process evs
    ∧ latch_invariant (this w) evs ec)).
  { split; [done|]. split; intros; set_solver. }
  intros steps ec w1 ev ps w2 Hh [Hroot [Hnone Hlatch]] _ E.
  apply tables_after_handled in Hh as (Hcfg & Hp & _).
  apply HandleDebugEvent_Normal in E as (_ & Est & _ & _ & Eroot & Hnv).
  rewrite <- (status_exit_code_configuration _ _ _ Hcfg) in Est.
  set (evs := events steps) in *.
  assert (Hempty : first_create_process evs = None →
                   processHandles_ (this w1) = ∅).
  { intros Hn. apply map_empty. intros pid.
    apply eq_None_not_Some. rewrite Hp. by apply first_create_process_None. }
  assert (Hroot2 : rootProcessId_ (this w2) = first_create_process (evs ++ [ev])).
  { rewrite Eroot, first_create_process_snoc, <- Hroot.
    unfold is_create_process.
    destruct (rootProcessId_ (this w1)) as [r|] eqn:R.
    - by destruct (u ev).
    - rewrite (Hempty (eq_sym Hroot)).
      rewrite !bool_decide_true by done. by destruct (u ev). }
  assert (Hst : status_exit_code (this w) ev ≠ None →
                first_create_process (evs ++ [ev]) = first_create_process evs
                ∧ first_create_process evs ≠ None).
  { intros Hs. destruct (status_exit_code (this w) ev) as [c|] eqn:S; [|done].
    apply status_exit_code_Some in S as [S1 S2].
    rewrite first_create_process_snoc, S1.
    destruct (first_create_process evs) eqn:F; [done|]. exfalso.
    apply Hnv. unfold violates. rewrite (Hempty eq_refl), lookup_empty.
    unfold is_create_process, is_create_thread in *.
    destruct (u ev); try done; try (by left). destruct handlerAnswer; by try left. }
  clear Eroot. split; [done|]. split.
  - intros Hn e [He| ->%list_elem_of_singleton]%elem_of_app.
    + apply Hnone; [|done]. rewrite first_create_process_snoc in Hn.
      by destruct (first_create_process evs).
    + destruct (status_exit_code (this w) ev) eqn:S; [|done].
      destruct Hst as [Hst1 Hst2]; [done|]. congruence.
  - rewrite Hroot2. unfold latch. rewrite Est.
    destruct ec as [r|].
    + destruct Hlatch as (pre & e & post & Heq & Hf & Hs & Hpre).
      exists pre, e, (post ++ [ev]). split; [|split; [|done]].
      * by rewrite Heq, <- app_assoc.
      * by rewrite first_create_process_snoc, Hf.
    + destruct (status_exit_code (this w) ev) as [c|] eqn:S.
      * destruct Hst as [Hst1 Hst2]; [done|]. case_bool_decide as B; simpl.
        -- exists evs, ev, []. repeat split; try done.
           intros e He Hpid. apply Hlatch; [done|]. congruence.
        -- intros e [He| ->%list_elem_of_singleton]%elem_of_app; [|done].
           rewrite Hst1. by apply Hlatch.
      * intros e [He| ->%list_elem_of_singleton]%elem_of_app; [|done].
        rewrite first_create_process_snoc.
        destruct (first_create_process evs) eqn:F; [by apply Hlatch|].
        intros _. by apply Hnone.
Qed.

(** *** Running the loop on a script, one event at a time *)

Lemma HandleDebugEvent_Normal_this ev w ps w' :
  HandleDebugEvent ev w = (Normal ps, w') → this w' = after_event (this w) ev.
Proof.
  destruct ev as [pid tid info], w as [d cs]; intros H.
  unfold after_event.
  destruct info; unfold_members; simpl in *;
    repeat (case_match; simplify_eq/=); try done; by destruct d.
Qed.

Lemma Debug_iteration_ok ec ev w :
  ¬ violates (this w) ev →
  ∃ w', Debug_iteration ec (Deliver ev None) w =
          (Normal (latch ec (rootProcessId_ (after_event (this w) ev)) ev
                     (status_exit_code (this w) ev)), w')
        ∧ this w' = after_event (this w) ev.
Proof.
  intros Hnv.
  destruct (Debug_iteration ec (Deliver ev None) w) as [[ec'|e] w'] eqn:E.
  - apply Debug_iteration_Normal in E as (ev' & ps & w1 & ? & E & Hw & ->).
    simplify_eq. exists w'.
    pose proof (HandleDebugEvent_Normal_this _ _ _ _ E) as Ht.
    apply HandleDebugEvent_Normal in E as (_ & -> & _).
    by rewrite Hw, Ht.
  - pose proof (Debug_iteration_Throw _ _ _ _ _ E) as [(_ & ev' & c & ? & Hv)|He].
    + by simplify_eq.
    + exfalso. simpl in E. unfold bind at 1 in E.
      destruct (HandleDebugEvent ev w) as [[ps|e1] w1] eqn:E1.
      * unfold bind, ret, get_this, call in E. simpl in E. simplify_eq.
      * simplify_eq. apply HandleDebugEvent_Throw in E1 as (? & ? & _). congruence.
Qed.

Lemma Debug_loop_cons_ok ec ev rest w :
  loop_condition ec (this w) = true →
  ¬ violates (this w) ev →
  ∃ w', this w' = after_event (this w) ev
        ∧ Debug_loop ec (Deliver ev None :: rest) w =
            Debug_loop (latch ec (rootProcessId_ (after_event (this w) ev)) ev
                          (status_exit_code (this w) ev)) rest w'.
Proof.
  intros C Hnv. destruct (Debug_iteration_ok ec ev w Hnv) as (w' & E & Hw).
  exists w'. split; [done|]. cbn [Debug_loop]. by rewrite C, E.
Qed.

Lemma Debug_loop_done r script w :
  processHandles_ (this w) = ∅ →
  Debug_loop (Some r) script w = (Returned r, w).
Proof.
  intros He. destruct script; simpl; unfold loop_condition;
    rewrite He; rewrite !bool_decide_true by eauto; done.
Qed.

Lemma after_event_processHandles d ev :
  processHandles_ (after_event d ev) =
    match u ev with
    | CREATE_PROCESS_DEBUG_EVENT _ hProcess _ =>
        <[dwProcessId ev := hProcess]> (processHandles_ d)
    | EXIT_PROCESS_DEBUG_EVENT _ => delete (dwProcessId ev) (processHandles_ d)
    | _ => processHandles_ d
    end.
Proof. unfold after_event. destruct (u ev); try done. by case_match. Qed.

Lemma after_event_threadHandles d ev :
  threadHandles_ (after_event d ev) =
    match u ev with
    | CREATE_PROCESS_DEBUG_EVENT _ _ hThread
    | CREATE_THREAD_DEBUG_EVENT hThread =>
        <[dwThreadId ev := hThread]> (threadHandles_ d)
    | EXIT_PROCESS_DEBUG_EVENT _ | EXIT_THREAD_DEBUG_EVENT _ =>
        delete (dwThreadId ev) (threadHandles_ d)
    | _ => threadHandles_ d
    end.
Proof. unfold after_event. destruct (u ev); try done. by case_match. Qed.

Lemma after_event_rootProcessId d ev :
  rootProcessId_ (after_event d ev) =
    match u ev with
    | CREATE_PROCESS_DEBUG_EVENT _ _ _ =>
        if bool_decide (rootProcessId_ d = None)
           && bool_decide (processHandles_ d = ∅)
        then Some (dwProcessId ev) else rootProcessId_ d
    | _ => rootProcessId_ d
    end.
Proof. unfold after_event. destruct (u ev); try done. by case_match. Qed.

Lemma loop_condition_None d : loop_condition None d = true.
Proof.
  unfold loop_condition. rewrite bool_decide_false; [done|]. by intros [? ?].
Qed.

Lemma loop_condition_running ec d pid h :
  processHandles_ d !! pid = Some h → loop_condition ec d = true.
Proof.
  intros H. unfold loop_condition.
  rewrite (bool_decide_false (processHandles_ d = ∅)).
  - apply orb_true_r.
  - intros He. by rewrite He, lookup_empty in H.
Qed.

(** One iteration of the loop on an event that the tables accept: the three
    fields of the new state are recorded as [P], [T] and [R]. *)
Ltac loop_step P T R :=
  match goal with
  | |- context [Debug_loop ?ec (Deliver ?ev None :: ?rest) ?w] =>
      let w' := fresh "w" in
      let Hw := fresh "Hw" in
      let E := fresh "E" in
      destruct (Debug_loop_cons_ok ec ev rest w) as (w' & Hw & E);
      [ | | rewrite E; clear E;
            pose proof (f_equal processHandles_ Hw) as P;
            pose proof (f_equal threadHandles_ Hw) as T;
            pose proof (f_equal rootProcessId_ Hw) as R;
            rewrite after_event_processHandles in P;
            rewrite after_event_threadHandles in T;
            rewrite after_event_rootProcessId in R;
            rewrite after_event_rootProcessId;
            cbn [u dwProcessId dwThreadId] in P, T, R |- *;
            unfold latch, status_exit_code; cbn [u dwProcessId dwThreadId];
            clear Hw ]
  end.

Ltac no_violation P T :=
  unfold violates; cbn [u dwProcessId dwThreadId]; rewrite P, T;
  first [ intros [[? ?]|[? ?]]; simplify_map_eq
        | intros [?|?]; simplify_map_eq ].

Lemma to_int_small x : 0 ≤ x < 2 ^ 31 → to_int x = x.
Proof.
  intros H. unfold to_int. rewrite Z.mod_small by lia.
  destruct (Z.ltb_spec x (2 ^ 31)); lia.
Qed.

Lemma two_processes_gone (pa pb ha hb : Z) :
  delete pb (delete pa (<[pb:=hb]> (<[pa:=ha]> (∅ : gmap Z Z)))) = ∅
  ∧ delete pa (delete pb (<[pb:=hb]> (<[pa:=ha]> (∅ : gmap Z Z)))) = ∅.
Proof.
  split; apply map_empty; intros i;
    destruct (decide (i = pa)), (decide (i = pb)); by simplify_map_eq.
Qed.

Lemma exits_in_order_from_fresh w t1 t2 f1 p1 h1 f2 p2 h2 :
  processHandles_ (this w) = ∅ → threadHandles_ (this w) = ∅ →
  rootProcessId_ (this w) = None → t1 ≠ t2 →
  ∃ w', Debug_loop None (exits_in_order t1 t2 f1 p1 h1 f2 p2 h2) w
        = (Returned 7, w')
        ∧ processHandles_ (this w') = ∅.
Proof.
  intros P T R Ht.
  unfold exits_in_order, create_process, exit_process.
  loop_step P1 T1 R1.
  { apply loop_condition_None. }
  { no_violation P T. }
  rewrite R, P, T in *. rewrite !bool_decide_true in * by done. cbn [andb] in *.
  loop_step P2 T2 R2.
  { apply loop_condition_None. }
  { no_violation P1 T1. }
  rewrite R1, P1, T1 in *. rewrite bool_decide_false in * by done.
  cbn [andb] in *.
  loop_step P3 T3 R3.
  { apply loop_condition_None. }
  { no_violation P2 T2. }
  rewrite R2, P2, T2 in *. rewrite bool_decide_true by done.
  rewrite to_int_small by lia.
  loop_step P4 T4 R4.
  { apply (loop_condition_running _ _ 200 p2). rewrite P3. by simplify_map_eq. }
  { no_violation P3 T3. }
  rewrite P3 in P4. rewrite (proj1 (two_processes_gone 100 200 p1 p2)) in P4.
  exists w3. by rewrite Debug_loop_done.
Qed.

Lemma exits_reversed_from_fresh w t1 t2 f1 p1 h1 f2 p2 h2 :
  processHandles_ (this w) = ∅ → threadHandles_ (this w) = ∅ →
  rootProcessId_ (this w) = None → t1 ≠ t2 →
  ∃ w', Debug_loop None (exits_reversed t1 t2 f1 p1 h1 f2 p2 h2) w
        = (Returned 7, w')
        ∧ processHandles_ (this w') = ∅.
Proof.
  intros P T R Ht.
  unfold exits_reversed, create_process, exit_process.
  loop_step P1 T1 R1.
  { apply loop_condition_None. }
  { no_violation P T. }
  rewrite R, P, T in *. rewrite !bool_decide_true in * by done. cbn [andb] in *.
  loop_step P2 T2 R2.
  { apply loop_condition_None. }
  { no_violation P1 T1. }
  rewrite R1, P1, T1 in *. rewrite bool_decide_false in * by done.
  cbn [andb] in *.
  loop_step P3 T3 R3.
  { apply loop_condition_None. }
  { no_violation P2 T2. }
  rewrite R2, P2, T2 in *. rewrite bool_decide_false by done.
  loop_step P4 T4 R4.
  { apply loop_condition_None. }
  { no_violation P3 T3. }
  rewrite R3, bool_decide_true by done.
  rewrite P3 in P4. rewrite (proj2 (two_processes_gone 100 200 p1 p2)) in P4.
  rewrite to_int_small by lia.
  exists w3. by rewrite Debug_loop_done.
Qed.

(** *** Independence from the calls made and from earlier runs *)

Lemma first_create_process_app evs more pid :
  first_create_process evs = Some pid →
  first_create_process (evs ++ more) = Some pid.
Proof.
  induction evs as [|e evs IH]; simpl; [done|].
  by destruct (is_create_process e).
Qed.

Lemma events_app s1 s2 : events (s1 ++ s2) = events s1 ++ events s2.
Proof. unfold events. apply omap_app. Qed.









(** *** The properties of the specification *)

(** C2.  For the script CREATE_PROCESS(root 100), CREATE_PROCESS(child 200),
    EXIT_PROCESS(100, code 7), EXIT_PROCESS(200, code 9), which has no
    exception event, [Debug] returns 7, and so it does when the two exits
    come in the other order; in both cases the process handle table is
    empty when the loop ends.  The script leaves the thread ids and the
    handles open: this holds for all of them, the two initial threads being
    different, and for every debugger the call is made on. *)
Theorem root_exit_code_scripts w t1 t2 f1 p1 h1 f2 p2 h2 :
  t1 ≠ t2 →
  (fst (Debug (exits_in_order t1 t2 f1 p1 h1 f2 p2 h2) w) = Returned 7
   ∧ processHandles_
       (this (snd (Debug (exits_in_order t1 t2 f1 p1 h1 f2 p2 h2) w))) = ∅)
  ∧ (fst (Debug (exits_reversed t1 t2 f1 p1 h1 f2 p2 h2) w) = Returned 7
     ∧ processHandles_
         (this (snd (Debug (exits_reversed t1 t2 f1 p1 h1 f2 p2 h2) w))) = ∅).
Proof.
  intros Ht. unfold Debug. rewrite Debug_start_eq. split.
  - destruct (exits_in_order_from_fresh
                {| this := set_rootProcessId None
                     (set_threadHandles (λ _, ∅)
                        (set_processHandles (λ _, ∅) (this w)));
                   calls := calls w ++ [Process_Start
                     (if coverChildren_ (this w) then DEBUG_PROCESS
                      else DEBUG_ONLY_THIS_PROCESS)] |}
                t1 t2 f1 p1 h1 f2 p2 h2) as (w' & E & He); try done.
    by rewrite E.
  - destruct (exits_reversed_from_fresh
                {| this := set_rootProcessId None
                     (set_threadHandles (λ _, ∅)
                        (set_processHandles (λ _, ∅) (this w)));
                   calls := calls w ++ [Process_Start
                     (if coverChildren_ (this w) then DEBUG_PROCESS
                      else DEBUG_ONLY_THIS_PROCESS)] |}
                t1 t2 f1 p1 h1 f2 p2 h2) as (w' & E & He); try done.
    by rewrite E.
Qed.

Lemma root_exit_code_scripts_witness :
  1 ≠ 2
  ∧ (fst (Debug (exits_in_order 1 2 11 12 13 21 22 23) default_world)
     = Returned 7
     ∧ processHandles_
         (this (snd (Debug (exits_in_order 1 2 11 12 13 21 22 23)
                       default_world))) = ∅)
  ∧ (fst (Debug (exits_reversed 1 2 11 12 13 21 22 23) default_world)
     = Returned 7
     ∧ processHandles_
         (this (snd (Debug (exits_reversed 1 2 11 12 13 21 22 23)
                       default_world))) = ∅).
Proof.
  split; [done|].
  apply (root_exit_code_scripts default_world 1 2 11 12 13 21 22 23). done.
Defined.

(** C3, as the code has it.  When [Debug] returns, the value it returns is
    the exit code of the first status with an exit code among the events of
    the root process (the process of the first CREATE_PROCESS event): that
    is the [dwExitCode] of the root's EXIT_PROCESS event, converted to
    [int], unless an earlier exception event of the root process was
    classified InvalidBreakPoint with [stopOnAssert] off (then it is the
    breakpoint code) or CppError with [continueAfterCppException] on (then
    it is the exception code).  Later events, exits of descendants among
    them, do not change it.  With [stopOnAssert] on and
    [continueAfterCppException] off it is always the root's [dwExitCode]. *)
Theorem returned_exit_code_is_first_root_status script w r w' :
  Debug script w = (Returned r, w') →
  ∃ pre ev post,
    events script = pre ++ ev :: post
    ∧ first_create_process (events script) = Some (dwProcessId ev)
    ∧ status_exit_code (this w) ev = Some r
    ∧ (∀ e, e ∈ pre → dwProcessId e = dwProcessId ev →
            status_exit_code (this w) e = None)
    ∧ (∀ w1 ps w2,
         same_configuration (this w) (this w1) →
         HandleDebugEvent ev w1 = (Normal ps, w2) →
         exitCode_ ps = Some r)
    ∧ (stopOnAssert_ (this w) = true →
       continueAfterCppException_ (this w) = false →
       ∃ dwExitCode, u ev = EXIT_PROCESS_DEBUG_EVENT dwExitCode
                     ∧ r = to_int dwExitCode).
Proof.
  unfold Debug. rewrite Debug_start_eq. intros H.
  apply Debug_loop_steps in H
    as (steps & rest & ec1 & w1 & -> & Hs & _ & -> & ->).
  apply (root_and_latch_after_handled w) in Hs
    as (_ & _ & pre & ev & post & Heq & Hf & Hst & Hpre).
  exists pre, ev, (post ++ events rest). rewrite events_app, Heq.
  split; [by rewrite <- app_assoc|]. split.
  { rewrite <- Heq. by apply first_create_process_app. }
  split; [done|]. split; [done|]. split.
  { intros wa ps wb Hc E. apply HandleDebugEvent_Normal in E as (_ & -> & _).
    by rewrite <- (status_exit_code_configuration _ _ _ Hc). }
  intros Hsa Hca. unfold status_exit_code in Hst. rewrite Hsa, Hca in Hst.
  destruct (u ev) as [| | c | | | |? ? []| |]; simplify_eq. eauto.
Qed.

Lemma returned_exit_code_is_first_root_status_witness :
  Debug breakpoint_script default_world
  = (Returned (-2147483645), snd (Debug breakpoint_script default_world))
  ∧ ∃ pre ev post,
      events breakpoint_script = pre ++ ev :: post
      ∧ first_create_process (events breakpoint_script)
        = Some (dwProcessId ev)
      ∧ status_exit_code (this default_world) ev = Some (-2147483645)
      ∧ (∀ e, e ∈ pre → dwProcessId e = dwProcessId ev →
              status_exit_code (this default_world) e = None)
      ∧ (∀ w1 ps w2,
           same_configuration (this default_world) (this w1) →
           HandleDebugEvent ev w1 = (Normal ps, w2) →
           exitCode_ ps = Some (-2147483645))
      ∧ (stopOnAssert_ (this default_world) = true →
         continueAfterCppException_ (this default_world) = false →
         ∃ dwExitCode, u ev = EXIT_PROCESS_DEBUG_EVENT dwExitCode
                       ∧ -2147483645 = to_int dwExitCode).
Proof.
  split; [by vm_compute|].
  apply (returned_exit_code_is_first_root_status breakpoint_script
           default_world (-2147483645)
           (snd (Debug breakpoint_script default_world))).
  by vm_compute.
Defined.

(** C3, as stated, fails.  The root process 100 hits an invalid breakpoint,
    which the debugger swallows ([stopOnAssert] is off), and then exits with
    code 7: [Debug] returns the breakpoint code, not 7.  And the exit-code
    field of a status is set when a process other than the root exits: the
    child 200 exiting with code 9 yields a status with exit code 9. *)
Lemma exit_code_of_swallowed_breakpoint :
  fst (Debug breakpoint_script default_world)
  = Returned (to_int EXCEPTION_BREAKPOINT)
  ∧ to_int EXCEPTION_BREAKPOINT = -2147483645
  ∧ first_create_process (events breakpoint_script) = Some 100
  ∧ events breakpoint_script !! 2%nat
    = Some {| dwProcessId := 100; dwThreadId := 1;
              u := EXIT_PROCESS_DEBUG_EVENT 7 |}
  ∧ rootProcessId_ (this two_process_world) = Some 100
  ∧ fst (HandleDebugEvent
           {| dwProcessId := 200; dwThreadId := 2;
              u := EXIT_PROCESS_DEBUG_EVENT 9 |} two_process_world)
    = Normal {| exitCode_ := Some 9; continueStatus_ := None |}.
Proof. repeat split; by vm_compute. Qed.

(** C4.  After the loop has handled a sequence of events without a throw,
    the process handle table holds exactly the process ids for which a
    CREATE_PROCESS event has been seen and no EXIT_PROCESS event since, and
    the thread handle table exactly the thread ids created (by
    CREATE_THREAD, or by CREATE_PROCESS for the initial thread) and not
    removed since (by EXIT_THREAD, or by EXIT_PROCESS for the exiting
    thread). *)
Theorem handle_tables_track_events w steps ec w' :
  Debug_handled steps w = Some (ec, w') →
  (∀ pid, pid ∈ dom (processHandles_ (this w'))
      ↔ created_not_exited dwProcessId is_create_process is_exit_process
          pid (events steps))
  ∧ (∀ tid, tid ∈ dom (threadHandles_ (this w'))
      ↔ created_not_exited dwThreadId is_create_thread is_exit_thread
          tid (events steps)).
Proof.
  intros H. apply tables_after_handled in H as (_ & Hp & Ht).
  split; intros id; rewrite elem_of_dom; auto.
Qed.

Lemma handle_tables_track_events_witness :
  Debug_handled one_process_script default_world
  = Some (None, one_process_world)
  ∧ (∀ pid, pid ∈ dom (processHandles_ (this one_process_world))
        ↔ created_not_exited dwProcessId is_create_process is_exit_process
            pid (events one_process_script))
  ∧ (∀ tid, tid ∈ dom (threadHandles_ (this one_process_world))
        ↔ created_not_exited dwThreadId is_create_thread is_exit_thread
            tid (events one_process_script)).
Proof.
  split; [by vm_compute|].
  apply (handle_tables_track_events default_world one_process_script None
           one_process_world).
  by vm_compute.
Defined.

(** C7.  An exception event classified InvalidBreakPoint, for a process and
    a thread of the tables: with [stopOnAssert] off the status has the
    directive DBG_CONTINUE and the breakpoint code as exit code; with
    [stopOnAssert] on it has the directive DBG_EXCEPTION_NOT_HANDLED and no
    exit code.  On both paths, when [dumpOnCrash] is on, the minidump is
    written ([CreateMiniDumpFromException] is called), whatever
    [dwFirstChance] is; when it is off, no dump is made.  The iteration ends
    without a throw, [ContinueDebugEvent] gets the directive, and the loop
    condition still holds: the loop goes on. *)
Theorem invalid_breakpoint_policy w ec pid tid hProcess hThread
    dwFirstChance ExceptionCode :
  processHandles_ (this w) !! pid = Some hProcess →
  threadHandles_ (this w) !! tid = Some hThread →
  let ev := {| dwProcessId := pid; dwThreadId := tid;
               u := EXCEPTION_DEBUG_EVENT dwFirstChance ExceptionCode
                      InvalidBreakPoint |} in
  let status :=
    if stopOnAssert_ (this w)
    then {| exitCode_ := None;
            continueStatus_ := Some DBG_EXCEPTION_NOT_HANDLED |}
    else {| exitCode_ := Some (to_int EXCEPTION_BREAKPOINT);
            continueStatus_ := Some DBG_CONTINUE |} in
  let dump :=
    if dumpOnCrash_ (this w)
    then [GetThreadContext hThread;
          CreateMiniDumpFromException pid tid hProcess
            (dumpDirectory_ (this w))]
    else [] in
  let asked :=
    calls w ++ Handler_OnException hProcess hThread dwFirstChance
                 ExceptionCode :: dump in
  HandleDebugEvent ev w = (Normal status, {| this := this w; calls := asked |})
  ∧ Debug_iteration ec (Deliver ev None) w
    = (Normal (latch ec (rootProcessId_ (this w)) ev (exitCode_ status)),
       {| this := this w;
          calls := asked ++
            [ContinueDebugEvent pid tid
               (if stopOnAssert_ (this w) then DBG_EXCEPTION_NOT_HANDLED
                else DBG_CONTINUE)] |})
  ∧ loop_condition (latch ec (rootProcessId_ (this w)) ev (exitCode_ status))
      (this w) = true.
Proof.
  intros Hp Ht ev status dump asked.
  assert (E : HandleDebugEvent ev w
              = (Normal status, {| this := this w; calls := asked |})).
  { subst ev status dump asked. destruct w as [d cs]. simpl in *.
    unfold_members. simpl. rewrite Hp. simpl. rewrite Ht. simpl.
    destruct (dumpOnCrash_ d), (stopOnAssert_ d); simpl;
      rewrite ?andb_false_r; simpl; by rewrite <- ?app_assoc. }
  split; [done|]. split; [|by eapply loop_condition_running].
  cbn [Debug_iteration]. unfold bind at 1. rewrite E.
  unfold bind, ret, get_this, call. cbn [this calls fst snd].
  rewrite latch_eq. subst status.
  by destruct (stopOnAssert_ (this w)).
Qed.

Lemma invalid_breakpoint_policy_witness :
  processHandles_ (this one_process_world) !! 100 = Some 12
  ∧ threadHandles_ (this one_process_world) !! 1 = Some 13
  ∧ let ev := {| dwProcessId := 100; dwThreadId := 1;
                 u := EXCEPTION_DEBUG_EVENT 1 EXCEPTION_BREAKPOINT
                        InvalidBreakPoint |} in
    let status :=
      if stopOnAssert_ (this one_process_world)
      then {| exitCode_ := None;
              continueStatus_ := Some DBG_EXCEPTION_NOT_HANDLED |}
      else {| exitCode_ := Some (to_int EXCEPTION_BREAKPOINT);
              continueStatus_ := Some DBG_CONTINUE |} in
    let dump :=
      if dumpOnCrash_ (this one_process_world)
      then [GetThreadContext 13;
            CreateMiniDumpFromException 100 1 12
              (dumpDirectory_ (this one_process_world))]
      else [] in
    let asked :=
      calls one_process_world
      ++ Handler_OnException 12 13 1 EXCEPTION_BREAKPOINT :: dump in
    HandleDebugEvent ev one_process_world
    = (Normal status, {| this := this one_process_world; calls := asked |})
    ∧ Debug_iteration None (Deliver ev None) one_process_world
      = (Normal (latch None (rootProcessId_ (this one_process_world)) ev
                   (exitCode_ status)),
         {| this := this one_process_world;
            calls := asked ++
              [ContinueDebugEvent 100 1
                 (if stopOnAssert_ (this one_process_world)
                  then DBG_EXCEPTION_NOT_HANDLED else DBG_CONTINUE)] |})
    ∧ loop_condition
        (latch None (rootProcessId_ (this one_process_world)) ev
           (exitCode_ status))
        (this one_process_world) = true.
Proof.
  split; [by vm_compute|]. split; [by vm_compute|].
  apply (invalid_breakpoint_policy one_process_world None 100 1 12 13 1
           EXCEPTION_BREAKPOINT); by vm_compute.
Defined.

(** C8.  After the loop has handled a sequence of events, the root process
    id is the process id of the first CREATE_PROCESS event of the sequence
    (and is unset when there has been none); once it is set, it has the same
    value after every longer sequence of events the loop handles. *)
Theorem root_process_id_is_first_create_process w steps ec w' :
  Debug_handled steps w = Some (ec, w') →
  rootProcessId_ (this w') = first_create_process (events steps)
  ∧ ∀ more ec'' w'' pid,
      rootProcessId_ (this w') = Some pid →
      Debug_handled (steps ++ more) w = Some (ec'', w'') →
      rootProcessId_ (this w'') = Some pid.
Proof.
  intros H. apply root_and_latch_after_handled in H as [Hr _].
  split; [done|]. intros more ec'' w'' pid Hpid H.
  apply root_and_latch_after_handled in H as [-> _].
  rewrite events_app. apply first_create_process_app. congruence.
Qed.

Lemma root_process_id_is_first_create_process_witness :
  Debug_handled one_process_script default_world
  = Some (None, one_process_world)
  ∧ rootProcessId_ (this one_process_world)
    = first_create_process (events one_process_script)
  ∧ ∀ more ec'' w'' pid,
      rootProcessId_ (this one_process_world) = Some pid →
      Debug_handled (one_process_script ++ more) default_world
      = Some (ec'', w'') →
      rootProcessId_ (this w'') = Some pid.
Proof.
  split; [by vm_compute|].
  apply (root_process_id_is_first_create_process default_world
           one_process_script None one_process_world).
  by vm_compute.
Defined.

(** *** Callees that throw *)

Ltac unfold_throwing :=
  unfold ThrowingCallees.HandleDebugEvent,
    ThrowingCallees.HandleNotCreationalEvent, ThrowingCallees.OnException,
    ThrowingCallees.HandleCrashDump, ThrowingCallees.OnExitProcess,
    ThrowingCallees.OnCreateProcess, ThrowingCallees.call_cpp,
    ThrowingCallees.callee_raises, ThrowingCallees.violation_error in *;
  unfold_members.

Ltac close_case :=
  rewrite <- ?app_assoc in *; simpl in *; simplify_eq; eauto;
  try congruence;
  match goal with
  | d : Debugger, f : Z |- _ =>
      destruct (dumpOnCrash_ d), (f =? 0); simpl in *; simplify_eq; eauto;
      congruence
  end.

Lemma HandleDebugEvent_callees_return callees ev w :
  ThrowingCallees.callee_raises callees w ev = None →
  ThrowingCallees.HandleDebugEvent callees ev w = HandleDebugEvent ev w.
Proof.
  destruct ev as [pid tid info], w as [d cs].
  destruct info; unfold_throwing; simpl; intros;
    repeat (case_match; simplify_eq/=); try done; close_case.
Qed.

Lemma HandleDebugEvent_callee_raises callees ev w e :
  ThrowingCallees.callee_raises callees w ev = Some e →
  ∃ w', ThrowingCallees.HandleDebugEvent callees ev w = (Throw e, w').
Proof.
  destruct ev as [pid tid info], w as [d cs].
  destruct info; unfold_throwing; simpl; intros;
    repeat (case_match; simplify_eq/=); eauto; close_case.
Qed.

Lemma violation_error_violates d ev :
  is_Some (ThrowingCallees.violation_error d ev) ↔ violates d ev.
Proof.
  destruct ev as [pid tid info].
  unfold ThrowingCallees.violation_error, violates.
  destruct info; simpl;
    destruct (processHandles_ d !! pid) eqn:Ep,
             (threadHandles_ d !! tid) eqn:Et;
    repeat case_bool_decide; repeat case_match; simplify_eq;
    rewrite ?is_Some_alt in *; simpl in *;
    intuition (eauto; try congruence; try done).
Qed.

Lemma HandleDebugEvent_Throw_violation_error ev w e :
  (∃ w', HandleDebugEvent ev w = (Throw e, w'))
  ↔ ThrowingCallees.violation_error (this w) ev = Some e.
Proof.
  destruct ev as [pid tid info], w as [d cs].
  unfold ThrowingCallees.violation_error.
  destruct info; unfold_members; simpl;
    destruct (processHandles_ d !! pid) eqn:Ep,
             (threadHandles_ d !! tid) eqn:Et; simpl;
    repeat case_bool_decide; rewrite ?is_Some_alt in *; simpl in *;
    try tauto;
    (split; [intros [w' Hthrow]|intros Hviol]);
    repeat (case_match; simplify_eq/=); simplify_eq/=; eauto;
    try (exfalso; tauto).
Qed.

(** *** The loop with callees that throw *)

Lemma Debug_iteration_callees_return callees ec ev c w :
  ThrowingCallees.callee_raises callees w ev = None →
  ThrowingCallees.Debug_iteration callees ec (Deliver ev c) w
  = Debug_iteration ec (Deliver ev c) w.
Proof.
  intros H. simpl. unfold bind at 1 3.
  by rewrite (HandleDebugEvent_callees_return _ _ _ H).
Qed.

Lemma Debug_iteration_callee_raises callees ec ev c w e :
  ThrowingCallees.callee_raises callees w ev = Some e →
  ∃ w', ThrowingCallees.Debug_iteration callees ec (Deliver ev c) w
        = (Throw e, w').
Proof.
  intros [w' H]%HandleDebugEvent_callee_raises. exists w'.
  simpl. unfold bind at 1. by rewrite H.
Qed.

Lemma Debug_iteration_Normal_callees callees ec step w ec' w' :
  ThrowingCallees.Debug_iteration callees ec step w = (Normal ec', w') →
  Debug_iteration ec step w = (Normal ec', w').
Proof.
  destruct step as [err|ev c]; [done|].
  destruct (ThrowingCallees.callee_raises callees w ev) as [e|] eqn:R.
  - destruct (Debug_iteration_callee_raises callees ec ev c w e R) as [w1 ->].
    done.
  - by rewrite Debug_iteration_callees_return.
Qed.

Lemma Debug_steps_callees callees ec steps w r :
  ThrowingCallees.Debug_steps callees ec steps w = Some r →
  Debug_steps ec steps w = Some r.
Proof.
  revert ec w. induction steps as [|s steps IH]; intros ec w; simpl; [done|].
  destruct (loop_condition ec (this w)); [|done].
  destruct (ThrowingCallees.Debug_iteration callees ec s w)
    as [[ec1|e] w1] eqn:E; [|done].
  apply Debug_iteration_Normal_callees in E. rewrite E. apply IH.
Qed.

Lemma Debug_start_callees callees w :
  ThrowingCallees.Debug_start callees w =
    let start := Process_Start (if coverChildren_ (this w) then DEBUG_PROCESS
                                else DEBUG_ONLY_THIS_PROCESS) in
    match callees (calls w) start with
    | None => Debug_start w
    | Some e => (Throw e, {| this := this w; calls := calls w ++ [start] |})
    end.
Proof.
  unfold ThrowingCallees.Debug_start, ThrowingCallees.call_cpp, Debug_start,
    bind, get_this, modify_this, call. simpl.
  by destruct (callees (calls w) _).
Qed.

Lemma Debug_handled_callees callees steps w r :
  ThrowingCallees.Debug_handled callees steps w = Some r →
  Debug_handled steps w = Some r.
Proof.
  unfold ThrowingCallees.Debug_handled, Debug_handled.
  rewrite Debug_start_callees. simpl.
  destruct (callees (calls w) _); [done|].
  rewrite Debug_start_eq. apply Debug_steps_callees.
Qed.

Lemma Debug_steps_app_callees callees ec s1 s2 w :
  ThrowingCallees.Debug_steps callees ec (s1 ++ s2) w =
    match ThrowingCallees.Debug_steps callees ec s1 w with
    | Some (ec1, w1) => ThrowingCallees.Debug_steps callees ec1 s2 w1
    | None => None
    end.
Proof.
  revert ec w. induction s1 as [|s s1 IH]; intros ec w; simpl; [done|].
  destruct (loop_condition ec (this w)); [|done].
  destruct (ThrowingCallees.Debug_iteration callees ec s w) as [[ec1|e] w1];
    [apply IH|done].
Qed.

Lemma Debug_loop_Thrown_steps callees ec script w e w' :
  ThrowingCallees.Debug_loop callees ec script w = (Thrown e, w') →
  ∃ steps step rest ec1 w1,
    script = steps ++ step :: rest
    ∧ ThrowingCallees.Debug_steps callees ec steps w = Some (ec1, w1)
    ∧ loop_condition ec1 (this w1) = true
    ∧ ThrowingCallees.Debug_iteration callees ec1 step w1 = (Throw e, w').
Proof.
  revert ec w. induction script as [|s script IH]; intros ec w; simpl.
  - by destruct (loop_condition ec (this w)).
  - destruct (loop_condition ec (this w)) eqn:C; [|done].
    destruct (ThrowingCallees.Debug_iteration callees ec s w)
      as [[ec1|e1] w1] eqn:E.
    + intros H. apply IH in H
        as (steps & step & rest & ec2 & w2 & -> & Hs & C2 & E2).
      exists (s :: steps), step, rest, ec2, w2. simpl. by rewrite C, E.
    + intros; simplify_eq. by exists [], s, script, ec, w.
Qed.

Lemma Debug_loop_Thrown_callees callees ec steps step rest w ec1 w1 e w' :
  ThrowingCallees.Debug_steps callees ec steps w = Some (ec1, w1) →
  loop_condition ec1 (this w1) = true →
  ThrowingCallees.Debug_iteration callees ec1 step w1 = (Throw e, w') →
  ThrowingCallees.Debug_loop callees ec (steps ++ step :: rest) w
  = (Thrown e, w').
Proof.
  revert ec w. induction steps as [|s steps IH]; intros ec w; simpl.
  - intros ? C E; simplify_eq. by rewrite C, E.
  - destruct (loop_condition ec (this w)); [|done].
    destruct (ThrowingCallees.Debug_iteration callees ec s w)
      as [[ec2|e2] w2]; [|done]. apply IH.
Qed.

(** With callees that return, the two embeddings agree. *)
Lemma callee_raises_returning w ev :
  ThrowingCallees.callee_raises ThrowingCallees.returning w ev = None.
Proof.
  destruct ev as [pid tid info], w as [d cs].
  unfold ThrowingCallees.callee_raises, ThrowingCallees.returning.
  destruct info; simpl; repeat case_match; done.
Qed.

Lemma Debug_loop_returning ec script w :
  ThrowingCallees.Debug_loop ThrowingCallees.returning ec script w
  = Debug_loop ec script w.
Proof.
  revert ec w. induction script as [|s script IH]; intros ec w;
    cbn [ThrowingCallees.Debug_loop Debug_loop]; [done|].
  destruct (loop_condition ec (this w)); [|done].
  assert (E : ThrowingCallees.Debug_iteration ThrowingCallees.returning ec s w
              = Debug_iteration ec s w).
  { destruct s as [err|ev c]; [done|].
    apply Debug_iteration_callees_return, callee_raises_returning. }
  rewrite E. destruct (Debug_iteration ec s w) as [[ec1|e] w1]; [|done].
  apply IH.
Qed.

Lemma Debug_returning script w :
  ThrowingCallees.Debug ThrowingCallees.returning script w = Debug script w.
Proof.
  unfold ThrowingCallees.Debug, Debug. rewrite Debug_start_callees.
  cbn [ThrowingCallees.returning]. rewrite Debug_start_eq.
  apply Debug_loop_returning.
Qed.

(** Whatever the callees do, a run of [Debug] that does not end with an
    exception is a run of [Debug] with callees that return: what is proved
    of [Debugger.Debug] when it returns, and of the prefixes it has handled,
    holds of the code with callees that throw. *)
Lemma Debug_loop_not_Thrown callees ec script w out w' :
  ThrowingCallees.Debug_loop callees ec script w = (out, w') →
  (∀ e, out ≠ Thrown e) →
  Debug_loop ec script w = (out, w').
Proof.
  revert ec w. induction script as [|s script IH]; intros ec w;
    cbn [ThrowingCallees.Debug_loop Debug_loop]; [done|].
  destruct (loop_condition ec (this w)); [|done].
  destruct (ThrowingCallees.Debug_iteration callees ec s w)
    as [[ec1|e] w1] eqn:E.
  - apply Debug_iteration_Normal_callees in E. rewrite E. apply IH.
  - intros ? Hout; simplify_eq. by destruct (Hout e).
Qed.

Lemma Debug_not_Thrown callees script w out w' :
  ThrowingCallees.Debug callees script w = (out, w') →
  (∀ e, out ≠ Thrown e) →
  Debug script w = (out, w').
Proof.
  unfold ThrowingCallees.Debug, Debug. rewrite Debug_start_callees.
  cbn zeta. destruct (callees (calls w) _) as [e|].
  - intros ? Hout; simplify_eq. by destruct (Hout e).
  - rewrite Debug_start_eq. apply Debug_loop_not_Thrown.
Qed.

(** What an iteration of the loop throws, and where. *)
Lemma Debug_iteration_Throw_callees callees ec step w e w' :
  ThrowingCallees.Debug_iteration callees ec step w = (Throw e, w') ↔
    (∃ lastError,
       step = WaitFails lastError
       ∧ e = LastErrorException "Error WaitForDebugEvent:" lastError
       ∧ w' = w)
    ∨ (∃ ev c,
         step = Deliver ev c
         ∧ ThrowingCallees.HandleDebugEvent callees ev w = (Throw e, w'))
    ∨ (∃ ev lastError ps w2,
         step = Deliver ev (Some lastError)
         ∧ ThrowingCallees.HandleDebugEvent callees ev w = (Normal ps, w2)
         ∧ e = LastErrorException "Error in ContinueDebugEvent:" lastError
         ∧ w' = {| this := this w2;
                   calls := calls w2
                     ++ [ContinueDebugEvent (dwProcessId ev) (dwThreadId ev)
                           (default DBG_CONTINUE (continueStatus_ ps))] |}).
Proof.
  destruct step as [err|ev c]; cbn [ThrowingCallees.Debug_iteration].
  - unfold THROW_LAST_ERROR. split.
    + intros; simplify_eq. left. eauto.
    + intros [(? & ? & -> & ->)|[(? & ? & ? & _)|(? & ? & ? & ? & ? & _)]];
        by simplify_eq.
  - unfold bind at 1.
    destruct (ThrowingCallees.HandleDebugEvent callees ev w)
      as [[ps|e1] w1] eqn:E.
    + split.
      * unfold bind, ret, get_this, call, THROW_LAST_ERROR. simpl.
        destruct c as [err|]; intros; simplify_eq.
        right. right. by exists ev, err, ps, w1.
      * intros [(? & ? & _)|[(? & ? & ? & H)|(? & ? & ? & ? & ? & H & -> & ->)]];
          simplify_eq; rewrite E in H; by simplify_eq.
    + split.
      * intros; simplify_eq. right. left. eauto.
      * intros [(? & ? & _)|[(? & ? & ? & H)|(? & ? & ? & ? & ? & H & _)]];
          simplify_eq; rewrite E in H; by simplify_eq.
Qed.


Lemma Debug_handled_Some_callees callees steps w ec w1 :
  ThrowingCallees.Debug_handled callees steps w = Some (ec, w1) →
  ∃ w0, ThrowingCallees.Debug_start callees w = (Normal tt, w0)
        ∧ ThrowingCallees.Debug_steps callees None steps w0 = Some (ec, w1).
Proof.
  unfold ThrowingCallees.Debug_handled.
  destruct (ThrowingCallees.Debug_start callees w) as [[[]|e] w0]; [|done].
  eauto.
Qed.

(** C9, as the code has it.  With the loop still running, the event that
    is delivered makes [Debug] end with an exception thrown in handling it
    in these cases and no other.  When a callee called for the event throws
    (the handler's [OnCreateProcess] for a new process id; [OnExitProcess],
    [OnLoadDll], [OnUnloadDll] or [OnException] for ids that are both in the
    tables; the writer of the minidump), its exception leaves [Debug].
    When none does, [Debug] throws an invariant error exactly on: a
    CREATE_PROCESS whose process id is already in the process table or whose
    thread id is already in the thread table; a CREATE_THREAD whose thread id
    is already in the thread table; any other event whose process id is not
    in the process table or whose thread id is not in the thread table; an
    exception event that the handler classifies outside the five kinds.
    Otherwise the event is handled. *)
Theorem handling_throws_iff_callee_or_violation callees steps ev w ec w1 :
  ThrowingCallees.Debug_handled callees steps w = Some (ec, w1) →
  loop_condition ec (this w1) = true →
  (is_Some (ThrowingCallees.violation_error (this w1) ev)
   ↔ violates (this w1) ev)
  ∧ (∀ e, ThrowingCallees.violation_error (this w1) ev = Some e →
          invariant_error e = true)
  ∧ match ThrowingCallees.callee_raises callees w1 ev,
          ThrowingCallees.violation_error (this w1) ev with
    | Some e, _ | None, Some e =>
        ∀ c rest,
          fst (ThrowingCallees.Debug callees (steps ++ Deliver ev c :: rest) w)
          = Thrown e
    | None, None =>
        is_Some (ThrowingCallees.Debug_handled callees
                   (steps ++ [Deliver ev None]) w)
    end.
Proof.
  intros Hs C. split; [apply violation_error_violates|]. split.
  { intros e [w' H]%HandleDebugEvent_Throw_violation_error.
    by apply HandleDebugEvent_Throw in H as (_ & ? & _). }
  apply Debug_handled_Some_callees in Hs as (w0 & Hstart & Hs).
  assert (Hthrow : ∀ e c rest,
    (∃ w', ThrowingCallees.HandleDebugEvent callees ev w1 = (Throw e, w')) →
    fst (ThrowingCallees.Debug callees (steps ++ Deliver ev c :: rest) w)
    = Thrown e).
  { intros e c rest [w' H]. unfold ThrowingCallees.Debug. rewrite Hstart.
    erewrite Debug_loop_Thrown_callees; [done..|].
    cbn [ThrowingCallees.Debug_iteration]. unfold bind at 1. by rewrite H. }
  destruct (ThrowingCallees.callee_raises callees w1 ev) as [e|] eqn:R.
  - intros c rest. by apply Hthrow, HandleDebugEvent_callee_raises.
  - destruct (ThrowingCallees.violation_error (this w1) ev) as [e|] eqn:V.
    + intros c rest. apply Hthrow.
      rewrite HandleDebugEvent_callees_return by done.
      by apply HandleDebugEvent_Throw_violation_error.
    + unfold ThrowingCallees.Debug_handled. rewrite Hstart.
      rewrite Debug_steps_app_callees, Hs.
      cbn [ThrowingCallees.Debug_steps]. rewrite C.
      rewrite Debug_iteration_callees_return by done.
      destruct (HandleDebugEvent ev w1) as [[ps|e] w2] eqn:E.
      * simpl. unfold bind at 1. rewrite E. by eexists.
      * assert (ThrowingCallees.violation_error (this w1) ev = Some e)
          by (apply HandleDebugEvent_Throw_violation_error; eauto).
        congruence.
Qed.

Lemma handling_throws_iff_callee_or_violation_witness :
  let callees :=
    ThrowingCallees.OnExitProcess_throws (CppCoverageException "handler") in
  let ev := {| dwProcessId := 100; dwThreadId := 1;
               u := EXIT_PROCESS_DEBUG_EVENT 7 |} in
  ThrowingCallees.Debug_handled callees one_process_script default_world
  = Some (None, one_process_world)
  ∧ loop_condition None (this one_process_world) = true
  ∧ (is_Some (ThrowingCallees.violation_error (this one_process_world) ev)
     ↔ violates (this one_process_world) ev)
  ∧ (∀ e, ThrowingCallees.violation_error (this one_process_world) ev
          = Some e → invariant_error e = true)
  ∧ match ThrowingCallees.callee_raises callees one_process_world ev,
          ThrowingCallees.violation_error (this one_process_world) ev with
    | Some e, _ | None, Some e =>
        ∀ c rest,
          fst (ThrowingCallees.Debug callees
                 (one_process_script ++ Deliver ev c :: rest) default_world)
          = Thrown e
    | None, None =>
        is_Some (ThrowingCallees.Debug_handled callees
                   (one_process_script ++ [Deliver ev None]) default_world)
    end.
Proof.
  intros callees ev.
  split; [by vm_compute|]. split; [by vm_compute|].
  apply (handling_throws_iff_callee_or_violation callees one_process_script
           ev default_world None one_process_world); by vm_compute.
Defined.

(** C9, as stated, fails.  A LOAD_DLL event for a process id that is not in
    the process table makes [Debug] end with [std::out_of_range], and a
    LOAD_DLL event is none of the situations listed. *)
Lemma load_dll_of_unknown_process_throws :
  fst (Debug load_dll_script default_world) = Thrown std_out_of_range
  ∧ invariant_error std_out_of_range = true
  ∧ Debug_handled [] default_world
    = Some (None, snd (Debug_start default_world))
  ∧ ¬ listed_violation (this (snd (Debug_start default_world)))
        {| dwProcessId := 100; dwThreadId := 1;
           u := LOAD_DLL_DEBUG_EVENT 11 |}.
Proof. repeat split; by vm_compute. Qed.


End DebuggerFacts.

(** ** Part IV.  Properties of the coverage filter manager *)

Module CoverageFilterManagerFacts.
Import CoverageFilterManager.

Section filter_manager_facts.
Context {F path : Type} `{Path path} `{UnifiedDiffCoverageFilter F path}.
Variable GetSeparatorLine : wstring.
Variable VerboseOption : string.

(** *** [any_of] and the nearest executable line *)

Lemma any_of_existsb (container : list F) (fct : F → bool * F) :
  fst (any_of container fct) = existsb (λ filter, fst (fct filter)) container.
Proof.
  induction container as [|f rest IH]; simpl; [done|].
  destruct (fct f) as [[] f']; simpl; [done|].
  destruct (any_of rest fct) as [b rest']. by simpl in *.
Qed.

Lemma existsb_elem_of {A} (p : A → bool) (l : list A) :
  existsb p l = true ↔ ∃ x, x ∈ l ∧ p x = true.
Proof.
  rewrite existsb_exists. setoid_rewrite list_elem_of_In. done.
Qed.

Lemma lower_bound_app (below s : list Z) (key : Z) :
  Forall (λ x, x < key) below →
  lower_bound (below ++ s) key = (length below + lower_bound s key)%nat.
Proof.
  induction 1 as [|x below Hx _ IH]; simpl; [done|].
  destruct (Z.ltb_spec x key); [|lia]. by rewrite IH.
Qed.

Lemma GetExecutableLineOrPreviousOne_scan (below s : list Z) (key : Z) :
  Forall (λ x, x < key) below →
  GetExecutableLineOrPreviousOne key (below ++ s)
  = scan_from (last below) s key.
Proof.
  revert below. induction s as [|x s IH]; intros below Hb.
  - unfold GetExecutableLineOrPreviousOne. rewrite app_nil_r.
    pose proof (lower_bound_app below [] key Hb) as E.
    rewrite app_nil_r in E. rewrite E. simpl. rewrite Nat.add_0_r.
    rewrite Nat.eqb_refl. simpl.
    destruct below as [|b below _] using rev_ind; [done|].
    rewrite length_app. simpl.
    replace (length below + 1 =? 0)%nat with false
      by (symmetry; apply Nat.eqb_neq; lia).
    rewrite last_snoc.
    rewrite lookup_app_r by lia.
    by replace (length below + 1 - 1 - length below)%nat with 0%nat by lia.
  - simpl. destruct (Z.ltb_spec x key) as [Hx|Hx].
    + specialize (IH (below ++ [x])). rewrite <- app_assoc in IH. simpl in IH.
      rewrite IH, last_snoc; [done|].
      apply Forall_app. split; [done|]. by constructor.
    + unfold GetExecutableLineOrPreviousOne.
      rewrite (lower_bound_app below (x :: s) key Hb). simpl.
      destruct (Z.ltb_spec x key); [lia|]. rewrite Nat.add_0_r.
      rewrite length_app. simpl.
      replace (length below =? length below + S (length s))%nat with false
        by (symmetry; apply Nat.eqb_neq; lia).
      simpl. rewrite lookup_app_r by lia. rewrite Nat.sub_diag. simpl.
      case_bool_decide as B1; case_bool_decide as B2; simplify_eq; try done.
      destruct below as [|b below _] using rev_ind; [done|].
      rewrite length_app. simpl.
      replace (length below + 1 =? 0)%nat with false
        by (symmetry; apply Nat.eqb_neq; lia).
      rewrite last_snoc, <- app_assoc.
      rewrite lookup_app_r by lia.
      by replace (length below + 1 - 1 - length below)%nat with 0%nat by lia.
Qed.

Lemma largest_elem_of (l : list Z) (y : Z) : largest l = Some y → y ∈ l.
Proof.
  revert y. induction l as [|x l IH]; intros y; simpl; [done|].
  destruct (largest l) as [z|]; simpl; intros; simplify_eq;
    rewrite elem_of_cons; [|by left].
  destruct (Z.max_spec x z) as [[_ ->]|[_ ->]]; [right; by apply IH|by left].
Qed.

Lemma scan_from_resolved (prev : option Z) (s : list Z) (key : Z) :
  StronglySorted Z.lt s →
  scan_from prev s key
  = if bool_decide (key ∈ s) then Some key
    else match largest (filter (λ x, x < key) s) with
         | Some y => Some y
         | None => prev
         end.
Proof.
  intros Hs. revert prev.
  induction Hs as [|x s Hs IH Hx]; intros prev; simpl; [done|].
  destruct (Z.ltb_spec x key) as [Hlt|Hge].
  - rewrite IH. rewrite filter_cons_True by done.
    assert (key ∈ x :: s ↔ key ∈ s) as Hin.
    { rewrite elem_of_cons. split; [intros [?|?]; [lia|done]|by right]. }
    rewrite (bool_decide_ext _ _ Hin). case_bool_decide; [done|].
    simpl. destruct (largest (filter _ s)) as [y|] eqn:L; simpl; [|done].
    apply largest_elem_of, list_elem_of_filter in L as [_ L].
    rewrite Forall_forall in Hx. apply Hx in L. f_equal. lia.
  - rewrite Forall_forall in Hx. clear IH.
    case_bool_decide as B; simplify_eq.
    + rewrite bool_decide_true by (apply elem_of_cons; by left). done.
    + rewrite bool_decide_false.
      2: { intros [?|Hin%Hx]%elem_of_cons; [done|lia]. }
      rewrite filter_cons_False by lia.
      replace (filter (λ x0, x0 < key) s) with (@nil Z); [done|].
      symmetry. clear B.
      induction s as [|y s IHs]; [done|].
      rewrite filter_cons_False.
      * apply IHs. { by inversion Hs. }
        intros z Hz. apply Hx, elem_of_cons. by right.
      * assert (x < y) by (apply Hx, elem_of_cons; by left). lia.
Qed.

Lemma GetExecutableLineOrPreviousOne_resolved (key : Z) (s : list Z) :
  StronglySorted Z.lt s →
  GetExecutableLineOrPreviousOne key s = resolved_line key s.
Proof.
  intros Hs.
  pose proof (GetExecutableLineOrPreviousOne_scan [] s key) as E.
  simpl in E. rewrite E by constructor.
  rewrite scan_from_resolved by done. unfold resolved_line.
  case_bool_decide; [done|]. by destruct (largest _).
Qed.

Lemma largest_spec (l : list Z) (y : Z) :
  largest l = Some y ↔ y ∈ l ∧ ∀ x, x ∈ l → x ≤ y.
Proof.
  revert y. induction l as [|x l IH]; intros y; simpl.
  - split; [done|]. by intros [?%elem_of_nil _].
  - destruct (largest l) as [z|] eqn:L; simpl.
    + destruct (IH z) as [[Hz Hmax] _]; [done|]. split.
      * intros ?; simplify_eq. split.
        -- apply elem_of_cons.
           destruct (Z.max_spec x z) as [[_ ->]|[_ ->]]; auto.
        -- intros x' [->|Hx'%Hmax]%elem_of_cons; lia.
      * intros [Hy Hle]. f_equal.
        assert (x ≤ y) by (apply Hle, elem_of_cons; auto).
        assert (z ≤ y) by (apply Hle, elem_of_cons; auto).
        apply elem_of_cons in Hy as [->|Hy%Hmax]; lia.
    + assert (l = []) as ->.
      { destruct l as [|a l]; [done|]. simpl in L. done. }
      split.
      * intros ?; simplify_eq. split; [apply elem_of_cons; auto|].
        by intros x' [->|?%elem_of_nil]%elem_of_cons.
      * by intros [[->|?%elem_of_nil]%elem_of_cons _].
Qed.

Lemma largest_None (l : list Z) : largest l = None ↔ l = [].
Proof. by destruct l. Qed.

Lemma resolved_line_spec (lineNumber : Z) (executableLines : list Z) :
  (lineNumber ∈ executableLines →
   resolved_line lineNumber executableLines = Some lineNumber)
  ∧ (lineNumber ∉ executableLines →
     (∀ y, resolved_line lineNumber executableLines = Some y
           ↔ (y ∈ executableLines ∧ y < lineNumber)
             ∧ ∀ x, x ∈ executableLines → x < lineNumber → x ≤ y)
     ∧ (resolved_line lineNumber executableLines = None
        ↔ ∀ x, x ∈ executableLines → ¬ x < lineNumber)).
Proof.
  unfold resolved_line. split.
  - intros Hin. by rewrite bool_decide_true.
  - intros Hnin. rewrite bool_decide_false by done. split.
    + intros y. rewrite largest_spec, list_elem_of_filter.
      setoid_rewrite list_elem_of_filter. split.
      * intros [[? ?] Hmax]. repeat split; try done. auto.
      * intros [[? ?] Hmax]. repeat split; try done. intros x [? ?]. auto.
    + rewrite largest_None. split.
      * intros Hnil x Hx Hlt.
        assert (x ∈ filter (λ s, s < lineNumber) executableLines) as Hf
          by by apply list_elem_of_filter.
        rewrite Hnil in Hf. by apply elem_of_nil in Hf.
      * intros Hno. apply elem_of_nil_inv.
        intros x [? ?]%list_elem_of_filter. by eapply Hno.
Qed.

Abbreviation less := (λ p q : path, path_less p q = true).

(** *** The set of unmatched paths and the message *)

Lemma path_equivalent_spec (p q : path) :
  path_equivalent p q = true
  ↔ path_less p q = false ∧ path_less q p = false.
Proof.
  unfold path_equivalent.
  destruct (path_less p q), (path_less q p); simpl; intuition congruence.
Qed.

Lemma path_equivalent_refl (p : path) : path_equivalent p p = true.
Proof. apply path_equivalent_spec. by rewrite path_less_irreflexive. Qed.



(** A path less than another is less than, or above, any third. *)
Lemma path_less_cotransitive (p q r : path) :
  path_less p q = true → path_less p r = true ∨ path_less r q = true.
Proof.
  intros Hpq.
  destruct (path_less p r) eqn:Hpr; [by left|].
  destruct (path_less r q) eqn:Hrq; [by right|]. exfalso.
  destruct (path_less r p) eqn:Hrp.
  { rewrite (path_less_transitive r p q) in Hrq; done. }
  destruct (path_less q r) eqn:Hqr.
  { rewrite (path_less_transitive p q r) in Hpr; done. }
  rewrite (path_equivalent_transitive p r q) in Hpq; done.
Qed.


Lemma path_less_equivalent_l (p q r : path) :
  path_equivalent p q = true → path_less q r = true → path_less p r = true.
Proof.
  intros [_ Hqp]%path_equivalent_spec Hqr.
  destruct (path_less_cotransitive q r p Hqr); congruence.
Qed.

Lemma elem_of_set_insert (p q : path) (s : list path) :
  q ∈ set_insert p s → q = p ∨ q ∈ s.
Proof.
  induction s as [|r s IH]; simpl.
  - rewrite list_elem_of_singleton. tauto.
  - destruct (path_less p r) eqn:Hpr; [by rewrite elem_of_cons|].
    destruct (path_less r p) eqn:Hrp; [|tauto].
    rewrite !elem_of_cons. tauto.
Qed.

Lemma set_insert_keeps (p q : path) (s : list path) :
  q ∈ s → q ∈ set_insert p s.
Proof.
  induction s as [|r s IH]; simpl; [by intros ?%elem_of_nil|].
  destruct (path_less p r) eqn:Hpr; [by apply list_elem_of_further|].
  destruct (path_less r p) eqn:Hrp; [|done].
  rewrite !elem_of_cons. tauto.
Qed.

Lemma set_insert_equivalent (p : path) (s : list path) :
  ∃ q, q ∈ set_insert p s ∧ path_equivalent p q = true.
Proof.
  induction s as [|r s (q & Hq & He)]; simpl.
  - exists p. split; [apply list_elem_of_here|apply path_equivalent_refl].
  - destruct (path_less p r) eqn:Hpr.
    { exists p. split; [apply list_elem_of_here|apply path_equivalent_refl]. }
    destruct (path_less r p) eqn:Hrp.
    + exists q. split; [by apply list_elem_of_further|done].
    + exists r. split; [apply list_elem_of_here|].
      by apply path_equivalent_spec.
Qed.

Lemma set_insert_sorted (p : path) (s : list path) :
  StronglySorted less s → StronglySorted less (set_insert p s).
Proof.
  induction 1 as [|r s Hs IH Hr]; simpl.
  - repeat constructor.
  - destruct (path_less p r) eqn:Hpr.
    + constructor; [by constructor|]. constructor; [done|].
      eapply Forall_impl; [done|]. intros q Hq. simpl in *.
      by eapply path_less_transitive.
    + destruct (path_less r p) eqn:Hrp; [|by constructor].
      constructor; [done|]. apply Forall_forall.
      intros q [->|Hq]%elem_of_set_insert; [done|].
      rewrite Forall_forall in Hr. by apply Hr.
Qed.

Lemma set_insert_range_spec (paths s : list path) :
  StronglySorted less s →
  StronglySorted less (set_insert_range paths s)
  ∧ (∀ q, q ∈ set_insert_range paths s → q ∈ paths ∨ q ∈ s)
  ∧ (∀ q, q ∈ s → q ∈ set_insert_range paths s)
  ∧ (∀ p, p ∈ paths →
          ∃ q, q ∈ set_insert_range paths s ∧ path_equivalent p q = true).
Proof.
  unfold set_insert_range. revert s.
  induction paths as [|p paths IH]; intros s Hs; simpl.
  - repeat split; try done; [tauto|]. by intros p ?%elem_of_nil.
  - destruct (IH (set_insert p s)) as (Hsorted & Hfrom & Hkeep & Hcover);
      [by apply set_insert_sorted|].
    repeat split; [done| | |].
    + intros q [?|[->|?]%elem_of_set_insert]%Hfrom;
        rewrite elem_of_cons; tauto.
    + intros q Hq. by apply Hkeep, set_insert_keeps.
    + intros p' [Heq|Hp']%elem_of_cons; [subst p'|by apply Hcover].
      destruct (set_insert_equivalent p s) as (q & Hq & He).
      exists q. split; [by apply Hkeep|done].
Qed.

Lemma collect_unmatchPaths_spec (m : CoverageFilterManager (F:=F)) :
  StronglySorted less (collect_unmatchPaths m)
  ∧ (∀ p, p ∈ collect_unmatchPaths m →
          ∃ filter, filter ∈ unifiedDiffCoverageFilters_ m
                    ∧ p ∈ filter_GetUnmatchedPaths filter)
  ∧ (∀ filter p,
       filter ∈ unifiedDiffCoverageFilters_ m →
       p ∈ filter_GetUnmatchedPaths filter →
       ∃ q, q ∈ collect_unmatchPaths m ∧ path_equivalent p q = true).
Proof.
  unfold collect_unmatchPaths.
  assert (G : ∀ (fs : list F) (s : list path),
    StronglySorted less s →
    let r := foldl (λ unmatchPaths filter,
      set_insert_range (filter_GetUnmatchedPaths filter) unmatchPaths) s fs in
    StronglySorted less r
    ∧ (∀ p, p ∈ r → p ∈ s ∨ ∃ filter, filter ∈ fs
                              ∧ p ∈ filter_GetUnmatchedPaths filter)
    ∧ (∀ p, p ∈ s → p ∈ r)
    ∧ (∀ filter p, filter ∈ fs → p ∈ filter_GetUnmatchedPaths filter →
                   ∃ q, q ∈ r ∧ path_equivalent p q = true)).
  { induction fs as [|f fs IH]; intros s Hs; simpl.
    - repeat split; try done; [tauto|]. by intros f p ?%elem_of_nil.
    - destruct (set_insert_range_spec (filter_GetUnmatchedPaths f) s Hs)
        as (Hs' & Hfrom' & Hkeep' & Hcover').
      destruct (IH _ Hs') as (Hs'' & Hfrom'' & Hkeep'' & Hcover'').
      repeat split; [done| | |].
      + intros p [[?|?]%Hfrom'|(g & ? & ?)]%Hfrom''.
        * right. exists f. split; [apply list_elem_of_here|done].
        * by left.
        * right. exists g. split; [by apply list_elem_of_further|done].
      + intros p Hp. by apply Hkeep'', Hkeep'.
      + intros g p [Heq|Hg]%elem_of_cons Hp; [subst g|by eapply Hcover''].
        destruct (Hcover' p Hp) as (q & Hq & He).
        exists q. split; [by apply Hkeep''|done]. }
  destruct (G (unifiedDiffCoverageFilters_ m) []) as (Hs & Hfrom & _ & Hcover);
    [constructor|].
  repeat split; [done| |done].
  intros p [?%elem_of_nil|?]%Hfrom; done.
Qed.

Lemma take_length_min {A} (l : list A) (n : nat) :
  take (length l `min` n) l = take n l.
Proof.
  destruct (Nat.le_ge_cases n (length l)).
  - by rewrite Nat.min_r.
  - rewrite Nat.min_l by done. by rewrite !take_ge.
Qed.

Lemma path_lines_spec (i : nat) (unmatchPaths : list path) (max : nat) :
  path_lines i unmatchPaths max
  = ((λ p, String "009"%char "- " +:+ path_wstring p)
       <$> take (max - i) unmatchPaths)
    ++ (if (max - i <? length unmatchPaths)%nat
        then [String "009"%char "..."] else []).
Proof.
  revert i. induction unmatchPaths as [|p rest IH]; intros i; simpl.
  - by rewrite take_nil.
  - destruct (Nat.leb_spec max i) as [Hle|Hlt].
    + by replace (max - i)%nat with 0%nat by lia.
    + rewrite IH. replace (max - i)%nat with (S (max - S i)) by lia.
      done.
Qed.


(** The private overload, in closed form. *)
Lemma ComputeWarningMessageLines_for_eq (unmatchPaths : list path)
    (maxUnmatchPaths : nat) :
  ComputeWarningMessageLines_for GetSeparatorLine VerboseOption
    unmatchPaths maxUnmatchPaths
  = let N := length unmatchPaths in
    if (N =? 0)%nat then []
    else [ GetSeparatorLine;
           "You have " +:+ to_wstring N
             +:+ " path(s) inside unified diff file(s) that were ignored";
           "because they did not match any path from pdb files.";
           "To see all files use --" +:+ VerboseOption ]
         ++ ((λ p, String "009"%char "- " +:+ path_wstring p)
               <$> take (N `min` maxUnmatchPaths) unmatchPaths)
         ++ (if (maxUnmatchPaths <? N)%nat
             then [String "009"%char "..."] else []).
Proof.
  unfold ComputeWarningMessageLines_for.
  rewrite path_lines_spec, Nat.sub_0_r, take_length_min.
  by destruct unmatchPaths.
Qed.

(** *** The properties of the specification *)

(** C1.  [IsLineSelected] computes the reference definition: with no diff
    filter the answer is true; otherwise the line is resolved to itself when
    it is in the set of executable lines, else to the largest executable line
    strictly below it, and the answer is false when there is none; with a
    resolved line, the answer is true iff some diff filter of the sequence
    accepts the file name and the resolved line.  The set of executable lines
    is a [std::set<int>], given by its elements in increasing order. *)
Theorem IsLineSelected_refines_reference (m : CoverageFilterManager (F:=F))
    (filename : wstring) (lineNumber : Z) (executableLinesSet : list Z) :
  StronglySorted Z.lt executableLinesSet →
  fst (IsLineSelected m filename lineNumber executableLinesSet)
  = IsLineSelected_reference m filename lineNumber executableLinesSet
  ∧ (lineNumber ∈ executableLinesSet →
     resolved_line lineNumber executableLinesSet = Some lineNumber)
  ∧ (lineNumber ∉ executableLinesSet →
     (∀ y, resolved_line lineNumber executableLinesSet = Some y
           ↔ (y ∈ executableLinesSet ∧ y < lineNumber)
             ∧ ∀ x, x ∈ executableLinesSet → x < lineNumber → x ≤ y)
     ∧ (resolved_line lineNumber executableLinesSet = None
        ↔ ∀ x, x ∈ executableLinesSet → ¬ x < lineNumber)).
Proof.
  intros Hs. split; [|apply resolved_line_spec].
  unfold IsLineSelected, IsLineSelected_reference.
  rewrite GetExecutableLineOrPreviousOne_resolved by done.
  destruct (unifiedDiffCoverageFilters_ m) as [|f fs]; [done|].
  destruct (resolved_line lineNumber executableLinesSet) as [n|]; [|done].
  unfold AnyOfOrTrueIfEmpty.
  rewrite <- (any_of_existsb (f :: fs)).
  by destruct (any_of (f :: fs) _).
Qed.

(** C5.  [IsSourceFileSelected] is true iff the wildcard filter accepts the
    file and either there is no diff filter or some diff filter of the
    sequence accepts the file: it is false whenever the wildcard filter
    rejects the file.  With no diff filter it is the wildcard filter's
    [IsSourceFileSelected]. *)
Theorem IsSourceFileSelected_spec (m : CoverageFilterManager (F:=F))
    (filename : wstring) :
  (fst (IsSourceFileSelected m filename) = true
   ↔ wildcard_IsSourceFileSelected (wildcardCoverageFilter_ m) filename = true
     ∧ (unifiedDiffCoverageFilters_ m = []
        ∨ ∃ filter, filter ∈ unifiedDiffCoverageFilters_ m
                    ∧ fst (filter_IsSourceFileSelected filter filename) = true))
  ∧ ∀ wildcard : WildcardCoverageFilter,
      fst (IsSourceFileSelected
             {| wildcardCoverageFilter_ := wildcard;
                unifiedDiffCoverageFilters_ := [] |} filename)
      = wildcard_IsSourceFileSelected wildcard filename.
Proof.
  split.
  - unfold IsSourceFileSelected.
    destruct (wildcard_IsSourceFileSelected _ filename); simpl.
    2: { split; [done|]. by intros [? _]. }
    destruct (unifiedDiffCoverageFilters_ m) as [|f fs] eqn:E.
    + simpl. split; [|done]. intros _. split; [done|]. by left.
    + unfold AnyOfOrTrueIfEmpty.
      pose proof (any_of_existsb (f :: fs)
                    (λ filter, filter_IsSourceFileSelected filter filename))
        as A.
      destruct (any_of (f :: fs) _) as [b fs']. cbn [fst] in *.
      rewrite A, existsb_elem_of. split.
      * intros Hex. split; [done|]. by right.
      * by intros [_ [?|?]].
  - intros wildcard. unfold IsSourceFileSelected. simpl.
    by destruct (wildcard_IsSourceFileSelected wildcard filename).
Qed.

(** C6.  For a set of [N] paths, [ComputeWarningMessageLines] gives no
    line when [N = 0]; otherwise the four lines of the header, the second of
    which has [N] in it, then one line for each of the first
    [min N maxUnmatchPaths] paths in increasing order, then the line with
    the ellipsis iff [maxUnmatchPaths < N].  The set the public overload
    collects is in increasing order, so no two of its paths are equivalent;
    every path of it is an unmatched path of a diff filter, and every
    unmatched path of a diff filter is equivalent to a path of it. *)
Theorem ComputeWarningMessageLines_spec (m : CoverageFilterManager (F:=F))
    (maxUnmatchPaths : nat) :
  let message (unmatchPaths : list path) :=
    let N := length unmatchPaths in
    if (N =? 0)%nat then []
    else [ GetSeparatorLine;
           "You have " +:+ to_wstring N
             +:+ " path(s) inside unified diff file(s) that were ignored";
           "because they did not match any path from pdb files.";
           "To see all files use --" +:+ VerboseOption ]
         ++ ((λ p, String "009"%char "- " +:+ path_wstring p)
               <$> take (N `min` maxUnmatchPaths) unmatchPaths)
         ++ (if (maxUnmatchPaths <? N)%nat
             then [String "009"%char "..."] else []) in
  (∀ unmatchPaths,
     ComputeWarningMessageLines_for GetSeparatorLine VerboseOption
       unmatchPaths maxUnmatchPaths = message unmatchPaths)
  ∧ StronglySorted less (collect_unmatchPaths m)
  ∧ (∀ p, p ∈ collect_unmatchPaths m →
          ∃ filter, filter ∈ unifiedDiffCoverageFilters_ m
                    ∧ p ∈ filter_GetUnmatchedPaths filter)
  ∧ (∀ filter p,
       filter ∈ unifiedDiffCoverageFilters_ m →
       p ∈ filter_GetUnmatchedPaths filter →
       ∃ q, q ∈ collect_unmatchPaths m ∧ path_equivalent p q = true)
  ∧ ComputeWarningMessageLines GetSeparatorLine VerboseOption m
      maxUnmatchPaths = message (collect_unmatchPaths m).
Proof.
  intros message.
  destruct (collect_unmatchPaths_spec m) as (Hs & Hfrom & Hcover).
  split; [intros unmatchPaths; apply ComputeWarningMessageLines_for_eq|].
  repeat split; try done.
  apply ComputeWarningMessageLines_for_eq.
Qed.

End filter_manager_facts.

(** *** Spellings as paths *)

Lemma lt_irreflexive (x : string) : ¬ String_as_OT.lt x x.
Proof. apply (StrictOrder_Irreflexive (R:=String_as_OT.lt)). Qed.

Lemma lt_asymmetric (x y : string) :
  String_as_OT.lt x y → ¬ String_as_OT.lt y x.
Proof.
  intros L L'. apply (lt_irreflexive x).
  by apply (StrictOrder_Transitive (R:=String_as_OT.lt) _ _ _ L L').
Qed.

Lemma compare_Lt (x y : string) :
  String_as_OT.compare x y = Lt ↔ String_as_OT.lt x y.
Proof.
  destruct (String_as_OT.compare_spec x y) as [->|L|L]; split; try done;
    intros L'; exfalso.
  - by apply lt_irreflexive in L'.
  - by apply (lt_asymmetric x y).
Qed.

Lemma compare_Gt (x y : string) :
  String_as_OT.compare x y = Gt ↔ String_as_OT.lt y x.
Proof.
  destruct (String_as_OT.compare_spec x y) as [->|L|L]; split; try done;
    intros L'; exfalso.
  - by apply lt_irreflexive in L'.
  - by apply (lt_asymmetric x y).
Qed.

Lemma compare_Eq (x y : string) : String_as_OT.compare x y = Eq → x = y.
Proof. by destruct (String_as_OT.compare_spec x y). Qed.

Lemma compare_refl (x : string) : String_as_OT.compare x x = Eq.
Proof.
  destruct (String_as_OT.compare x x) eqn:E; [done| |].
  - by apply compare_Lt, lt_irreflexive in E.
  - by apply compare_Gt, lt_irreflexive in E.
Qed.

Lemma compare_Lt_Gt (x y : string) :
  String_as_OT.compare x y = Lt ↔ String_as_OT.compare y x = Gt.
Proof. by rewrite compare_Lt, compare_Gt. Qed.

Lemma compare_Lt_trans (x y z : string) :
  String_as_OT.compare x y = Lt → String_as_OT.compare y z = Lt →
  String_as_OT.compare x z = Lt.
Proof.
  rewrite !compare_Lt. apply (StrictOrder_Transitive (R:=String_as_OT.lt)).
Qed.

Lemma elements_less_irreflexive (p : list string) : elements_less p p = false.
Proof. induction p as [|x p IH]; simpl; [done|]. by rewrite compare_refl. Qed.

Lemma elements_less_transitive (p q r : list string) :
  elements_less p q = true → elements_less q r = true →
  elements_less p r = true.
Proof.
  revert q r. induction p as [|x p IH]; intros [|y q] [|z r]; simpl;
    try done.
  destruct (String_as_OT.compare x y) eqn:Exy;
    destruct (String_as_OT.compare y z) eqn:Eyz; try done.
  - apply compare_Eq in Exy as ->. rewrite Eyz. apply IH.
  - apply compare_Eq in Exy as ->. by rewrite Eyz.
  - apply compare_Eq in Eyz as ->. by rewrite Exy.
  - by rewrite (compare_Lt_trans x y z).
Qed.

Lemma elements_less_total (p q : list string) :
  elements_less p q = false → elements_less q p = false → p = q.
Proof.
  revert q. induction p as [|x p IH]; intros [|y q]; simpl; try done.
  destruct (String_as_OT.compare x y) eqn:Exy; [|done|].
  - apply compare_Eq in Exy as ->. rewrite compare_refl.
    intros. f_equal. by apply IH.
  - assert (String_as_OT.compare y x = Lt) as -> by by apply compare_Lt_Gt.
    done.
Qed.

Lemma spelling_less_irreflexive (p : string) : spelling_less p p = false.
Proof. apply elements_less_irreflexive. Qed.

Lemma spelling_less_transitive (p q r : string) :
  spelling_less p q = true → spelling_less q r = true →
  spelling_less p r = true.
Proof. apply elements_less_transitive. Qed.

Lemma spelling_equivalent_transitive (p q r : string) :
  spelling_less p q = false → spelling_less q p = false →
  spelling_less q r = false → spelling_less r q = false →
  spelling_less p r = false.
Proof.
  unfold spelling_less. intros Hpq Hqp Hqr Hrq.
  rewrite (elements_less_total _ _ Hpq Hqp), (elements_less_total _ _ Hqr Hrq).
  apply elements_less_irreflexive.
Qed.

#[global] Instance spelling_Path : Path string :=
  {| path_less := spelling_less;
     path_wstring := λ p, p;
     path_less_irreflexive := spelling_less_irreflexive;
     path_less_transitive := spelling_less_transitive;
     path_equivalent_transitive := spelling_equivalent_transitive |}.

(** *** The scenarios of the specification *)

Lemma IsLineSelected_refines_reference_witness :
  StronglySorted Z.lt [10; 20; 30]
  ∧ fst (IsLineSelected
           {| wildcardCoverageFilter_ := include_all;
              unifiedDiffCoverageFilters_ := [F1; F2] |} "x.cpp" 25
           [10; 20; 30])
    = IsLineSelected_reference
        {| wildcardCoverageFilter_ := include_all;
           unifiedDiffCoverageFilters_ := [F1; F2] |} "x.cpp" 25
        [10; 20; 30]
  ∧ (25 ∈ [10; 20; 30] → resolved_line 25 [10; 20; 30] = Some 25)
  ∧ (25 ∉ [10; 20; 30] →
     (∀ y, resolved_line 25 [10; 20; 30] = Some y
           ↔ (y ∈ [10; 20; 30] ∧ y < 25)
             ∧ ∀ x, x ∈ [10; 20; 30] → x < 25 → x ≤ y)
     ∧ (resolved_line 25 [10; 20; 30] = None
        ↔ ∀ x, x ∈ [10; 20; 30] → ¬ x < 25)).
Proof.
  assert (Hs : StronglySorted Z.lt [10; 20; 30]).
  { repeat constructor; lia. }
  split; [done|].
  by apply (IsLineSelected_refines_reference
              {| wildcardCoverageFilter_ := include_all;
                 unifiedDiffCoverageFilters_ := [F1; F2] |} "x.cpp" 25
              [10; 20; 30]).
Defined.

Lemma ComputeWarningMessageLines_spec_witness :
  let m := {| wildcardCoverageFilter_ := include_all;
              unifiedDiffCoverageFilters_ := [F1; F2] |} in
  let message (unmatchPaths : list string) :=
    let N := length unmatchPaths in
    if (N =? 0)%nat then []
    else [ "----";
           "You have " +:+ to_wstring N
             +:+ " path(s) inside unified diff file(s) that were ignored";
           "because they did not match any path from pdb files.";
           "To see all files use --" +:+ "verbose" ]
         ++ ((λ p, String "009"%char "- " +:+ path_wstring p)
               <$> take (N `min` 2) unmatchPaths)
         ++ (if (2 <? N)%nat then [String "009"%char "..."] else []) in
  (∀ unmatchPaths,
     ComputeWarningMessageLines_for "----" "verbose" unmatchPaths 2
     = message unmatchPaths)
  ∧ StronglySorted (λ p q, path_less p q = true) (collect_unmatchPaths m)
  ∧ (∀ p, p ∈ collect_unmatchPaths m →
          ∃ filter, filter ∈ unifiedDiffCoverageFilters_ m
                    ∧ p ∈ filter_GetUnmatchedPaths filter)
  ∧ (∀ filter p,
       filter ∈ unifiedDiffCoverageFilters_ m →
       p ∈ filter_GetUnmatchedPaths filter →
       ∃ q, q ∈ collect_unmatchPaths m ∧ path_equivalent p q = true)
  ∧ ComputeWarningMessageLines "----" "verbose" m 2
    = message (collect_unmatchPaths m).
Proof.
  exact (ComputeWarningMessageLines_spec (F:=DiffFilter) (path:=string)
           "----" "verbose"
           {| wildcardCoverageFilter_ := include_all;
              unifiedDiffCoverageFilters_ := [F1; F2] |} 2).
Defined.

(** Nearest executable line: with executable lines 10, 20 and 30, line 20
    resolves to 20, line 25 to 20, line 10 to 10, and line 9 to nothing. *)
Example nearest_executable_line :
  GetExecutableLineOrPreviousOne 20 [10; 20; 30] = Some 20
  ∧ GetExecutableLineOrPreviousOne 25 [10; 20; 30] = Some 20
  ∧ GetExecutableLineOrPreviousOne 10 [10; 20; 30] = Some 10
  ∧ GetExecutableLineOrPreviousOne 9 [10; 20; 30] = None
  ∧ GetExecutableLineOrPreviousOne 31 [10; 20; 30] = Some 30
  ∧ GetExecutableLineOrPreviousOne 42 [] = None.
Proof. repeat split; by vm_compute. Qed.

(** Two diff filters, the first selecting line 10 of [x.cpp] and the second
    line 20: a line is selected when either filter selects the executable
    line it resolves to. *)
Example union_across_diff_filters :
  let m := {| wildcardCoverageFilter_ := include_all;
              unifiedDiffCoverageFilters_ := [F1; F2] |} in
  fst (IsLineSelected m "x.cpp" 10 [10; 20]) = true
  ∧ fst (IsLineSelected m "x.cpp" 20 [10; 20]) = true
  ∧ fst (IsLineSelected m "x.cpp" 30 [10; 20]) = true
  ∧ fst (IsLineSelected m "x.cpp" 30 [10; 20; 30]) = false
  ∧ fst (IsLineSelected m "x.cpp" 9 [10; 20]) = false.
Proof. repeat split; by vm_compute. Qed.

(** The warning for three unmatched paths cut at two. *)
Example warning_for_three_paths :
  ComputeWarningMessageLines "----" "verbose"
    {| wildcardCoverageFilter_ := include_all;
       unifiedDiffCoverageFilters_ := [F1; F2] |} 2
  = [ "----";
      "You have 3 path(s) inside unified diff file(s) that were ignored";
      "because they did not match any path from pdb files.";
      "To see all files use --verbose";
      String "009"%char "- a.cpp";
      String "009"%char "- b.cpp";
      String "009"%char "..." ].
Proof. by vm_compute. Qed.

(** Two spellings of one path.  [a/b] and [a//b] have the same elements, so
    the set keeps the one that is inserted first: the warning counts one
    path and shows the spelling of the filter that comes first.  The order
    goes by elements: [a/b] is before [a.b], which as a string is the
    smaller. *)
Example equivalent_spellings_are_one_path :
  path_equivalent "a/b" "a//b" = true
  ∧ ComputeWarningMessageLines "----" "verbose"
      {| wildcardCoverageFilter_ := include_all;
         unifiedDiffCoverageFilters_ := [F3; F4] |} 2
    = [ "----";
        "You have 1 path(s) inside unified diff file(s) that were ignored";
        "because they did not match any path from pdb files.";
        "To see all files use --verbose";
        String "009"%char "- a/b" ]
  ∧ ComputeWarningMessageLines "----" "verbose"
      {| wildcardCoverageFilter_ := include_all;
         unifiedDiffCoverageFilters_ := [F4; F3] |} 2
    = [ "----";
        "You have 1 path(s) inside unified diff file(s) that were ignored";
        "because they did not match any path from pdb files.";
        "To see all files use --verbose";
        String "009"%char "- a//b" ]
  ∧ path_less "a/b" "a.b" = true
  ∧ String_as_OT.compare "a.b" "a/b" = Lt.
Proof. repeat split; by vm_compute. Qed.

End CoverageFilterManagerFacts.

(** ** Part V.  More of the two files: calls made, handles, construction *)

(** *** Vocabulary for the calls the debugger makes *)

Module DebuggerTrace.
Import Debugger.

(** The [ContinueDebugEvent] calls of a list of calls, in order. *)
Definition continued (cs : list Call) : list (Z * Z * Z) :=
  omap (λ c, match c with
             | ContinueDebugEvent pid tid status => Some (pid, tid, status)
             | _ => None
             end) cs.

(** The handles closed by a list of calls, in order. *)
Definition closed (cs : list Call) : list Z :=
  omap (λ c, match c with CloseHandle h => Some h | _ => None end) cs.

(** The creation flags of the [Process::Start] calls of a list of calls. *)
Definition started (cs : list Call) : list Z :=
  omap (λ c, match c with Process_Start flags => Some flags | _ => None end) cs.

(** The calls of [HandleCrashDump] for an exception event: the thread
    context is read and the dump written when dumps are asked for and the
    exception is a second chance one, or a first chance one where
    [includeFirstChance] is set. *)
Definition dump_calls (d : Debugger) (ev : DEBUG_EVENT)
    (dwFirstChance : Z) (hProcess hThread : Z) (includeFirstChance : bool)
  : list Call :=
  if dumpOnCrash_ d && ((dwFirstChance =? 0) || includeFirstChance)
  then [GetThreadContext hThread;
        CreateMiniDumpFromException (dwProcessId ev) (dwThreadId ev) hProcess
          (dumpDirectory_ d)]
  else [].

(** The calls that handling an event makes: for a creation in every case,
    for any other event when both its ids are known ([hProcess], [hThread]
    are the handles the tables give); a lookup that fails throws before any
    call is made. *)
Definition event_calls (d : Debugger) (ev : DEBUG_EVENT) : list Call :=
  match u ev with
  | CREATE_PROCESS_DEBUG_EVENT hFile hProcess hThread =>
      match processHandles_ d !! dwProcessId ev with
      | None => [Handler_OnCreateProcess hProcess hThread; CloseHandle hFile]
      | Some _ => [CloseHandle hFile]
      end
  | CREATE_THREAD_DEBUG_EVENT _ => []
  | info =>
      match processHandles_ d !! dwProcessId ev,
            threadHandles_ d !! dwThreadId ev with
      | Some hProcess, Some hThread =>
          match info with
          | EXIT_PROCESS_DEBUG_EVENT dwExitCode =>
              [Handler_OnExitProcess hProcess hThread dwExitCode]
          | LOAD_DLL_DEBUG_EVENT hFile =>
              [Handler_OnLoadDll hProcess hThread hFile; CloseHandle hFile]
          | UNLOAD_DLL_DEBUG_EVENT => [Handler_OnUnloadDll hProcess hThread]
          | EXCEPTION_DEBUG_EVENT dwFirstChance ExceptionCode answer =>
              Handler_OnException hProcess hThread dwFirstChance ExceptionCode
              :: match answer with
                 | InvalidBreakPoint =>
                     dump_calls d ev dwFirstChance hProcess hThread true
                 | NotHandled | Error | CppError =>
                     dump_calls d ev dwFirstChance hProcess hThread false
                 | _ => []
                 end
          | _ => []
          end
      | _, _ => []
      end
  end.

(** The directive the loop gives [ContinueDebugEvent] for an event. *)
Definition continue_directive (d : Debugger) (ev : DEBUG_EVENT) : Z :=
  match u ev with
  | EXCEPTION_DEBUG_EVENT _ _ BreakPoint => DBG_CONTINUE
  | EXCEPTION_DEBUG_EVENT _ _ InvalidBreakPoint =>
      if stopOnAssert_ d then DBG_EXCEPTION_NOT_HANDLED else DBG_CONTINUE
  | EXCEPTION_DEBUG_EVENT _ _ CppError =>
      if continueAfterCppException_ d then DBG_CONTINUE
      else DBG_EXCEPTION_NOT_HANDLED
  | EXCEPTION_DEBUG_EVENT _ _ _ => DBG_EXCEPTION_NOT_HANDLED
  | _ => DBG_CONTINUE
  end.

(** The file handle an event carries and the debugger closes. *)
Definition file_handle_closed (d : Debugger) (ev : DEBUG_EVENT) : list Z :=
  match u ev with
  | CREATE_PROCESS_DEBUG_EVENT hFile _ _ => [hFile]
  | LOAD_DLL_DEBUG_EVENT hFile =>
      if bool_decide (is_Some (processHandles_ d !! dwProcessId ev)
                      ∧ is_Some (threadHandles_ d !! dwThreadId ev))
      then [hFile] else []
  | _ => []
  end.

(** The handle a creation event registers for its process, and for its
    thread. *)
Definition created_process_handle (ev : DEBUG_EVENT) : option Z :=
  match u ev with
  | CREATE_PROCESS_DEBUG_EVENT _ hProcess _ => Some hProcess
  | _ => None
  end.

Definition created_thread_handle (ev : DEBUG_EVENT) : option Z :=
  match u ev with
  | CREATE_PROCESS_DEBUG_EVENT _ _ hThread
  | CREATE_THREAD_DEBUG_EVENT hThread => Some hThread
  | _ => None
  end.

(** An event of [evs] has created [id] with the handle [h], and no later
    event has removed [id]. *)
Definition registered (key : DEBUG_EVENT → Z)
    (creates : DEBUG_EVENT → option Z) (removes : DEBUG_EVENT → bool)
    (id h : Z) (evs : list DEBUG_EVENT) : Prop :=
  ∃ pre ev post,
    evs = pre ++ ev :: post
    ∧ creates ev = Some h ∧ key ev = id
    ∧ ∀ ev', ev' ∈ post → ¬ (removes ev' = true ∧ key ev' = id).

(** The number of events of a sequence that satisfy [f]. *)
Definition count_events (f : DEBUG_EVENT → bool) (evs : list DEBUG_EVENT)
  : nat :=
  length (List.filter f evs).

End DebuggerTrace.

(** *** The constructors of the manager *)

Module CoverageFilterManagerMore.
Import CoverageFilterManager.

Section construction.
Context {F path : Type} `{Path path} `{UnifiedDiffCoverageFilter F path}.

(** [CoverageSettings] and [UnifiedDiffSettings] with its two getters, and
    the constructors of the wildcard filter and of a unified diff filter:
    all are defined outside these files. *)
Context {CoverageSettings UnifiedDiffSettings DiffPath RootFolder : Type}.
Variable GetUnifiedDiffPath : UnifiedDiffSettings → DiffPath.
Variable GetRootDiffFolder : UnifiedDiffSettings → RootFolder.
Variable new_WildcardCoverageFilter : CoverageSettings → WildcardCoverageFilter.
Variable new_UnifiedDiffCoverageFilter : DiffPath → RootFolder → F.

(** The loop of [ToUnifiedDiffCoverageFilters], with [emplace_back]. *)
Definition ToUnifiedDiffCoverageFilters
    (unifiedDiffSettingsCollection : list UnifiedDiffSettings) : list F :=
  foldl (λ unifiedDiffCoverageFilters unifiedDiffSettings,
           unifiedDiffCoverageFilters
           ++ [new_UnifiedDiffCoverageFilter
                 (GetUnifiedDiffPath unifiedDiffSettings)
                 (GetRootDiffFolder unifiedDiffSettings)])
        [] unifiedDiffSettingsCollection.

(** The two constructors of the manager. *)
Definition new_CoverageFilterManager_from_filters (settings : CoverageSettings)
    (unifiedDiffCoverageFilters : list F) : CoverageFilterManager (F:=F) :=
  {| wildcardCoverageFilter_ := new_WildcardCoverageFilter settings;
     unifiedDiffCoverageFilters_ := unifiedDiffCoverageFilters |}.

Definition new_CoverageFilterManager (settings : CoverageSettings)
    (unifiedDiffSettingsCollection : list UnifiedDiffSettings)
  : CoverageFilterManager (F:=F) :=
  new_CoverageFilterManager_from_filters settings
    (ToUnifiedDiffCoverageFilters unifiedDiffSettingsCollection).

(** The filters of [fs'] are those of [fs] after the query [q] has been put
    to them from the left, up to and including the first that accepts. *)
Definition asked_until_accept (q : F → bool * F) (fs fs' : list F) : Prop :=
  (∃ pre f post,
     fs = pre ++ f :: post
     ∧ Forall (λ g, fst (q g) = false) pre
     ∧ fst (q f) = true
     ∧ fs' = ((λ g, snd (q g)) <$> pre) ++ snd (q f) :: post)
  ∨ (Forall (λ g, fst (q g) = false) fs
     ∧ fs' = (λ g, snd (q g)) <$> fs).


End construction.
End CoverageFilterManagerMore.

(** ** Part VI.  More properties of the debug loop *)

Module DebuggerTraceFacts.
Import Debugger DebuggerFacts DebuggerTrace.

Lemma HandleDebugEvent_calls_made ev w :
  calls (snd (HandleDebugEvent ev w)) = calls w ++ event_calls (this w) ev.
Proof.
  destruct ev as [pid tid info], w as [d cs].
  unfold event_calls, dump_calls.
  destruct info; unfold_members; simpl;
    repeat (case_match; simplify_eq/=);
    rewrite <- ?app_assoc, ?app_nil_r; try done;
    destruct (dumpOnCrash_ d), (dwFirstChance =? 0); simpl in *; done.
Qed.

Lemma continue_directive_status ev w ps w' :
  HandleDebugEvent ev w = (Normal ps, w') →
  default DBG_CONTINUE (continueStatus_ ps) = continue_directive (this w) ev.
Proof.
  destruct ev as [pid tid info], w as [d cs]. unfold continue_directive.
  destruct info; unfold_members; simpl;
    intros; repeat (case_match; simplify_eq/=); done.
Qed.

Lemma continue_directive_configuration d d' ev :
  same_configuration d d' → continue_directive d ev = continue_directive d' ev.
Proof.
  intros (_ & Hc & Hs & _). unfold continue_directive. by rewrite Hc, Hs.
Qed.

Lemma Debug_iteration_calls_made ec ev c w :
  calls (snd (Debug_iteration ec (Deliver ev c) w))
  = calls w ++ event_calls (this w) ev
    ++ match fst (HandleDebugEvent ev w) with
       | Normal _ =>
           [ContinueDebugEvent (dwProcessId ev) (dwThreadId ev)
              (continue_directive (this w) ev)]
       | Throw _ => []
       end.
Proof.
  pose proof (HandleDebugEvent_calls_made ev w) as Hc.
  cbn [Debug_iteration]. unfold bind at 1.
  destruct (HandleDebugEvent ev w) as [[ps|e] w1] eqn:E; cbn [fst snd] in *.
  - apply continue_directive_status in E. rewrite <- E.
    unfold bind, ret, get_this, call, THROW_LAST_ERROR. cbn [this calls fst snd].
    destruct c; cbn [snd calls]; by rewrite Hc, <- app_assoc.
  - by rewrite app_nil_r.
Qed.

Lemma continued_event_calls d ev : continued (event_calls d ev) = [].
Proof.
  unfold event_calls, dump_calls, continued.
  destruct (u ev); repeat (case_match; simplify_eq/=); done.
Qed.

Lemma started_event_calls d ev : started (event_calls d ev) = [].
Proof.
  unfold event_calls, dump_calls, started.
  destruct (u ev); repeat (case_match; simplify_eq/=); done.
Qed.

Lemma closed_event_calls d ev :
  closed (event_calls d ev) = file_handle_closed d ev.
Proof.
  unfold event_calls, dump_calls, closed, file_handle_closed.
  destruct (u ev); repeat (case_match; simplify_eq/=); try done;
    try (rewrite bool_decide_true by eauto; done);
    try (rewrite bool_decide_false; [done|]; intros [[? ?] [? ?]]; congruence).
Qed.

Lemma Debug_handled_snoc_calls steps step w ec' w' :
  Debug_handled (steps ++ [step]) w = Some (ec', w') →
  ∃ ec1 w1 ev,
    Debug_handled steps w = Some (ec1, w1)
    ∧ step = Deliver ev None
    ∧ ¬ violates (this w1) ev
    ∧ same_configuration (this w) (this w1)
    ∧ calls w' = calls w1 ++ event_calls (this w1) ev
                 ++ [ContinueDebugEvent (dwProcessId ev) (dwThreadId ev)
                       (continue_directive (this w) ev)].
Proof.
  unfold Debug_handled. rewrite Debug_steps_app.
  destruct (Debug_steps None steps _) as [[ec1 w1]|] eqn:Hs; [|done]. simpl.
  destruct (loop_condition ec1 (this w1)) eqn:C; [|done].
  destruct (Debug_iteration ec1 step w1) as [[ec2|e] w2] eqn:E; [|done].
  intros; simplify_eq.
  pose proof (Debug_iteration_Normal _ _ _ _ _ E)
    as (ev & ps & w2 & -> & E' & _ & _).
  pose proof (Debug_iteration_calls_made ec1 ev None w1) as Hc.
  rewrite E in Hc. rewrite E' in Hc. cbn [fst snd] in Hc.
  apply (tables_after_handled w) in Hs as (Hcfg & _).
  exists ec1, w1, ev. split; [done|]. split; [done|]. split.
  { by apply HandleDebugEvent_Normal in E' as (_ & _ & _ & _ & _ & ?). }
  split; [done|].
  by rewrite (continue_directive_configuration _ _ ev Hcfg).
Qed.

(** X1.  For the events the loop has handled, [ContinueDebugEvent] has been
    called exactly once per event, in the order of the events, with the
    process id and the thread id of the event; the directive is
    DBG_EXCEPTION_NOT_HANDLED for an exception classified NotHandled or
    Error, InvalidBreakPoint with [stopOnAssert] on, or CppError with
    [continueAfterCppException] off, and DBG_CONTINUE for every other
    event. *)
Theorem every_event_continued_once w steps ec w' :
  Debug_handled steps w = Some (ec, w') →
  continued (calls w')
  = continued (calls w)
    ++ ((λ ev, (dwProcessId ev, dwThreadId ev, continue_directive (this w) ev))
          <$> events steps).
Proof.
  revert ec w'. induction steps as [|step steps IH] using rev_ind;
    intros ec w'.
  - rewrite Debug_handled_nil, Debug_start_eq. intros; simplify_eq. simpl.
    unfold continued. rewrite omap_app. simpl. by rewrite !app_nil_r.
  - intros H. apply Debug_handled_snoc_calls in H
      as (ec1 & w1 & ev & Hs & -> & _ & _ & ->).
    rewrite events_snoc, fmap_app. unfold continued in *.
    rewrite !omap_app. fold (continued (event_calls (this w1) ev)).
    rewrite continued_event_calls, (IH _ _ Hs). simpl.
    by rewrite <- app_assoc.
Qed.

Lemma every_event_continued_once_witness :
  Debug_handled one_process_script default_world
  = Some (None, one_process_world)
  ∧ continued (calls one_process_world)
    = continued (calls default_world)
      ++ ((λ ev, (dwProcessId ev, dwThreadId ev,
                  continue_directive (this default_world) ev))
            <$> events one_process_script).
Proof.
  split; [by vm_compute|].
  apply (every_event_continued_once default_world one_process_script None
           one_process_world).
  by vm_compute.
Defined.

(** X2.  For the events the loop has handled, the handles closed are the
    file handles of the CREATE_PROCESS and LOAD_DLL events, each once, in the
    order of the events; no process or thread handle is closed. *)
Theorem file_handles_closed_once w steps ec w' :
  Debug_handled steps w = Some (ec, w') →
  closed (calls w')
  = closed (calls w)
    ++ (events steps ≫= λ ev,
          match u ev with
          | CREATE_PROCESS_DEBUG_EVENT hFile _ _
          | LOAD_DLL_DEBUG_EVENT hFile => [hFile]
          | _ => []
          end).
Proof.
  revert ec w'. induction steps as [|step steps IH] using rev_ind;
    intros ec w'.
  - rewrite Debug_handled_nil, Debug_start_eq. intros; simplify_eq. simpl.
    unfold closed. rewrite omap_app. simpl. by rewrite !app_nil_r.
  - intros H. apply Debug_handled_snoc_calls in H
      as (ec1 & w1 & ev & Hs & -> & Hnv & _ & ->).
    rewrite events_snoc, bind_app. unfold closed in *.
    rewrite !omap_app. fold (closed (event_calls (this w1) ev)).
    rewrite closed_event_calls, (IH _ _ Hs). simpl.
    rewrite <- !app_assoc. do 2 f_equal. rewrite !app_nil_r.
    unfold file_handle_closed, violates in *.
    destruct (u ev); try done.
    rewrite bool_decide_true; [done|].
    split; apply not_eq_None_Some; tauto.
Qed.

Lemma file_handles_closed_once_witness :
  Debug_handled one_process_script default_world
  = Some (None, one_process_world)
  ∧ closed (calls one_process_world)
    = closed (calls default_world)
      ++ (events one_process_script ≫= λ ev,
            match u ev with
            | CREATE_PROCESS_DEBUG_EVENT hFile _ _
            | LOAD_DLL_DEBUG_EVENT hFile => [hFile]
            | _ => []
            end).
Proof.
  split; [by vm_compute|].
  apply (file_handles_closed_once default_world one_process_script None
           one_process_world).
  by vm_compute.
Defined.

(** X3.  Handling one event closes the file handle of a CREATE_PROCESS
    event on every path, a throw included; it closes the file handle of a
    LOAD_DLL event only when the process id and the thread id are in the
    tables (the lookup throws before the scoped release is set up); it
    closes nothing for any other event. *)
Theorem file_handle_released_on_every_path ev w :
  closed (calls (snd (HandleDebugEvent ev w)))
  = closed (calls w)
    ++ match u ev with
       | CREATE_PROCESS_DEBUG_EVENT hFile _ _ => [hFile]
       | LOAD_DLL_DEBUG_EVENT hFile =>
           if bool_decide (is_Some (processHandles_ (this w) !! dwProcessId ev)
                           ∧ is_Some (threadHandles_ (this w) !! dwThreadId ev))
           then [hFile] else []
       | _ => []
       end.
Proof.
  rewrite HandleDebugEvent_calls_made. unfold closed. rewrite omap_app.
  fold (closed (event_calls (this w) ev)). by rewrite closed_event_calls.
Qed.

Section registration.
Context (key : DEBUG_EVENT → Z) (creates : DEBUG_EVENT → option Z)
        (removes : DEBUG_EVENT → bool).

Lemma registered_nil id h : ¬ registered key creates removes id h [].
Proof. intros (pre & ev & post & H & _). by destruct pre. Qed.

Lemma registered_snoc id h evs ev :
  registered key creates removes id h (evs ++ [ev])
  ↔ (creates ev = Some h ∧ key ev = id)
    ∨ (registered key creates removes id h evs
       ∧ ¬ (removes ev = true ∧ key ev = id)).
Proof.
  split.
  - intros (pre & e & post & Heq & Hc & Hk & Hpost).
    destruct post as [|p post _] using rev_ind.
    + apply app_inj_tail in Heq as [-> ->]. by left.
    + rewrite app_comm_cons, app_assoc in Heq.
      apply app_inj_tail in Heq as [-> ->]. right. split.
      * exists pre, e, post. repeat split; try done.
        intros ev' Hin. apply Hpost. set_solver.
      * apply Hpost. set_solver.
  - intros [[Hc Hk]|[(pre & e & post & -> & Hc & Hk & Hpost) Hr]].
    + exists evs, ev, []. repeat split; try done. set_solver.
    + exists pre, e, (post ++ [ev]). rewrite <- app_assoc.
      repeat split; try done.
      intros ev' [Hin| ->%list_elem_of_singleton]%elem_of_app; auto.
Qed.
End registration.

(** X4.  After the loop has handled a sequence of events, the process table
    maps a process id to a handle exactly when a CREATE_PROCESS event gave
    that handle for the id and no EXIT_PROCESS event of the id came later;
    likewise the thread table, for the handle given by CREATE_THREAD or by
    CREATE_PROCESS (the initial thread) and removal by EXIT_THREAD or
    EXIT_PROCESS.  So the handles looked up for a later event are those of
    the creation. *)
Theorem handle_tables_hold_creation_handles w steps ec w' :
  Debug_handled steps w = Some (ec, w') →
  (∀ pid h, processHandles_ (this w') !! pid = Some h
      ↔ registered dwProcessId created_process_handle is_exit_process
          pid h (events steps))
  ∧ (∀ tid h, threadHandles_ (this w') !! tid = Some h
      ↔ registered dwThreadId created_thread_handle is_exit_thread
          tid h (events steps)).
Proof.
  revert steps ec w'.
  apply (Debug_handled_ind w (λ evs _ d,
    (∀ pid h, processHandles_ d !! pid = Some h
        ↔ registered dwProcessId created_process_handle is_exit_process
            pid h evs)
    ∧ (∀ tid h, threadHandles_ d !! tid = Some h
        ↔ registered dwThreadId created_thread_handle is_exit_thread
            tid h evs))).
  - simpl. split; intros id h; rewrite lookup_empty;
      (split; [done|by intros ?%registered_nil]).
  - intros steps ec w1 ev ps w2 _ (Hp & Ht) _ E.
    apply HandleDebugEvent_Normal in E as (_ & _ & Ep & Et & _ & Hnv).
    unfold violates in Hnv. split.
    + intros pid h. rewrite registered_snoc, <- Hp, Ep.
      clear Hp Ht Ep Et. unfold created_process_handle, is_exit_process.
      destruct (u ev); rewrite ?lookup_insert_Some, ?lookup_delete_Some;
        try (intuition congruence).
      split; [intuition congruence|].
      intros [[? ?]|[Hl _]]; simplify_eq; [left; by split|].
      destruct (decide (dwProcessId ev = pid)) as [Heq|]; [|right; by split].
      exfalso. apply Hnv. left. rewrite Heq. eauto.
    + intros tid h. rewrite registered_snoc, <- Ht, Et.
      clear Hp Ht Ep Et. unfold created_thread_handle, is_exit_thread.
      destruct (u ev); rewrite ?lookup_insert_Some, ?lookup_delete_Some;
        try (intuition congruence).
      * split; [intuition congruence|].
        intros [[? ?]|[Hl _]]; simplify_eq; [left; by split|].
        destruct (decide (dwThreadId ev = tid)) as [Heq|]; [|right; by split].
        exfalso. apply Hnv. right. rewrite Heq. eauto.
      * split; [intuition congruence|].
        intros [[? ?]|[Hl _]]; simplify_eq; [left; by split|].
        destruct (decide (dwThreadId ev = tid)) as [Heq|]; [|right; by split].
        exfalso. apply Hnv. rewrite Heq. eauto.
Qed.

Lemma handle_tables_hold_creation_handles_witness :
  Debug_handled one_process_script default_world
  = Some (None, one_process_world)
  ∧ (∀ pid h, processHandles_ (this one_process_world) !! pid = Some h
        ↔ registered dwProcessId created_process_handle is_exit_process
            pid h (events one_process_script))
  ∧ (∀ tid h, threadHandles_ (this one_process_world) !! tid = Some h
        ↔ registered dwThreadId created_thread_handle is_exit_thread
            tid h (events one_process_script)).
Proof.
  split; [by vm_compute|].
  apply (handle_tables_hold_creation_handles default_world one_process_script
           None one_process_world).
  by vm_compute.
Defined.

Lemma count_events_snoc f evs ev :
  count_events f (evs ++ [ev])
  = (count_events f evs + if f ev then 1 else 0)%nat.
Proof.
  unfold count_events. rewrite List.filter_app, length_app. simpl.
  by destruct (f ev).
Qed.

(** X5.  After the loop has handled a sequence of events,
    [GetRunningProcesses] is the number of CREATE_PROCESS events minus the
    number of EXIT_PROCESS events, and [GetRunningThreads] the number of
    creations of a thread (CREATE_THREAD, CREATE_PROCESS) minus the number
    of removals (EXIT_THREAD, EXIT_PROCESS). *)
Theorem running_counts w steps ec w' :
  Debug_handled steps w = Some (ec, w') →
  (GetRunningProcesses (this w') + count_events is_exit_process (events steps)
   = count_events is_create_process (events steps))%nat
  ∧ (GetRunningThreads (this w') + count_events is_exit_thread (events steps)
     = count_events is_create_thread (events steps))%nat.
Proof.
  revert steps ec w'.
  apply (Debug_handled_ind w (λ evs _ d,
    (GetRunningProcesses d + count_events is_exit_process evs
     = count_events is_create_process evs)%nat
    ∧ (GetRunningThreads d + count_events is_exit_thread evs
       = count_events is_create_thread evs)%nat)).
  - done.
  - intros steps ec w1 ev ps w2 _ (Hp & Ht) _ E.
    apply HandleDebugEvent_Normal in E as (_ & _ & Ep & Et & _ & Hnv).
    unfold violates in Hnv. rewrite !count_events_snoc.
    unfold GetRunningProcesses, GetRunningThreads in *. rewrite Ep, Et.
    set (ep := count_events is_exit_process (events steps)) in *.
    set (cp := count_events is_create_process (events steps)) in *.
    set (et := count_events is_exit_thread (events steps)) in *.
    set (ct := count_events is_create_thread (events steps)) in *.
    unfold is_create_process, is_exit_process, is_create_thread,
      is_exit_thread.
    assert (Hin : ∀ (m : gmap Z Z) i, m !! i ≠ None → size m ≠ 0%nat).
    { intros m i Hi. apply (map_size_ne_0_lookup_2 m i).
      by apply not_eq_None_Some. }
    assert (Hnone : ∀ (m : gmap Z Z) i, ¬ is_Some (m !! i) → m !! i = None).
    { intros m i. apply eq_None_not_Some. }
    destruct (u ev); simpl; try (split; lia).
    + rewrite !map_size_insert_None by (apply Hnone; tauto). split; lia.
    + rewrite !map_size_insert_None by (by apply Hnone). split; lia.
    + assert (processHandles_ (this w1) !! dwProcessId ev ≠ None) by tauto.
      assert (threadHandles_ (this w1) !! dwThreadId ev ≠ None) by tauto.
      rewrite !map_size_delete_Some by (by apply not_eq_None_Some).
      pose proof (Hin _ _ H). pose proof (Hin _ _ H0). split; lia.
    + assert (threadHandles_ (this w1) !! dwThreadId ev ≠ None) by tauto.
      rewrite !map_size_delete_Some by (by apply not_eq_None_Some).
      pose proof (Hin _ _ H). split; lia.
Qed.

Lemma running_counts_witness :
  Debug_handled one_process_script default_world
  = Some (None, one_process_world)
  ∧ (GetRunningProcesses (this one_process_world)
     + count_events is_exit_process (events one_process_script)
     = count_events is_create_process (events one_process_script))%nat
  ∧ (GetRunningThreads (this one_process_world)
     + count_events is_exit_thread (events one_process_script)
     = count_events is_create_thread (events one_process_script))%nat.
Proof.
  split; [by vm_compute|].
  apply (running_counts default_world one_process_script None
           one_process_world).
  by vm_compute.
Defined.

(** X6.  An exception event of a known process and thread: the handler is
    asked first; BreakPoint gives DBG_CONTINUE, no exit code and no dump;
    NotHandled and Error give DBG_EXCEPTION_NOT_HANDLED and no exit code;
    CppError gives DBG_CONTINUE with the exception code as exit code when
    [continueAfterCppException] is on, else DBG_EXCEPTION_NOT_HANDLED; for
    these three the minidump is written iff [dumpOnCrash] is on and the
    exception is not first-chance, while InvalidBreakPoint writes it on the
    first chance too.  An answer outside the enumeration throws after the
    handler was asked.  The object is never changed. *)
Theorem exception_policy w pid tid hProcess hThread dwFirstChance
    ExceptionCode answer :
  processHandles_ (this w) !! pid = Some hProcess →
  threadHandles_ (this w) !! tid = Some hThread →
  let ev := {| dwProcessId := pid; dwThreadId := tid;
               u := EXCEPTION_DEBUG_EVENT dwFirstChance ExceptionCode
                      answer |} in
  let minidump :=
    [GetThreadContext hThread;
     CreateMiniDumpFromException pid tid hProcess (dumpDirectory_ (this w))] in
  let asked :=
    calls w ++ [Handler_OnException hProcess hThread dwFirstChance
                  ExceptionCode] in
  let second_chance_dump :=
    if dumpOnCrash_ (this w) && (dwFirstChance =? 0) then minidump else [] in
  let not_handled :=
    {| exitCode_ := None;
       continueStatus_ := Some DBG_EXCEPTION_NOT_HANDLED |} in
  HandleDebugEvent ev w =
    match answer with
    | BreakPoint =>
        (Normal {| exitCode_ := None; continueStatus_ := Some DBG_CONTINUE |},
         {| this := this w; calls := asked |})
    | InvalidBreakPoint =>
        (Normal (if stopOnAssert_ (this w) then not_handled
                 else {| exitCode_ := Some (to_int EXCEPTION_BREAKPOINT);
                         continueStatus_ := Some DBG_CONTINUE |}),
         {| this := this w;
            calls := asked ++ if dumpOnCrash_ (this w) then minidump
                              else [] |})
    | NotHandled | Error =>
        (Normal not_handled,
         {| this := this w; calls := asked ++ second_chance_dump |})
    | CppError =>
        (Normal (if continueAfterCppException_ (this w)
                 then {| exitCode_ := Some (to_int ExceptionCode);
                         continueStatus_ := Some DBG_CONTINUE |}
                 else not_handled),
         {| this := this w; calls := asked ++ second_chance_dump |})
    | OutOfEnum _ =>
        (Throw (CppCoverageException "Invalid exception Type."),
         {| this := this w; calls := asked |})
    end.
Proof.
  intros Hp Ht ev minidump asked second_chance_dump not_handled.
  subst ev minidump asked second_chance_dump not_handled.
  destruct w as [d cs]. simpl in *.
  unfold_members. simpl. rewrite Hp. simpl. rewrite Ht. simpl.
  destruct answer; simpl; try done;
    destruct (dumpOnCrash_ d), (dwFirstChance =? 0); simpl;
    repeat case_match; simpl; rewrite <- ?app_assoc, ?app_nil_r; done.
Qed.

Lemma exception_policy_witness :
  processHandles_ (this one_process_world) !! 100 = Some 12
  ∧ threadHandles_ (this one_process_world) !! 1 = Some 13
  ∧ HandleDebugEvent
      {| dwProcessId := 100; dwThreadId := 1;
         u := EXCEPTION_DEBUG_EVENT 0 5 NotHandled |} one_process_world
    = (Normal {| exitCode_ := None;
                 continueStatus_ := Some DBG_EXCEPTION_NOT_HANDLED |},
       {| this := this one_process_world;
          calls := (calls one_process_world
                    ++ [Handler_OnException 12 13 0 5])
                   ++ if dumpOnCrash_ (this one_process_world) && (0 =? 0)
                      then [GetThreadContext 13;
                            CreateMiniDumpFromException 100 1 12
                              (dumpDirectory_ (this one_process_world))]
                      else [] |}).
Proof.
  split; [by vm_compute|]. split; [by vm_compute|].
  apply (exception_policy one_process_world 100 1 12 13 0 5 NotHandled);
    by vm_compute.
Defined.

Lemma first_create_process_Some evs pid :
  first_create_process evs = Some pid →
  ∃ pre create post,
    evs = pre ++ create :: post
    ∧ first_create_process pre = None
    ∧ is_create_process create = true
    ∧ dwProcessId create = pid.
Proof.
  induction evs as [|e evs IH]; simpl; [done|].
  destruct (is_create_process e) eqn:C.
  - intros; simplify_eq. by exists [], e, evs.
  - intros (pre & create & post & -> & Hn & Hc & Hp)%IH.
    exists (e :: pre), create, post. simpl. by rewrite C.
Qed.

Lemma exit_after pid (post : list DEBUG_EVENT) :
  (∀ ev, ev ∈ post → ¬ (is_exit_process ev = true ∧ dwProcessId ev = pid))
  ∨ ∃ mid exit post',
      post = mid ++ exit :: post'
      ∧ is_exit_process exit = true ∧ dwProcessId exit = pid.
Proof.
  induction post as [|e post IH].
  - left. by intros ev ?%elem_of_nil.
  - destruct (is_exit_process e) eqn:X,
             (decide (dwProcessId e = pid)) as [Hp|Hp].
    + right. by exists [], e, post.
    + destruct IH as [IH|(mid & x & post' & -> & ? & ?)].
      * left. intros ev [->|?]%elem_of_cons; [tauto|by apply IH].
      * right. by exists (e :: mid), x, post'.
    + destruct IH as [IH|(mid & x & post' & -> & ? & ?)].
      * left. intros ev [->|?]%elem_of_cons; [|by apply IH].
        intros [? _]. congruence.
      * right. by exists (e :: mid), x, post'.
    + destruct IH as [IH|(mid & x & post' & -> & ? & ?)].
      * left. intros ev [->|?]%elem_of_cons; [tauto|by apply IH].
      * right. by exists (e :: mid), x, post'.
Qed.

(** X7.  When [Debug] returns, the process table is empty and the events
    delivered contain the first CREATE_PROCESS event and, after it, an
    EXIT_PROCESS event of the same process: [Debug] never returns before
    the root process has been created and has exited. *)
Theorem Debug_returns_after_root_exit script w r w' :
  Debug script w = (Returned r, w') →
  processHandles_ (this w') = ∅
  ∧ ∃ pre create mid exit post,
      events script = pre ++ create :: mid ++ exit :: post
      ∧ first_create_process pre = None
      ∧ is_create_process create = true
      ∧ is_exit_process exit = true
      ∧ dwProcessId exit = dwProcessId create.
Proof.
  unfold Debug. rewrite Debug_start_eq. intros H.
  apply Debug_loop_steps in H
    as (steps & rest & ec1 & w1 & -> & Hs & C & -> & ->).
  assert (He : processHandles_ (this w1) = ∅).
  { unfold loop_condition in C. rewrite bool_decide_true in C by eauto.
    simpl in C. apply negb_false_iff in C. by apply bool_decide_eq_true in C. }
  split; [done|].
  pose proof (tables_after_handled w _ _ _ Hs) as (_ & Hp & _).
  apply (root_and_latch_after_handled w) in Hs
    as (_ & _ & pre0 & ev & post0 & _ & Hf & _).
  apply first_create_process_Some in Hf
    as (pre & create & post & Heq & Hn & Hc & Hpid).
  destruct (exit_after (dwProcessId create) post)
    as [Hno|(mid & exit & post' & -> & Hx & Hxp)].
  - exfalso. specialize (Hp (dwProcessId create)).
    rewrite He, lookup_empty in Hp. apply (is_Some_None (A:=Z)), Hp.
    exists pre, create, post. done.
  - exists pre, create, mid, exit, (post' ++ events rest).
    rewrite events_app, Heq, <- !app_assoc. simpl. by rewrite <- app_assoc.
Qed.

Lemma Debug_returns_after_root_exit_witness :
  Debug (exits_in_order 1 2 11 12 13 21 22 23) default_world
  = (Returned 7, snd (Debug (exits_in_order 1 2 11 12 13 21 22 23)
                        default_world))
  ∧ processHandles_
      (this (snd (Debug (exits_in_order 1 2 11 12 13 21 22 23)
                    default_world))) = ∅
  ∧ ∃ pre create mid exit post,
      events (exits_in_order 1 2 11 12 13 21 22 23)
      = pre ++ create :: mid ++ exit :: post
      ∧ first_create_process pre = None
      ∧ is_create_process create = true
      ∧ is_exit_process exit = true
      ∧ dwProcessId exit = dwProcessId create.
Proof.
  split; [by vm_compute|].
  apply (Debug_returns_after_root_exit
           (exits_in_order 1 2 11 12 13 21 22 23) default_world 7).
  by vm_compute.
Defined.

(** X8.  [Debug] ends with an exception in four ways and no other.
    [Process::Start] throws: the exception leaves [Debug] before the tables
    are cleared, and the object is as it was.  With the loop still running,
    [WaitForDebugEvent] fails: a last-error exception, message "Error
    WaitForDebugEvent:".  Handling the event throws: that exception.  The
    event is handled and [ContinueDebugEvent], called once with the status
    of the event, fails: a last-error exception, message "Error in
    ContinueDebugEvent:". *)
Theorem Debug_throws_in_four_ways callees script w e w' :
  ThrowingCallees.Debug callees script w = (Thrown e, w')
  ↔ (let start := Process_Start (if coverChildren_ (this w) then DEBUG_PROCESS
                                 else DEBUG_ONLY_THIS_PROCESS) in
     callees (calls w) start = Some e
     ∧ w' = {| this := this w; calls := calls w ++ [start] |})
    ∨ ∃ steps rest ec w1,
        ThrowingCallees.Debug_handled callees steps w = Some (ec, w1)
        ∧ loop_condition ec (this w1) = true
        ∧ ((∃ lastError,
              script = steps ++ WaitFails lastError :: rest
              ∧ e = LastErrorException "Error WaitForDebugEvent:" lastError
              ∧ w' = w1)
           ∨ (∃ ev c,
                script = steps ++ Deliver ev c :: rest
                ∧ ThrowingCallees.HandleDebugEvent callees ev w1
                  = (Throw e, w'))
           ∨ (∃ ev lastError ps w2,
                script = steps ++ Deliver ev (Some lastError) :: rest
                ∧ ThrowingCallees.HandleDebugEvent callees ev w1
                  = (Normal ps, w2)
                ∧ e = LastErrorException "Error in ContinueDebugEvent:"
                        lastError
                ∧ w' = {| this := this w2;
                          calls := calls w2
                            ++ [ContinueDebugEvent (dwProcessId ev)
                                  (dwThreadId ev)
                                  (default DBG_CONTINUE
                                     (continueStatus_ ps))] |})).
Proof.
  unfold ThrowingCallees.Debug, ThrowingCallees.Debug_handled.
  rewrite Debug_start_callees. cbn zeta.
  destruct (callees (calls w) _) as [e0|] eqn:S.
  - split.
    + intros; simplify_eq. by left.
    + intros [[? ?]|(? & ? & ? & ? & ? & _)]; by simplify_eq.
  - rewrite Debug_start_eq. split.
    + intros H. right.
      apply Debug_loop_Thrown_steps in H
        as (steps & step & rest & ec1 & w1 & -> & Hs & C & E).
      exists steps, rest, ec1, w1. split; [done|]. split; [done|].
      apply Debug_iteration_Throw_callees in E
        as [(err & -> & -> & ->)|[(ev & c & -> & E)
            |(ev & err & ps & w2 & -> & E & -> & ->)]]; eauto 10.
    + intros [[? _]|(steps & rest & ec & w1 & Hs & C & H)]; [done|].
      destruct H as [(err & -> & -> & ->)|[(ev & c & -> & E)
            |(ev & err & ps & w2 & -> & E & -> & ->)]];
        (eapply Debug_loop_Thrown_callees; [done..|]);
        apply Debug_iteration_Throw_callees; eauto 10.
Qed.

Lemma HandleDebugEvent_not_continued callees ev w :
  continued (calls (snd (ThrowingCallees.HandleDebugEvent callees ev w)))
  = continued (calls w).
Proof.
  destruct ev as [pid tid info], w as [d cs]. unfold continued.
  destruct info; unfold_throwing; simpl;
    repeat (case_match; simplify_eq/=);
    rewrite ?omap_app; simpl; by rewrite ?app_nil_r.
Qed.

(** X9.  When handling an event throws, the iteration throws the same
    exception without calling [ContinueDebugEvent], and the writes made to
    the object before the throw stay.  A CREATE_PROCESS event with a new
    process id has registered the process, and the root process id if it is
    the first, when the handler's [OnCreateProcess] throws or the thread id
    turns out to be in the thread table already.  An EXIT_PROCESS event of a
    known process and thread has removed the thread, and not the process,
    when the handler's [OnExitProcess] throws.  In every other case the
    object is as it was before the event. *)
Theorem throw_in_handling_keeps_writes callees ec ev c w e w' :
  ThrowingCallees.HandleDebugEvent callees ev w = (Throw e, w') →
  ThrowingCallees.Debug_iteration callees ec (Deliver ev c) w = (Throw e, w')
  ∧ continued (calls w') = continued (calls w)
  ∧ this w' =
      match u ev, processHandles_ (this w) !! dwProcessId ev,
            threadHandles_ (this w) !! dwThreadId ev with
      | CREATE_PROCESS_DEBUG_EVENT _ hProcess _, None, _ =>
          set_processHandles <[dwProcessId ev := hProcess]>
            (if bool_decide (rootProcessId_ (this w) = None)
                && bool_decide (processHandles_ (this w) = ∅)
             then set_rootProcessId (Some (dwProcessId ev)) (this w)
             else this w)
      | EXIT_PROCESS_DEBUG_EVENT _, Some _, Some _ =>
          set_threadHandles (delete (dwThreadId ev)) (this w)
      | _, _, _ => this w
      end.
Proof.
  intros E. split; [|split].
  - cbn [ThrowingCallees.Debug_iteration]. unfold bind at 1. by rewrite E.
  - pose proof (HandleDebugEvent_not_continued callees ev w) as Hc.
    by rewrite E in Hc.
  - destruct ev as [pid tid info], w as [d cs]. revert E.
    destruct info; unfold_throwing; simpl;
      intros; repeat (case_match; simplify_eq/=); try done;
      try (by destruct d).
    all: match goal with
         | He : _ && bool_decide (processHandles_ ?d = ∅) = true,
           Hl : processHandles_ ?d !! _ = Some _ |- _ =>
             apply andb_prop in He as [_ He]; apply bool_decide_eq_true in He;
             by rewrite He, lookup_empty in Hl
         end.
Qed.

Lemma throw_in_handling_keeps_writes_witness :
  let callees :=
    ThrowingCallees.OnExitProcess_throws (CppCoverageException "handler") in
  let ev := {| dwProcessId := 100; dwThreadId := 1;
               u := EXIT_PROCESS_DEBUG_EVENT 7 |} in
  let e := CppCoverageException "handler" in
  let w' := snd (ThrowingCallees.HandleDebugEvent callees ev
                   one_process_world) in
  ThrowingCallees.HandleDebugEvent callees ev one_process_world
  = (Throw e, w')
  ∧ ThrowingCallees.Debug_iteration callees None (Deliver ev None)
      one_process_world = (Throw e, w')
  ∧ continued (calls w') = continued (calls one_process_world)
  ∧ this w' =
      match u ev, processHandles_ (this one_process_world) !! dwProcessId ev,
            threadHandles_ (this one_process_world) !! dwThreadId ev with
      | CREATE_PROCESS_DEBUG_EVENT _ hProcess _, None, _ =>
          set_processHandles <[dwProcessId ev := hProcess]>
            (if bool_decide (rootProcessId_ (this one_process_world) = None)
                && bool_decide (processHandles_ (this one_process_world) = ∅)
             then set_rootProcessId (Some (dwProcessId ev))
                    (this one_process_world)
             else this one_process_world)
      | EXIT_PROCESS_DEBUG_EVENT _, Some _, Some _ =>
          set_threadHandles (delete (dwThreadId ev)) (this one_process_world)
      | _, _, _ => this one_process_world
      end.
Proof.
  intros callees ev e w'. split; [by vm_compute|].
  apply (throw_in_handling_keeps_writes callees None ev None
           one_process_world e w').
  by vm_compute.
Defined.

(** The handler's [OnExitProcess] throws for the exit of the only process:
    the thread is gone from the thread table, the process is still in the
    process table, and the exception leaves [Debug]. *)
Example OnExitProcess_throws_leaves_the_process :
  let callees :=
    ThrowingCallees.OnExitProcess_throws (CppCoverageException "handler") in
  let out :=
    ThrowingCallees.Debug callees
      [create_process 100 1 11 12 13; exit_process 100 1 7] default_world in
  fst out = Thrown (CppCoverageException "handler")
  ∧ processHandles_ (this (snd out)) !! 100 = Some 12
  ∧ threadHandles_ (this (snd out)) !! 1 = None
  ∧ rootProcessId_ (this (snd out)) = Some 100.
Proof. repeat split; by vm_compute. Qed.

(** The handler's [OnCreateProcess] throws for the first process: the
    process is in the process table and is the root, its initial thread is
    not in the thread table, and the file handle has been closed. *)
Example OnCreateProcess_throws_leaves_the_process :
  let callees :=
    ThrowingCallees.OnCreateProcess_throws (CppCoverageException "handler") in
  let out :=
    ThrowingCallees.Debug callees [create_process 100 1 11 12 13]
      default_world in
  fst out = Thrown (CppCoverageException "handler")
  ∧ processHandles_ (this (snd out)) !! 100 = Some 12
  ∧ threadHandles_ (this (snd out)) !! 1 = None
  ∧ rootProcessId_ (this (snd out)) = Some 100
  ∧ calls (snd out)
    = [Process_Start DEBUG_PROCESS; Handler_OnCreateProcess 12 13;
       CloseHandle 11].
Proof. repeat split; by vm_compute. Qed.

Lemma Debug_loop_started script ec w :
  started (calls (snd (Debug_loop ec script w))) = started (calls w).
Proof.
  revert ec w. induction script as [|step script IH]; intros ec w; simpl.
  - by destruct (loop_condition ec (this w)).
  - destruct (loop_condition ec (this w)); [|done].
    assert (Hs : started (calls (snd (Debug_iteration ec step w)))
                 = started (calls w)).
    { destruct step as [err|ev c]; [done|].
      rewrite Debug_iteration_calls_made. unfold started.
      rewrite !omap_app. fold (started (event_calls (this w) ev)).
      rewrite started_event_calls.
      destruct (fst (HandleDebugEvent ev w)); simpl; by rewrite app_nil_r. }
    destruct (Debug_iteration ec step w) as [[ec1|e] w1]; simpl in *;
      [by rewrite IH|done].
Qed.

Lemma Debug_loop_calls_extend script ec w :
  ∃ rest, calls (snd (Debug_loop ec script w)) = calls w ++ rest.
Proof.
  revert ec w. induction script as [|step script IH]; intros ec w; simpl.
  - exists []. rewrite app_nil_r. by destruct (loop_condition ec (this w)).
  - destruct (loop_condition ec (this w)); [|exists []; by rewrite app_nil_r].
    assert (Hs : ∃ rest, calls (snd (Debug_iteration ec step w))
                         = calls w ++ rest).
    { destruct step as [err|ev c]; [exists []; by rewrite app_nil_r|].
      rewrite Debug_iteration_calls_made. eauto. }
    destruct Hs as [rest1 Hs].
    destruct (Debug_iteration ec step w) as [[ec1|e] w1]; simpl in *; [|eauto].
    destruct (IH ec1 w1) as [rest2 ->]. rewrite Hs, <- app_assoc. eauto.
Qed.

(** X10.  [Debug] starts the target exactly once, as its first call, with
    DEBUG_PROCESS when [coverChildren] is on and DEBUG_ONLY_THIS_PROCESS
    otherwise. *)
Theorem target_started_once script w :
  started (calls (snd (Debug script w)))
  = started (calls w)
    ++ [if coverChildren_ (this w) then DEBUG_PROCESS
        else DEBUG_ONLY_THIS_PROCESS]
  ∧ ∃ rest,
      calls (snd (Debug script w))
      = calls w
        ++ Process_Start (if coverChildren_ (this w) then DEBUG_PROCESS
                          else DEBUG_ONLY_THIS_PROCESS) :: rest.
Proof.
  unfold Debug. rewrite Debug_start_eq. split.
  - rewrite Debug_loop_started. simpl. unfold started. by rewrite omap_app.
  - match goal with
    | |- context [Debug_loop None script ?w0] =>
        destruct (Debug_loop_calls_extend script None w0) as [rest ->]
    end.
    simpl. exists rest. by rewrite <- app_assoc.
Qed.

End DebuggerTraceFacts.

(** ** Part VII.  More properties of the coverage filter manager *)

Module CoverageFilterManagerMoreFacts.
Import CoverageFilterManager CoverageFilterManagerFacts CoverageFilterManagerMore.

Section more_facts.
Context {F path : Type} `{Path path} `{UnifiedDiffCoverageFilter F path}.
Variable GetSeparatorLine : wstring.
Variable VerboseOption : string.

Lemma nearest_line_facts (n : Z) (s : list Z) :
  StronglySorted Z.lt s →
  (∀ y, GetExecutableLineOrPreviousOne n s = Some y
        ↔ y ∈ s ∧ y ≤ n ∧ ∀ x, x ∈ s → x ≤ n → x ≤ y)
  ∧ (GetExecutableLineOrPreviousOne n s = None ↔ ∀ x, x ∈ s → n < x).
Proof.
  intros Hs. rewrite GetExecutableLineOrPreviousOne_resolved by done.
  destruct (resolved_line_spec n s) as [Hin Hnin].
  destruct (decide (n ∈ s)) as [Hm|Hm].
  - rewrite (Hin Hm). split.
    + intros y. split.
      * intros ?; simplify_eq. repeat split; try done; lia.
      * intros (Hy & Hle & Hmax). f_equal.
        assert (n ≤ y) by (apply Hmax; [done|lia]). lia.
    + split; [done|]. intros Hall. specialize (Hall _ Hm). lia.
  - destruct (Hnin Hm) as [Hsome Hnone]. split.
    + intros y. rewrite Hsome. split.
      * intros [[Hy Hlt] Hmax]. repeat split; try done; [lia|].
        intros x Hx Hle. apply Hmax; [done|].
        destruct (decide (x = n)) as [->|]; [done|lia].
      * intros (Hy & Hle & Hmax).
        assert (y ≠ n) by (by intros ->).
        repeat split; try done; [lia|]. intros x Hx Hlt. apply Hmax; [done|lia].
    + rewrite Hnone. split.
      * intros Hall x Hx. specialize (Hall x Hx).
        destruct (decide (x = n)) as [->|]; [done|lia].
      * intros Hall x Hx. specialize (Hall x Hx). lia.
Qed.

(** X11.  On a set of executable lines, [GetExecutableLineOrPreviousOne]
    gives the greatest element of the set that is not above the line, and
    gives nothing exactly when every element of the set is above the line
    (the empty set included). *)
Theorem GetExecutableLineOrPreviousOne_greatest (lineNumber : Z)
    (executableLinesSet : list Z) :
  StronglySorted Z.lt executableLinesSet →
  (∀ y, GetExecutableLineOrPreviousOne lineNumber executableLinesSet = Some y
        ↔ y ∈ executableLinesSet ∧ y ≤ lineNumber
          ∧ ∀ x, x ∈ executableLinesSet → x ≤ lineNumber → x ≤ y)
  ∧ (GetExecutableLineOrPreviousOne lineNumber executableLinesSet = None
     ↔ ∀ x, x ∈ executableLinesSet → lineNumber < x).
Proof. apply nearest_line_facts. Qed.

(** X12.  The line [GetExecutableLineOrPreviousOne] gives resolves to
    itself, and a line further down resolves to a line that is not further
    up: the resolution is idempotent and monotone. *)
Theorem GetExecutableLineOrPreviousOne_idempotent_monotone
    (lineNumber lineNumber' y : Z) (executableLinesSet : list Z) :
  StronglySorted Z.lt executableLinesSet →
  GetExecutableLineOrPreviousOne lineNumber executableLinesSet = Some y →
  GetExecutableLineOrPreviousOne y executableLinesSet = Some y
  ∧ (lineNumber ≤ lineNumber' →
     ∃ y', GetExecutableLineOrPreviousOne lineNumber' executableLinesSet
           = Some y'
           ∧ y ≤ y').
Proof.
  intros Hs Hy.
  apply (nearest_line_facts lineNumber _ Hs) in Hy as (Hin & Hle & Hmax).
  split.
  - apply (nearest_line_facts y _ Hs). repeat split; [done|lia|auto].
  - intros Hn.
    destruct (GetExecutableLineOrPreviousOne lineNumber' executableLinesSet)
      as [y'|] eqn:E.
    + exists y'. split; [done|].
      apply (nearest_line_facts lineNumber' _ Hs) in E as (_ & _ & Hmax').
      apply Hmax'; [done|lia].
    + destruct (proj2 (nearest_line_facts lineNumber' _ Hs)) as [Hnone _].
      specialize (Hnone E y Hin). lia.
Qed.

Lemma any_of_asked (q : F → bool * F) (fs : list F) :
  (fst (any_of fs q) = true
   ∧ ∃ pre f post,
       fs = pre ++ f :: post
       ∧ Forall (λ g, fst (q g) = false) pre
       ∧ fst (q f) = true
       ∧ snd (any_of fs q) = ((λ g, snd (q g)) <$> pre) ++ snd (q f) :: post)
  ∨ (fst (any_of fs q) = false
     ∧ Forall (λ g, fst (q g) = false) fs
     ∧ snd (any_of fs q) = (λ g, snd (q g)) <$> fs).
Proof.
  induction fs as [|f fs IH]; simpl.
  - right. by repeat split.
  - destruct (q f) as [b f'] eqn:Q. destruct b.
    + left. split; [done|]. exists [], f, fs.
      repeat split; rewrite ?Q; done.
    + destruct (any_of fs q) as [b' fs'] eqn:A. simpl in *.
      destruct IH as [(-> & pre & g & post & -> & Hpre & Hg & ->)
                     |(-> & Hall & ->)].
      * left. split; [done|]. exists (f :: pre), g, post. simpl.
        repeat split; rewrite ?Q; try done. constructor; [by rewrite Q|done].
      * right. repeat split; rewrite ?Q; try done.
        constructor; [by rewrite Q|done].
Qed.

Lemma AnyOfOrTrueIfEmpty_asked (q : F → bool * F) (fs : list F) :
  asked_until_accept q fs (snd (AnyOfOrTrueIfEmpty fs q)).
Proof.
  unfold asked_until_accept, AnyOfOrTrueIfEmpty.
  destruct fs as [|f fs]; [right; by split|].
  destruct (any_of_asked q (f :: fs)) as [(_ & Hex)|(_ & Hall & Heq)];
    [by left|by right].
Qed.

Lemma asked_until_accept_length (q : F → bool * F) (fs fs' : list F) :
  asked_until_accept q fs fs' → length fs' = length fs.
Proof.
  intros [(pre & f & post & -> & _ & _ & ->)|(_ & ->)].
  - rewrite !length_app, length_fmap. done.
  - by rewrite length_fmap.
Qed.

(** X13.  A query that reaches the diff filters ([IsSourceFileSelected] of
    a file the wildcard filter accepts, [IsLineSelected] of a line with a
    nearest executable line) asks them from the first on and stops at the
    first that accepts: the filters before it have each been asked once,
    and the filters after it are left as they were. *)
Theorem queries_stop_at_first_accepting_filter
    (m : CoverageFilterManager (F:=F)) (filename : wstring) (lineNumber : Z)
    (executableLinesSet : list Z) :
  (wildcard_IsSourceFileSelected (wildcardCoverageFilter_ m) filename = true →
   asked_until_accept (λ filter, filter_IsSourceFileSelected filter filename)
     (unifiedDiffCoverageFilters_ m)
     (unifiedDiffCoverageFilters_ (snd (IsSourceFileSelected m filename))))
  ∧ (∀ executableLineNumber,
       GetExecutableLineOrPreviousOne lineNumber executableLinesSet
       = Some executableLineNumber →
       asked_until_accept
         (λ filter, filter_IsLineSelected filter filename executableLineNumber)
         (unifiedDiffCoverageFilters_ m)
         (unifiedDiffCoverageFilters_
            (snd (IsLineSelected m filename lineNumber executableLinesSet)))).
Proof.
  split.
  - intros Hw. unfold IsSourceFileSelected. rewrite Hw. simpl.
    pose proof (AnyOfOrTrueIfEmpty_asked
      (λ filter, filter_IsSourceFileSelected filter filename)
      (unifiedDiffCoverageFilters_ m)) as A.
    by destruct (AnyOfOrTrueIfEmpty _ _).
  - intros L HL. unfold IsLineSelected. rewrite HL.
    pose proof (AnyOfOrTrueIfEmpty_asked
      (λ filter, filter_IsLineSelected filter filename L)
      (unifiedDiffCoverageFilters_ m)) as A.
    destruct (unifiedDiffCoverageFilters_ m) as [|f fs] eqn:E.
    + right. by split.
    + by destruct (AnyOfOrTrueIfEmpty _ _).
Qed.

(** X14.  A query keeps the wildcard filter and the number of diff filters
    of the manager, so [IsModuleSelected] answers the same afterwards.  No
    diff filter is asked, and the manager is left as it was, when the
    wildcard filter rejects the file ([IsSourceFileSelected]) and when the
    line has no nearest executable line ([IsLineSelected]). *)
Theorem queries_keep_the_manager (m : CoverageFilterManager (F:=F))
    (filename : wstring) (lineNumber : Z) (executableLinesSet : list Z) :
  let m1 := snd (IsSourceFileSelected m filename) in
  let m2 := snd (IsLineSelected m filename lineNumber executableLinesSet) in
  (wildcardCoverageFilter_ m1 = wildcardCoverageFilter_ m
   ∧ length (unifiedDiffCoverageFilters_ m1)
     = length (unifiedDiffCoverageFilters_ m)
   ∧ (wildcard_IsSourceFileSelected (wildcardCoverageFilter_ m) filename
      = false → m1 = m))
  ∧ (wildcardCoverageFilter_ m2 = wildcardCoverageFilter_ m
     ∧ length (unifiedDiffCoverageFilters_ m2)
       = length (unifiedDiffCoverageFilters_ m)
     ∧ (GetExecutableLineOrPreviousOne lineNumber executableLinesSet = None
        → m2 = m))
  ∧ ∀ modulename,
      IsModuleSelected m1 modulename = IsModuleSelected m modulename
      ∧ IsModuleSelected m2 modulename = IsModuleSelected m modulename.
Proof.
  intros m1 m2.
  assert (H1 : wildcardCoverageFilter_ m1 = wildcardCoverageFilter_ m
    ∧ length (unifiedDiffCoverageFilters_ m1)
      = length (unifiedDiffCoverageFilters_ m)
    ∧ (wildcard_IsSourceFileSelected (wildcardCoverageFilter_ m) filename
       = false → m1 = m)).
  { subst m1 m2. unfold IsSourceFileSelected.
    destruct (wildcard_IsSourceFileSelected _ filename); simpl; [|done].
    pose proof (AnyOfOrTrueIfEmpty_asked
      (λ filter, filter_IsSourceFileSelected filter filename)
      (unifiedDiffCoverageFilters_ m)) as A.
    destruct (AnyOfOrTrueIfEmpty _ _) as [b fs']. simpl in *.
    split; [done|]. split; [|done]. by eapply asked_until_accept_length. }
  assert (H2 : wildcardCoverageFilter_ m2 = wildcardCoverageFilter_ m
    ∧ length (unifiedDiffCoverageFilters_ m2)
      = length (unifiedDiffCoverageFilters_ m)
    ∧ (GetExecutableLineOrPreviousOne lineNumber executableLinesSet = None
       → m2 = m)).
  { subst m1 m2. unfold IsLineSelected.
    destruct (unifiedDiffCoverageFilters_ m) as [|f fs] eqn:E;
      [simpl; by rewrite E|].
    destruct (GetExecutableLineOrPreviousOne _ _) as [L|];
      [|simpl; by rewrite E].
    pose proof (AnyOfOrTrueIfEmpty_asked
      (λ filter, filter_IsLineSelected filter filename L) (f :: fs)) as A.
    destruct (AnyOfOrTrueIfEmpty _ _) as [b fs']. cbn [fst snd] in *.
    apply asked_until_accept_length in A.
    split; [done|]. split; [|done]. done. }
  split; [done|]. split; [done|].
  intros modulename. unfold IsModuleSelected.
  destruct H1 as [-> _], H2 as [-> _]. done.
Qed.



(** X16.  The warning has no line when there is no unmatched path, and
    otherwise 4 lines, one line per path up to [maxUnmatchPaths], and one
    more when paths are left out: never more than [maxUnmatchPaths + 5]. *)
Theorem warning_line_count (m : CoverageFilterManager (F:=F))
    (maxUnmatchPaths : nat) :
  let N := length (collect_unmatchPaths m) in
  length (ComputeWarningMessageLines GetSeparatorLine VerboseOption m
            maxUnmatchPaths)
  = (if (N =? 0)%nat then 0
     else 4 + N `min` maxUnmatchPaths
          + if (maxUnmatchPaths <? N)%nat then 1 else 0)%nat
  ∧ (length (ComputeWarningMessageLines GetSeparatorLine VerboseOption m
               maxUnmatchPaths) ≤ maxUnmatchPaths + 5)%nat.
Proof.
  intros N. subst N. unfold ComputeWarningMessageLines.
  generalize (collect_unmatchPaths m). intros l.
  unfold ComputeWarningMessageLines_for.
  destruct l as [|p l]; [simpl; split; [done|lia]|].
  rewrite path_lines_spec, Nat.sub_0_r.
  rewrite !length_app, length_fmap, length_take.
  cbn [length Nat.eqb].
  destruct (Nat.ltb_spec maxUnmatchPaths (S (length l)));
    cbn [length]; split; lia.
Qed.

Context {CoverageSettings UnifiedDiffSettings DiffPath RootFolder : Type}.
Variable GetUnifiedDiffPath : UnifiedDiffSettings → DiffPath.
Variable GetRootDiffFolder : UnifiedDiffSettings → RootFolder.
Variable new_WildcardCoverageFilter : CoverageSettings → WildcardCoverageFilter.
Variable new_UnifiedDiffCoverageFilter : DiffPath → RootFolder → F.

Lemma ToUnifiedDiffCoverageFilters_fmap (ss : list UnifiedDiffSettings) :
  ToUnifiedDiffCoverageFilters GetUnifiedDiffPath GetRootDiffFolder
    new_UnifiedDiffCoverageFilter ss
  = (λ s, new_UnifiedDiffCoverageFilter (GetUnifiedDiffPath s)
            (GetRootDiffFolder s)) <$> ss.
Proof.
  unfold ToUnifiedDiffCoverageFilters.
  assert (G : ∀ acc : list F,
    foldl (λ fs s, fs ++ [new_UnifiedDiffCoverageFilter
                            (GetUnifiedDiffPath s) (GetRootDiffFolder s)])
          acc ss
    = acc ++ ((λ s, new_UnifiedDiffCoverageFilter (GetUnifiedDiffPath s)
                      (GetRootDiffFolder s)) <$> ss)).
  { induction ss as [|s ss IH]; intros acc; simpl.
    - by rewrite app_nil_r.
    - by rewrite IH, <- app_assoc. }
  apply (G []).
Qed.

(** X17.  The manager built from settings has one diff filter per unified
    diff settings entry, in the order of the entries, and its
    [IsModuleSelected] is the wildcard filter's.  Built without any unified
    diff settings, it selects every line, selects a source file exactly when
    the wildcard filter does, is left unchanged by both queries, and has no
    warning. *)
Theorem constructed_manager (settings : CoverageSettings)
    (unifiedDiffSettingsCollection : list UnifiedDiffSettings) :
  let m := new_CoverageFilterManager GetUnifiedDiffPath GetRootDiffFolder
             new_WildcardCoverageFilter new_UnifiedDiffCoverageFilter
             settings unifiedDiffSettingsCollection in
  let m0 := new_CoverageFilterManager GetUnifiedDiffPath GetRootDiffFolder
              new_WildcardCoverageFilter new_UnifiedDiffCoverageFilter
              settings [] in
  unifiedDiffCoverageFilters_ m
  = ((λ s, new_UnifiedDiffCoverageFilter (GetUnifiedDiffPath s)
             (GetRootDiffFolder s)) <$> unifiedDiffSettingsCollection)
  ∧ (∀ modulename,
       IsModuleSelected m modulename
       = wildcard_IsModuleSelected (new_WildcardCoverageFilter settings)
           modulename)
  ∧ (∀ filename,
       IsSourceFileSelected m0 filename
       = (wildcard_IsSourceFileSelected (new_WildcardCoverageFilter settings)
            filename, m0))
  ∧ (∀ filename lineNumber executableLinesSet,
       IsLineSelected m0 filename lineNumber executableLinesSet = (true, m0))
  ∧ (∀ maxUnmatchPaths,
       ComputeWarningMessageLines GetSeparatorLine VerboseOption m0
         maxUnmatchPaths = []).
Proof.
  intros m m0. split; [apply ToUnifiedDiffCoverageFilters_fmap|].
  split; [done|]. split; [|done].
  intros filename. subst m0.
  unfold IsSourceFileSelected, new_CoverageFilterManager,
    new_CoverageFilterManager_from_filters. simpl.
  by destruct (wildcard_IsSourceFileSelected _ filename).
Qed.
End more_facts.
(** *** Examples *)

Lemma GetExecutableLineOrPreviousOne_greatest_witness :
  StronglySorted Z.lt [10; 20; 30]
  ∧ (∀ y, GetExecutableLineOrPreviousOne 25 [10; 20; 30] = Some y
          ↔ y ∈ [10; 20; 30] ∧ y ≤ 25
            ∧ ∀ x, x ∈ [10; 20; 30] → x ≤ 25 → x ≤ y)
  ∧ (GetExecutableLineOrPreviousOne 25 [10; 20; 30] = None
     ↔ ∀ x, x ∈ [10; 20; 30] → 25 < x).
Proof.
  assert (Hs : StronglySorted Z.lt [10; 20; 30]).
  { repeat constructor; lia. }
  split; [done|].
  by apply (GetExecutableLineOrPreviousOne_greatest 25 [10; 20; 30]).
Defined.

Lemma GetExecutableLineOrPreviousOne_idempotent_monotone_witness :
  StronglySorted Z.lt [10; 20; 30]
  ∧ GetExecutableLineOrPreviousOne 25 [10; 20; 30] = Some 20
  ∧ GetExecutableLineOrPreviousOne 20 [10; 20; 30] = Some 20
  ∧ (25 ≤ 31 →
     ∃ y', GetExecutableLineOrPreviousOne 31 [10; 20; 30] = Some y'
           ∧ 20 ≤ y').
Proof.
  assert (Hs : StronglySorted Z.lt [10; 20; 30]).
  { repeat constructor; lia. }
  split; [done|]. split; [by vm_compute|].
  by apply (GetExecutableLineOrPreviousOne_idempotent_monotone 25 31 20
              [10; 20; 30]).
Defined.


End CoverageFilterManagerMoreFacts.
